(** * go-deepmod: sync-replaces

    A shallow embedding of the Go packages [internal/pathutil],
    [internal/gomod] and [internal/sync], and the properties of the
    reconciliation policy that the specification states about them.

    Go strings are byte sequences; they are modelled by [string], whose
    characters are the 256 values of [ascii]. *)

From Stdlib Require Import ZArith Ascii String DecimalString List Lia Bool.
From Stdlib Require Import OrderedTypeEx.
From stdpp Require Import base option list gmap strings fin_maps sorting.

Local Open Scope string_scope.

(** ** The parts of Go's [strings] package that the program calls *)

Module strings.

(** [strings.HasPrefix(s, prefix)]. *)
Fixpoint HasPrefix (s prefix : string) {struct prefix} : bool :=
  match prefix with
  | EmptyString => true
  | String p prefix' =>
      match s with
      | EmptyString => false
      | String c s' => if Ascii.eqb c p then HasPrefix s' prefix' else false
      end
  end.

(** [strings.Index(s, substr)]: byte offset of the first occurrence. *)
Fixpoint Index (s substr : string) : option nat :=
  if HasPrefix s substr then Some 0
  else match s with
       | EmptyString => None
       | String _ s' => S <$> Index s' substr
       end.

(** [strings.Contains(s, substr)]. *)
Definition Contains (s substr : string) : bool :=
  match Index s substr with Some _ => true | None => false end.

(** The slice [s[n:]]. *)
Fixpoint drop (n : nat) (s : string) : string :=
  match n, s with
  | O, _ => s
  | S _, EmptyString => EmptyString
  | S n', String _ s' => drop n' s'
  end.

(** The slice [s[:n]]. *)
Fixpoint take (n : nat) (s : string) : string :=
  match n, s with
  | S n', String c s' => String c (take n' s')
  | _, _ => EmptyString
  end.

(** [strings.Replace(s, old, new, 1)] for a non-empty [old]: the first
    occurrence of [old] is replaced, the rest of [s] is kept. *)
Fixpoint Replace1 (s old new : string) : string :=
  if HasPrefix s old then new ++ drop (String.length old) s
  else match s with
       | EmptyString => EmptyString
       | String c s' => String c (Replace1 s' old new)
       end.

End strings.

(** ** Package [pathutil] *)

Module pathutil.

(** [filepath.IsAbs] of [path/filepath] on a Unix host: the path starts
    with the separator. *)
Definition filepath_IsAbs (path : string) : bool := strings.HasPrefix path "/".

(** The byte [path[i]], when [i < len(path)]. *)
Definition byte_at (path : string) (i : nat) : option ascii := String.get i path.

Definition IsLocalPath (path : string) : bool :=
  if String.eqb path "" then false
  else if strings.HasPrefix path "./" || strings.HasPrefix path "../" then true
  else if String.eqb path "." || String.eqb path ".." then true
  else if filepath_IsAbs path then true
  else if (2 <=? String.length path)%nat &&
          bool_decide (byte_at path 1 = Some ":"%char) then true
  else false.

(** An ASCII letter, the [<letter>] of a drive prefix. *)
Definition isLetter (c : ascii) : bool :=
  let n := nat_of_ascii c in
  (((65 <=? n) && (n <=? 90)) || ((97 <=? n) && (n <=? 122)))%nat.

(** The classification as the specification words it: [.], [..], a
    [./] or [../] prefix, a leading separator, or a drive-letter prefix
    [<letter>:]. *)
Definition spec_IsLocalPath (t : string) : bool :=
  String.eqb t "." || String.eqb t ".." ||
  strings.HasPrefix t "./" || strings.HasPrefix t "../" ||
  strings.HasPrefix t "/" ||
  match t with
  | String c (String d _) => isLetter c && Ascii.eqb d ":"
  | _ => false
  end.

End pathutil.

(** ** Errors and results

    A Go [error] is represented by its message; a function returning
    [(T, error)] returns a [result T]. *)

Definition error := string.

Inductive result (A : Type) : Type :=
| Ok (a : A)
| Err (e : error).
Arguments Ok {A} a.
Arguments Err {A} e.

(** ** Iteration over a Go map

    [for _, v := range m] visits every entry once, in an order that the
    language leaves unspecified and that the runtime varies from one loop
    to the next.  A loop is therefore run under a [MapOrder]: the
    arrangement that this particular execution of the loop draws. *)

Record MapOrder := {
  range_order : forall A : Type, list A -> list A;
  range_order_perm : forall (A : Type) (l : list A), range_order A l ≡ₚ l
}.
Arguments range_order _ {A} _.

Definition listing_order : MapOrder :=
  {| range_order := fun A l => l;
     range_order_perm := fun A l => reflexivity l |}.

Definition reverse_order : MapOrder :=
  {| range_order := fun A l => reverse l;
     range_order_perm := fun A l => reverse_Permutation l |}.

(** ** The parts of [golang.org/x/mod/modfile] that the program reads *)

Module modfile.

(** [module.Version]. *)
Record Version := { Path : string; Vers : string }.

Record Comment := { Token : string }.

(** The syntax line of a directive; only its suffix comments are read. *)
Record Line := { Suffix : list Comment }.

Record Replace := { Old : Version; New : Version; Syntax : option Line }.

Record File := { Replaces : list Replace }.

End modfile.

(** ** Package [gomod] *)

Module gomod.

Record Replace := {
  Old : string;
  New : string;
  OldVer : string;
  NewVer : string;
  Source : string
}.

#[global] Instance Replace_eq_dec : EqDecision Replace.
Proof. solve_decision. Defined.

Definition with_Source (r : Replace) (src : string) : Replace :=
  {| Old := Old r; New := New r; OldVer := OldVer r; NewVer := NewVer r;
     Source := src |}.

Definition IsLocal (r : Replace) : bool := pathutil.IsLocalPath (New r).

(** The record built from one parsed directive, [Source] still empty. *)
Definition of_directive (r : modfile.Replace) : Replace :=
  {| Old := modfile.Path (modfile.Old r);
     OldVer := modfile.Vers (modfile.Old r);
     New := modfile.Path (modfile.New r);
     NewVer := modfile.Vers (modfile.New r);
     Source := "" |}.

Fixpoint indexOf_from (iterations i : nat) (s substr : string) : Z :=
  match iterations with
  | O => (-1)%Z
  | S iterations' =>
      if String.eqb (String.substring i (String.length substr) s) substr
      then Z.of_nat i
      else indexOf_from iterations' (S i) s substr
  end.

(** The loop runs for [i = 0 .. len(s)-len(substr)], not at all when the
    bound is negative. *)
Definition indexOf (s substr : string) : Z :=
  indexOf_from
    (Z.to_nat (Z.of_nat (String.length s) - Z.of_nat (String.length substr) + 1))
    0 s substr.

Section Reading.

(** [os.ReadFile] on the file system as it is when the function is
    called, [modfile.Parse(path, data, nil)], and [strings.TrimSpace] of
    Go's standard library. *)
Variable os_ReadFile : string -> result string.
Variable modfile_Parse : string -> string -> result modfile.File.
Variable strings_TrimSpace : string -> string.

Definition ParseReplaces (path : string) : result (list Replace) :=
  match os_ReadFile path with
  | Err err => Err err
  | Ok data =>
      match modfile_Parse path data with
      | Err err => Err err
      | Ok f =>
          Ok (fold_left
                (fun replaces r =>
                   let rep := of_directive r in
                   if negb (IsLocal rep) then (replaces ++ [rep])%list else replaces)
                (modfile.Replaces f) [])
      end
  end.

(** The body of the loop over the suffix comments of a directive. *)
Definition source_step (rep : Replace) (c : modfile.Comment) : Replace :=
  let text := modfile.Token c in
  if (0 <? String.length text)%nat then
    let idx := indexOf text "from:" in
    if (0 <=? idx)%Z
    then with_Source rep (strings_TrimSpace (strings.drop (Z.to_nat (idx + 5)) text))
    else rep
  else rep.

(** The record built from one directive by [ParseReplacesWithSource]. *)
Definition annotate (r : modfile.Replace) : Replace :=
  match modfile.Syntax r with
  | Some line => fold_left source_step (modfile.Suffix line) (of_directive r)
  | None => of_directive r
  end.

Definition ParseReplacesWithSource (path : string) : result (list Replace) :=
  match os_ReadFile path with
  | Err err => Err err
  | Ok data =>
      match modfile_Parse path data with
      | Err err => Err err
      | Ok f =>
          Ok (fold_left
                (fun replaces r =>
                   let rep := annotate r in
                   if negb (String.eqb (Source rep) "")
                   then (replaces ++ [rep])%list else replaces)
                (modfile.Replaces f) [])
      end
  end.

End Reading.

Section Dedup.

(** [semver.Compare] of [golang.org/x/mod/semver]: negative, zero or
    positive. *)
Variable semver_Compare : string -> string -> Z.

(** The map key of a record: [r.Old], or [r.Old@r.OldVer] when the
    constraint is not empty. *)
Definition key_of (r : Replace) : string :=
  if negb (String.eqb (OldVer r) "") then Old r ++ "@" ++ OldVer r
  else Old r.

(** One iteration of the first loop of [Deduplicate]. *)
Definition dedup_step (byKey : gmap string Replace) (r : Replace)
  : gmap string Replace :=
  let key := key_of r in
  match byKey !! key with
  | Some existing =>
      if (semver_Compare (NewVer r) (NewVer existing) <? 0)%Z
      then <[key := r]> byKey
      else byKey
  | None => <[key := r]> byKey
  end.

Definition byKey_of (replaces : list Replace) : gmap string Replace :=
  fold_left dedup_step replaces ∅.

(** The values held by the map, in the reference listing of [gmap]; the
    second loop visits them in the arrangement drawn by [order]. *)
Definition entries (byKey : gmap string Replace) : list Replace :=
  (map_to_list byKey).*2.

Definition Deduplicate (order : MapOrder) (replaces : list Replace)
  : list Replace :=
  fold_left (fun result r => (result ++ [r])%list)
            (range_order order (entries (byKey_of replaces))) [].

(** *** The policy in the specification's words

    The specification groups records by the pair of [OldTarget] and
    [OldConstraint], the latter possibly empty. *)
Definition group_key (r : Replace) : string * string := (Old r, OldVer r).

(** The members of a group, in input order. *)
Definition group (k : string * string) (replaces : list Replace) : list Replace :=
  filter (fun r => group_key r = k) replaces.

(** [r] compares lowest among the candidates [candidates]. *)
Definition lowest (candidates : list Replace) (r : Replace) : bool :=
  forallb (fun s => (semver_Compare (NewVer r) (NewVer s) <=? 0)%Z) candidates.

(** The earliest candidate that compares lowest. *)
Definition first_lowest (candidates : list Replace) : option Replace :=
  find (lowest candidates) candidates.

(** Exactly one record per group, and it compares lowest in its
    group. *)
Definition one_lowest_per_group (replaces result : list Replace) : Prop :=
  forall r, r ∈ replaces ->
    exists w, filter (fun s => group_key s = group_key r) result = [w] /\
              lowest (group (group_key r) replaces) w = true.

(** The record kept for a group is its earliest lowest member. *)
Definition ties_keep_earliest (replaces result : list Replace) : Prop :=
  forall r w, r ∈ replaces ->
    first_lowest (group (group_key r) replaces) = Some w ->
    filter (fun s => group_key s = group_key r) result = [w].

(** Records of different groups never share a map key. *)
Definition keys_faithful (replaces : list Replace) : Prop :=
  forall r s, r ∈ replaces -> s ∈ replaces ->
    key_of r = key_of s -> group_key r = group_key s.

End Dedup.

(** ['@'] does not occur in [s]. *)
Fixpoint no_at (s : string) : bool :=
  match s with
  | EmptyString => true
  | String c s' => negb (Ascii.eqb c "@") && no_at s'
  end.

End gomod.

(** ** [golang.org/x/mod/semver]

    [gomod.Deduplicate] is stated over any [semver_Compare]; what the
    reconciliation needs from it is the contract of a three-way
    comparison.  The library's own [Compare] is given below the class and
    is shown further down to meet it. *)

Class ThreeWayOrder {A : Type} (cmp : A -> A -> Z) : Prop := {
  cmp_flip : forall v w, (cmp v w < 0)%Z <-> (0 < cmp w v)%Z;
  cmp_le_trans :
    forall u v w, (cmp u v <= 0)%Z -> (cmp v w <= 0)%Z -> (cmp u w <= 0)%Z
}.

(** The stronger form in which the library's comparisons are analysed:
    swapping the arguments negates the result. *)
Class Order3 {A : Type} (cmp : A -> A -> Z) : Prop := {
  o3_opp : forall a b, cmp b a = (- cmp a b)%Z;
  o3_trans :
    forall a b c, (cmp a b <= 0)%Z -> (cmp b c <= 0)%Z -> (cmp a c <= 0)%Z
}.

Section Combinators.

Context {A B : Type}.

(** Compare by [c1], and by [c2] where [c1] sees no difference. *)
Definition lex (c1 c2 : A -> A -> Z) (a b : A) : Z :=
  if negb (c1 a b =? 0)%Z then c1 a b else c2 a b.

Definition on (f : A -> B) (c : B -> B -> Z) (a b : A) : Z := c (f a) (f b).

(** [None] below every [Some]. *)
Definition lift_opt (c : A -> A -> Z) (a b : option A) : Z :=
  match a, b with
  | None, None => 0%Z
  | None, Some _ => (-1)%Z
  | Some _, None => 1%Z
  | Some a, Some b => c a b
  end.

End Combinators.

Module semver.

Record parsed := {
  major : string;
  minor : string;
  patch : string;
  short : string;
  prerelease : string;
  build : string
}.

Definition isDigit (c : ascii) : bool :=
  let n := nat_of_ascii c in ((48 <=? n) && (n <=? 57))%nat.

Definition isIdentChar (c : ascii) : bool :=
  let n := nat_of_ascii c in
  (((65 <=? n) && (n <=? 90)) || ((97 <=? n) && (n <=? 122)) ||
   ((48 <=? n) && (n <=? 57)) || (n =? 45))%nat.

(** The longest prefix of digits and what follows it. *)
Fixpoint digits (v : string) : string * string :=
  match v with
  | String c v' =>
      if isDigit c then let '(t, rest) := digits v' in (String c t, rest)
      else (EmptyString, v)
  | EmptyString => (EmptyString, EmptyString)
  end.

Definition isNum (v : string) : bool :=
  String.eqb (snd (digits v)) "".

Definition isBadNum (v : string) : bool :=
  isNum v && (1 <? String.length v)%nat &&
  match v with String c _ => Ascii.eqb c "0" | EmptyString => false end.

Definition parseInt (v : string) : option (string * string) :=
  match v with
  | EmptyString => None
  | String c _ =>
      if negb (isDigit c) then None
      else
        let '(t, rest) := digits v in
        if Ascii.eqb c "0" && negb (String.length t =? 1)%nat then None
        else Some (t, rest)
  end.

(** The scanning loop shared by [parsePrerelease] and [parseBuild]:
    [v] is the input from index [i] on, [ident] is [v[start:i]] and
    [taken] is [v[:i]].  A prerelease stops at ['+'] and rejects
    numeric identifiers with a leading zero. *)
Fixpoint scan (pre : bool) (v ident taken : string) : option (string * string) :=
  let finish :=
    if String.eqb ident "" || (pre && isBadNum ident) then None
    else Some (taken, v) in
  match v with
  | EmptyString => finish
  | String c v' =>
      if pre && Ascii.eqb c "+" then finish
      else if negb (isIdentChar c) && negb (Ascii.eqb c ".") then None
      else if Ascii.eqb c "." then
        if String.eqb ident "" || (pre && isBadNum ident) then None
        else scan pre v' "" (taken ++ String c "")
      else scan pre v' (ident ++ String c "") (taken ++ String c "")
  end.

Definition starts_with (c : ascii) (v : string) : bool :=
  match v with String d _ => Ascii.eqb d c | EmptyString => false end.

Definition parsePrerelease (v : string) : option (string * string) :=
  if String.eqb v "" || negb (starts_with "-" v) then None
  else scan true (strings.drop 1 v) "" "-".

Definition parseBuild (v : string) : option (string * string) :=
  if String.eqb v "" || negb (starts_with "+" v) then None
  else scan false (strings.drop 1 v) "" "+".

(** [parse] after the patch number: an optional prerelease, an optional
    build, and nothing more. *)
Definition parse_tail (maj min pat v : string) : option parsed :=
  match (if starts_with "-" v then parsePrerelease v else Some ("", v)) with
  | None => None
  | Some (pre, v) =>
      match (if starts_with "+" v then parseBuild v else Some ("", v)) with
      | None => None
      | Some (bld, v) =>
          if negb (String.eqb v "") then None
          else Some {| major := maj; minor := min; patch := pat; short := "";
                       prerelease := pre; build := bld |}
      end
  end.

Definition parse (v : string) : option parsed :=
  if String.eqb v "" || negb (starts_with "v" v) then None else
  match parseInt (strings.drop 1 v) with
  | None => None
  | Some (maj, v) =>
      if String.eqb v "" then
        Some {| major := maj; minor := "0"; patch := "0"; short := ".0.0";
                prerelease := ""; build := "" |}
      else if negb (starts_with "." v) then None else
      match parseInt (strings.drop 1 v) with
      | None => None
      | Some (min, v) =>
          if String.eqb v "" then
            Some {| major := maj; minor := min; patch := "0"; short := ".0";
                    prerelease := ""; build := "" |}
          else if negb (starts_with "." v) then None else
          match parseInt (strings.drop 1 v) with
          | None => None
          | Some (pat, v) => parse_tail maj min pat v
          end
      end
  end.

(** The result of Go's [x < y] on strings of different contents. *)
Definition less (x y : string) : Z :=
  match String.compare x y with Lt => (-1)%Z | _ => 1%Z end.

Definition compareInt (x y : string) : Z :=
  if String.eqb x y then 0%Z
  else if (String.length x <? String.length y)%nat then (-1)%Z
  else if (String.length y <? String.length x)%nat then 1%Z
  else less x y.

(** [nextIdent]: up to the next ['.'] and the rest. *)
Fixpoint nextIdent (x : string) : string * string :=
  match x with
  | String c x' =>
      if Ascii.eqb c "." then (EmptyString, x)
      else let '(dx, rest) := nextIdent x' in (String c dx, rest)
  | EmptyString => (EmptyString, EmptyString)
  end.

(** The comparison of two different identifiers. *)
Definition compareIdent (dx dy : string) : Z :=
  let ix := isNum dx in
  let iy := isNum dy in
  if negb (Bool.eqb ix iy) then (if ix then (-1)%Z else 1%Z)
  else if ix && (String.length dx <? String.length dy)%nat then (-1)%Z
  else if ix && (String.length dy <? String.length dx)%nat then 1%Z
  else less dx dy.

(** The loop of [comparePrerelease]; every iteration shortens [x], so
    [String.length x] iterations are enough. *)
Fixpoint comparePrerelease_loop (iterations : nat) (x y : string) : Z :=
  match iterations with
  | O => if String.eqb x "" then (-1)%Z else 1%Z
  | S iterations' =>
      if negb (String.eqb x "") && negb (String.eqb y "") then
        let '(dx, x) := nextIdent (strings.drop 1 x) in
        let '(dy, y) := nextIdent (strings.drop 1 y) in
        if negb (String.eqb dx dy) then compareIdent dx dy
        else comparePrerelease_loop iterations' x y
      else if String.eqb x "" then (-1)%Z else 1%Z
  end.

Definition comparePrerelease (x y : string) : Z :=
  if String.eqb x y then 0%Z
  else if String.eqb x "" then 1%Z
  else if String.eqb y "" then (-1)%Z
  else comparePrerelease_loop (String.length x) x y.

Definition Compare (v w : string) : Z :=
  match parse v, parse w with
  | None, None => 0%Z
  | None, Some _ => (-1)%Z
  | Some _, None => 1%Z
  | Some pv, Some pw =>
      let c := compareInt (major pv) (major pw) in
      if negb (c =? 0)%Z then c else
      let c := compareInt (minor pv) (minor pw) in
      if negb (c =? 0)%Z then c else
      let c := compareInt (patch pv) (patch pw) in
      if negb (c =? 0)%Z then c else
      comparePrerelease (prerelease pv) (prerelease pw)
  end.

(** *** Precedence keys

    The order that [Compare] induces, read off a key: the three numbers
    and the list of prerelease identifiers. *)

Definition str_ltb (x y : string) : bool :=
  match String.compare x y with Lt => true | _ => false end.

(** Shorter first, then bytewise: the order of [compareInt]. *)
Definition shortlex_ltb (x y : string) : bool :=
  (String.length x <? String.length y)%nat ||
  ((String.length x =? String.length y)%nat && str_ltb x y).

(** Numeric identifiers first and by value, the others bytewise. *)
Definition ident_ltb (x y : string) : bool :=
  if isNum x
  then (if isNum y then shortlex_ltb x y else true)
  else (if isNum y then false else str_ltb x y).

Fixpoint split_dots (s : string) : list string :=
  match s with
  | EmptyString => [EmptyString]
  | String c s' =>
      if Ascii.eqb c "." then EmptyString :: split_dots s'
      else match split_dots s' with
           | d :: l => String c d :: l
           | [] => [String c EmptyString]
           end
  end.

(** The identifiers of a prerelease, its leading byte dropped. *)
Definition idents_of (x : string) : list string :=
  match x with
  | EmptyString => []
  | String _ s => split_dots s
  end.

Fixpoint join_dots (l : list string) : string :=
  match l with
  | [] => EmptyString
  | [d] => d
  | d :: l' => d ++ String "." (join_dots l')
  end.

Fixpoint lexL (l1 l2 : list string) : Z :=
  match l1, l2 with
  | [], [] => 0%Z
  | [], _ :: _ => (-1)%Z
  | _ :: _, [] => 1%Z
  | a :: l1', b :: l2' =>
      if String.eqb a b then lexL l1' l2' else compareIdent a b
  end.

(** No prerelease at all ranks above every prerelease. *)
Definition cmpKey (l1 l2 : list string) : Z :=
  match l1, l2 with
  | [], [] => 0%Z
  | [], _ :: _ => 1%Z
  | _ :: _, [] => (-1)%Z
  | _, _ => lexL l1 l2
  end.

Definition identCmp (a b : string) : Z :=
  if String.eqb a b then 0%Z else compareIdent a b.

Definition precedence_key : Type :=
  option (string * (string * (string * list string))).

Definition keyOf (v : string) : precedence_key :=
  match parse v with
  | None => None
  | Some p => Some (major p, (minor p, (patch p, idents_of (prerelease p))))
  end.

Definition cmpK : precedence_key -> precedence_key -> Z :=
  lift_opt
    (lex (on fst compareInt)
       (on snd (lex (on fst compareInt)
                  (on snd (lex (on fst compareInt) (on snd cmpKey)))))).

(** A prerelease as [parse] returns it: empty, or led by a hyphen. *)
Definition hyphenated (x : string) : Prop :=
  x = "" \/ exists s, x = String "-" s.

End semver.

(** ** Package [sync] *)

Module sync.

(** An [io.Writer]: the standard output or the standard error of the
    process, or an injected sink. *)
Inductive Writer := Stdout | Stderr | Sink (name : string).

Record Options := {
  Output : option Writer;
  Dir : string;
  DryRun : bool;
  Verbose : bool;
  SkipTidy : bool
}.

Record moduleInfo := {
  Path : string;
  Version : string;
  ModDir : string;
  Main : bool;
  Indirect : bool
}.

(** An external process: the directory it runs in and its argument
    vector, program name first. *)
Record Command := { cmd_dir : string; cmd_argv : list string }.

(** What a run can observe and change: the files (path to contents), the
    texts written to each writer, and the processes started so far. *)
Record World := {
  files : gmap string string;
  written : list (Writer * string);
  executed : list Command
}.

(** Effectful code threads the [World]. *)
Definition M (A : Type) : Type := World -> A * World.

Definition ret {A : Type} (a : A) : M A := fun w => (a, w).

Definition bind {A B : Type} (m : M A) (f : A -> M B) : M B :=
  fun w => let '(a, w') := m w in f a w'.

(** A computation that at most writes to a writer: the files and the
    started processes stay as they are. *)
Definition quiet {A : Type} (m : M A) : Prop :=
  forall w, files (m w).2 = files w /\ executed (m w).2 = executed w.

(** A computation that writes to no writer but those of [outs]. *)
Definition writes_to {A : Type} (outs : list Writer) (m : M A) : Prop :=
  forall w, exists entries,
    written (m w).2 = (written w ++ entries)%list /\
    Forall (fun entry => entry.1 ∈ outs) entries.

(** Two computations that, started on worlds with the same files and
    the same started processes, return the same result and leave the
    same files and started processes. *)
Definition same_effects {A : Type} (m m' : M A) : Prop :=
  forall w w', files w = files w' -> executed w = executed w' ->
    (m w).1 = (m' w').1 /\
    files (m w).2 = files (m' w').2 /\
    executed (m w).2 = executed (m' w').2.

Declare Scope M_scope.
Delimit Scope M_scope with M.
Notation "x ← y ; z" := (bind y (fun x => z))
  (at level 20, y at level 100, z at level 200, only parsing) : M_scope.
Notation "x ;; z" := (bind x (fun _ => z))
  (at level 100, z at level 200, only parsing, right associativity) : M_scope.
Local Open Scope M_scope.

Definition os_ReadFile (fs : gmap string string) (path : string) : result string :=
  match fs !! path with
  | Some data => Ok data
  | None => Err ("open " ++ path ++ ": no such file or directory")
  end.

Definition Fprintf (out : Writer) (text : string) : M unit :=
  fun w =>
    (tt, {| files := files w;
            written := (written w ++ [(out, text)])%list;
            executed := executed w |}).

(** The closures [log] and [verbose] of [Run]. *)
Definition log (out : Writer) (line : string) : M unit :=
  Fprintf out (line ++ String "010" "").

Definition verbose (out : Writer) (enabled : bool) (line : string) : M unit :=
  if enabled then log out line else ret tt.

(** [%d] of a length. *)
Definition itoa (n : nat) : string := NilEmpty.string_of_uint (Nat.to_uint n).

Section Sync.

Variable os_Getwd : result string.
Variable filepath_Join : string -> string -> string.
Variable modfile_Parse : string -> string -> result modfile.File.
Variable semver_Compare : string -> string -> Z.

(** The arrangement in which this run's [Deduplicate] walks its map. *)
Variable order : MapOrder.

(** The [go] tool: started on a file system, it leaves a file system
    and either fails or yields its standard output. *)
Variable go : Command -> gmap string string -> gmap string string * result string.

(** The successive outcomes of [dec.Decode] on the output of
    [go list], for as long as [dec.More()] holds. *)
Variable json_Decode : string -> list (result moduleInfo).

(** [strings.TrimSpace] of Go's standard library. *)
Variable strings_TrimSpace : string -> string.

(** The error of [os.WriteFile(path, data, 0644)] on the given files
    when the system refuses the write (a read-only file, a missing
    directory), [None] when the write goes through. *)
Variable write_error : string -> string -> gmap string string -> option error.

(** What the [go] tool, started on a file system, writes to its standard
    error. *)
Variable go_stderr : Command -> gmap string string -> list string.

(** [os.WriteFile(path, data, 0644)]: a refused write returns its error
    and leaves the files as they are, any other replaces the contents.
    A write that fails once the file has been truncated is outside this
    model. *)
Definition os_WriteFile (path data : string) : M (option error) :=
  fun w =>
    match write_error path data (files w) with
    | Some err => (Some err, w)
    | None =>
        (None, {| files := <[path := data]> (files w);
                  written := written w; executed := executed w |})
    end.

(** Every process that is started succeeds. *)
Definition go_succeeds : Prop := forall c fs, exists out, (go c fs).2 = Ok out.

(** The commands that [Run] starts. *)
Definition go_list (dir : string) : Command :=
  {| cmd_dir := dir; cmd_argv := ["go"; "list"; "-m"; "-json"; "all"] |}.

Definition go_mod_edit_replace (dir : string) (r : gomod.Replace) : Command :=
  {| cmd_dir := dir;
     cmd_argv := ["go"; "mod"; "edit";
                  "-replace=" ++ (gomod.Old r ++ "=" ++ gomod.New r ++ "@" ++ gomod.NewVer r)] |}.

Definition go_mod_tidy (dir : string) : Command :=
  {| cmd_dir := dir; cmd_argv := ["go"; "mod"; "tidy"] |}.

Definition go_mod_edit_dropreplace (dir : string) (r : gomod.Replace) : Command :=
  {| cmd_dir := dir;
     cmd_argv := ["go"; "mod"; "edit";
                  "-dropreplace=" ++
                  (if negb (String.eqb (gomod.OldVer r) "")
                   then gomod.Old r ++ "@" ++ gomod.OldVer r else gomod.Old r)] |}.

(** What one dependency contributes to the collected list on the files
    [fs]: nothing without a local directory or a readable manifest, else
    its non-local replaces stamped with its path. *)
Definition replaces_of_dep (fs : gmap string string) (dep : moduleInfo)
  : list gomod.Replace :=
  if String.eqb (ModDir dep) "" then []
  else match gomod.ParseReplaces (os_ReadFile fs) modfile_Parse
               (filepath_Join (ModDir dep) "go.mod") with
       | Ok replaces => map (fun r => gomod.with_Source r (Path dep)) replaces
       | Err _ => []
       end.

(** [cmd.Output()]: start a process and wait for it; its standard output
    is the result, its standard error is captured and reaches no
    writer. *)
Definition exec (dir : string) (argv : list string) : M (result string) :=
  fun w =>
    let c := {| cmd_dir := dir; cmd_argv := argv |} in
    let '(fs, r) := go c (files w) in
    (r, {| files := fs; written := written w;
           executed := (executed w ++ [c])%list |}).

(** [cmd.Run()] with [cmd.Stderr = os.Stderr]: the standard error of the
    process goes to the standard error of the caller, its standard output
    is discarded. *)
Definition runCmd (dir name : string) (args : list string) : M (option error) :=
  fun w =>
    let c := {| cmd_dir := dir; cmd_argv := name :: args |} in
    let '(fs, r) := go c (files w) in
    (match r with Ok _ => None | Err err => Some err end,
     {| files := fs;
        written := (written w ++ ((fun text => (Stderr, text)) <$> go_stderr c (files w)))%list;
        executed := (executed w ++ [c])%list |}).

Fixpoint decode_deps (outcomes : list (result moduleInfo)) (deps : list moduleInfo)
  : result (list moduleInfo) :=
  match outcomes with
  | [] => Ok deps
  | Err err :: _ => Err err
  | Ok m :: outcomes' =>
      if negb (Main m) && negb (Indirect m)
      then decode_deps outcomes' (deps ++ [m])%list
      else decode_deps outcomes' deps
  end.

Definition listDirectDeps (dir : string) : M (result (list moduleInfo)) :=
  r ← exec dir ["go"; "list"; "-m"; "-json"; "all"];
  ret (match r with
        | Err err => Err err
        | Ok out => decode_deps (json_Decode out) []
        end).

Definition findStaleReplaces (dir : string) (current : list gomod.Replace)
           (fs : gmap string string) : list gomod.Replace * option error :=
  let goModPath := filepath_Join dir "go.mod" in
  match gomod.ParseReplacesWithSource (os_ReadFile fs) modfile_Parse
          strings_TrimSpace goModPath with
  | Err err => ([], Some err)
  | Ok existing =>
      let currentKeys : gmap string bool :=
        fold_left (fun keys r => <[gomod.Old r := true]> keys) current ∅ in
      (fold_left
         (fun stale r =>
            if negb (default false (currentKeys !! gomod.Old r))
            then (stale ++ [r])%list else stale)
         existing [],
       None)
  end.

(** The locals [pattern] and [comment] of [addSourceComment]. *)
Definition pattern_of (r : gomod.Replace) : string :=
  "replace " ++ gomod.Old r ++ " => " ++ gomod.New r ++ " " ++ gomod.NewVer r.

Definition comment_of (r : gomod.Replace) : string :=
  " // from: " ++ gomod.Source r.

Definition addSourceComment (dir : string) (r : gomod.Replace) : M (option error) :=
  fun w =>
    let goModPath := filepath_Join dir "go.mod" in
    match os_ReadFile (files w) goModPath with
    | Err err => (Some err, w)
    | Ok data =>
        let pattern := pattern_of r in
        let comment := comment_of r in
        let content := data in
        if strings.Contains content pattern &&
           negb (strings.Contains content (pattern ++ comment))
        then os_WriteFile goModPath
               (strings.Replace1 content pattern (pattern ++ comment)) w
        else (None, w)
    end.

Section Run.

Variable out : Writer.
Variable opts : Options.
Variable dir : string.

(** The loop that collects the replaces of every dependency. *)
Fixpoint collect (deps : list moduleInfo) (allReplaces : list gomod.Replace)
  : M (list gomod.Replace) :=
  match deps with
  | [] => ret allReplaces
  | dep :: deps' =>
      verbose out (Verbose opts)
        ("Processing " ++ Path dep ++ "@" ++ Version dep);;
      if String.eqb (ModDir dep) "" then
        verbose out (Verbose opts) "  skipping: no local dir";;
        collect deps' allReplaces
      else
        fun w =>
          match gomod.ParseReplaces (os_ReadFile (files w)) modfile_Parse
                  (filepath_Join (ModDir dep) "go.mod") with
          | Err err =>
              (verbose out (Verbose opts) ("  skipping: " ++ err);;
               collect deps' allReplaces) w
          | Ok replaces =>
              collect deps'
                (allReplaces ++
                 map (fun r => gomod.with_Source r (Path dep)) replaces)%list w
          end
  end.

Definition would_apply (replaces : list gomod.Replace) : M unit :=
  log out ("Would apply " ++ itoa (length replaces) ++ " replace directives:");;
  fold_left
    (fun m r =>
       m;; log out ("  " ++ gomod.Old r ++ " => " ++ gomod.New r ++ " " ++
                    gomod.NewVer r ++ " // from: " ++ gomod.Source r))
    replaces (ret tt).

Definition would_remove (stale : list gomod.Replace) : M unit :=
  log out ("Would remove " ++ itoa (length stale) ++ " stale replace directives:");;
  fold_left
    (fun m r =>
       m;; log out ("  " ++ gomod.Old r ++ " (was from: " ++ gomod.Source r ++ ")"))
    stale (ret tt).

(** The loop of the apply phase; it stops at the first command that
    fails. *)
Fixpoint apply_replaces (replaces : list gomod.Replace) : M (option error) :=
  match replaces with
  | [] => ret None
  | r :: replaces' =>
      let arg := gomod.Old r ++ "=" ++ gomod.New r ++ "@" ++ gomod.NewVer r in
      e ← runCmd dir "go" ["mod"; "edit"; "-replace=" ++ arg];
      match e with
      | Some err => ret (Some ("applying replace " ++ gomod.Old r ++ ": " ++ err))
      | None =>
          e ← addSourceComment dir r;
          match e with
          | Some err =>
              verbose out (Verbose opts)
                ("warning: could not add source comment: " ++ err)
          | None => ret tt
          end;;
          log out ("Applied: " ++ gomod.Old r ++ " => " ++ gomod.New r ++ " " ++
                   gomod.NewVer r ++ " // from: " ++ gomod.Source r);;
          apply_replaces replaces'
      end
  end.

(** The loop of the removal phase. *)
Fixpoint remove_stale (stale : list gomod.Replace) : M (option error) :=
  match stale with
  | [] => ret None
  | r :: stale' =>
      let arg :=
        if negb (String.eqb (gomod.OldVer r) "")
        then gomod.Old r ++ "@" ++ gomod.OldVer r else gomod.Old r in
      e ← runCmd dir "go" ["mod"; "edit"; "-dropreplace=" ++ arg];
      match e with
      | Some err =>
          ret (Some ("removing stale replace " ++ gomod.Old r ++ ": " ++ err))
      | None =>
          log out ("Removed stale: " ++ gomod.Old r ++
                   " (was from: " ++ gomod.Source r ++ ")");;
          remove_stale stale'
      end
  end.

Definition tidy : M (option error) :=
  if negb (SkipTidy opts) then
    verbose out (Verbose opts) "Running go mod tidy...";;
    e ← runCmd dir "go" ["mod"; "tidy"];
    ret (match e with
          | Some err => Some ("go mod tidy: " ++ err)
          | None => None
          end)
  else ret None.

(** [Run] from the emptiness test on: the short-circuit, the dry-run
    branch, and the three mutating phases. *)
Definition finish (replaces stale : list gomod.Replace) : M (option error) :=
  if (length replaces =? 0)%nat && (length stale =? 0)%nat then
    log out "No replace directives to sync";; ret None
  else if DryRun opts then
    (if (0 <? length replaces)%nat then would_apply replaces else ret tt);;
    (if (0 <? length stale)%nat then would_remove stale else ret tt);;
    ret None
  else
    e ← apply_replaces replaces;
    match e with
    | Some err => ret (Some err)
    | None =>
        e ← remove_stale stale;
        match e with
        | Some err => ret (Some err)
        | None => tidy
        end
    end.

(** [Run] from a successful listing on: collect, reconcile, look
    for stale entries, finish. *)
Definition after_listing (deps : list moduleInfo) : M (option error) :=
  verbose out (Verbose opts)
    ("Found " ++ itoa (length deps) ++ " direct dependencies");;
  allReplaces ← collect deps [];
  let replaces := gomod.Deduplicate semver_Compare order allReplaces in
  fun w =>
    let '(stale, err) := findStaleReplaces dir replaces (files w) in
    ((match err with
      | Some err =>
          verbose out (Verbose opts)
            ("warning: could not check for stale replaces: " ++ err)
      | None => ret tt
      end);;
     finish replaces stale) w.

(** [Run] once the writer and the directory are settled. *)
Definition run_in : M (option error) :=
  r ← listDirectDeps dir;
  match r with
  | Err err => ret (Some ("listing deps: " ++ err))
  | Ok deps => after_listing deps
  end.

End Run.

Definition Run (opts : Options) : M (option error) :=
  let out := default Stdout (Output opts) in
  match (if String.eqb (Dir opts) "" then os_Getwd else Ok (Dir opts)) with
  | Err err => ret (Some err)
  | Ok dir => run_in out opts dir
  end.

End Sync.

End sync.

(** ** A concrete project

    The project of the repository's tests: a main module in [/proj] and
    one dependency whose manifest declares a remote and a local replace.
    The parser, the [go] tool and the JSON decoder are tabulated on the
    inputs that occur. *)

Module Example.

Definition mk (old oldver new newver src : string) : gomod.Replace :=
  {| gomod.Old := old; gomod.OldVer := oldver; gomod.New := new;
     gomod.NewVer := newver; gomod.Source := src |}.

(** The input of [TestDeduplicate]. *)
Definition foo_v2 : gomod.Replace :=
  mk "github.com/foo" "" "github.com/bar" "v2.0.0" "dep1".
Definition foo_v1 : gomod.Replace :=
  mk "github.com/foo" "" "github.com/bar" "v1.0.0" "dep2".

(** Two records of different keys. *)
Definition baz_v1 : gomod.Replace :=
  mk "github.com/baz" "" "github.com/new/baz" "v1.0.0" "dep1".

(** Two equal versions for one key, from different dependencies. *)
Definition foo_v1_again : gomod.Replace :=
  mk "github.com/foo" "" "github.com/bar" "v1.0.0" "dep3".

(** Records of different groups that share the map key [a@v1.0.0]. *)
Definition a_at : gomod.Replace := mk "a@v1.0.0" "" "x" "v1.0.0" "dep1".
Definition a_constrained : gomod.Replace := mk "a" "v1.0.0" "y" "v2.0.0" "dep2".
Definition a_constrained_again : gomod.Replace := mk "a" "v1.0.0" "z" "v2.0.0" "dep3".

(** What the readers return on the two manifests below. *)
Definition old_module : gomod.Replace :=
  mk "github.com/old/module" "" "github.com/new/module" "v1.0.0" "".

Definition stale_module : gomod.Replace :=
  mk "github.com/stale/module" "" "github.com/other/module" "v1.0.0"
     "example.com/dep".

Definition directive (old new newver : string) (comment : option string)
  : modfile.Replace :=
  {| modfile.Old := {| modfile.Path := old; modfile.Vers := "" |};
     modfile.New := {| modfile.Path := new; modfile.Vers := newver |};
     modfile.Syntax :=
       Some {| modfile.Suffix :=
                 match comment with
                 | Some text => [{| modfile.Token := text |}]
                 | None => []
                 end |} |}.

Definition dep_manifest : string :=
  "replace github.com/old/module => github.com/new/module v1.0.0; replace github.com/local/thing => ./local".

Definition stale_manifest : string :=
  "replace github.com/stale/module => github.com/other/module v1.0.0 // from: example.com/dep".

Definition modfile_Parse (path data : string) : result modfile.File :=
  if String.eqb data dep_manifest then
    Ok {| modfile.Replaces :=
            [directive "github.com/old/module" "github.com/new/module" "v1.0.0" None;
             directive "github.com/local/thing" "./local" "" None] |}
  else if String.eqb data stale_manifest then
    Ok {| modfile.Replaces :=
            [directive "github.com/stale/module" "github.com/other/module" "v1.0.0"
               (Some "// from: example.com/dep")] |}
  else Err (path ++ ": syntax error").

Definition filepath_Join (dir name : string) : string := dir ++ "/" ++ name.

Definition os_Getwd : result string := Ok "/proj".

(** White space among the bytes below 128, as [unicode.IsSpace] has
    it. *)
Definition isSpace (c : ascii) : bool :=
  let n := nat_of_ascii c in
  ((n =? 32) || ((9 <=? n) && (n <=? 13)))%nat.

Fixpoint trimLeft (s : string) : string :=
  match s with
  | String c s' => if isSpace c then trimLeft s' else s
  | EmptyString => EmptyString
  end.

Fixpoint trimRight (s : string) : string :=
  match s with
  | EmptyString => EmptyString
  | String c s' =>
      match trimRight s' with
      | EmptyString => if isSpace c then EmptyString else String c EmptyString
      | t => String c t
      end
  end.

(** [strings.TrimSpace] as it acts on the strings of this project, which
    hold bytes below 128 only. *)
Definition TrimSpace (s : string) : string := trimRight (trimLeft s).

(** Every file can be written. *)
Definition write_error (path data : string) (fs : gmap string string)
  : option error := None.

(** The manifest of the project is read-only. *)
Definition read_only (path data : string) (fs : gmap string string)
  : option error :=
  if String.eqb path "/proj/go.mod"
  then Some "open /proj/go.mod: permission denied" else None.

(** A [go] tool that succeeds and leaves the files alone. *)
Definition go (c : sync.Command) (fs : gmap string string)
  : gmap string string * result string :=
  (fs, Ok (match sync.cmd_argv c with
           | [_; "list"; _; _; _] => "listing"
           | _ => ""
           end)).

Definition go_stderr (c : sync.Command) (fs : gmap string string)
  : list string := [].

(** A [go] tool that rejects the commands carrying the argument [arg],
    with a message on its standard error. *)
Definition go_rejecting (arg : string) (c : sync.Command) (fs : gmap string string)
  : gmap string string * result string :=
  if bool_decide (arg ∈ sync.cmd_argv c) then (fs, Err "exit status 1")
  else go c fs.

Definition go_rejecting_stderr (arg : string) (c : sync.Command)
           (fs : gmap string string) : list string :=
  if bool_decide (arg ∈ sync.cmd_argv c)
  then ["go: cannot apply " ++ arg ++ String "010" ""] else [].

Definition json_Decode (out : string) : list (result sync.moduleInfo) :=
  if String.eqb out "listing" then
    [Ok {| sync.Path := "example.com/test"; sync.Version := "";
           sync.ModDir := "/proj"; sync.Main := true; sync.Indirect := false |};
     Ok {| sync.Path := "example.com/dep"; sync.Version := "v0.0.0";
           sync.ModDir := "/proj/dep"; sync.Main := false; sync.Indirect := false |}]
  else [].

Definition world (fs : gmap string string) : sync.World :=
  {| sync.files := fs; sync.written := []; sync.executed := [] |}.

(** The project carries an annotated replace that no dependency
    declares. *)
Definition with_stale : gmap string string :=
  {[ "/proj/go.mod" := stale_manifest; "/proj/dep/go.mod" := dep_manifest ]}.

Definition options (dry : bool) : sync.Options :=
  {| sync.Output := Some (sync.Sink "out"); sync.Dir := "/proj";
     sync.DryRun := dry; sync.Verbose := true; sync.SkipTidy := true |}.

Definition Run (order : MapOrder) :=
  sync.Run os_Getwd filepath_Join modfile_Parse semver.Compare order go json_Decode
    TrimSpace write_error go_stderr.

(** The tool run from a sub-directory of the project, which holds no
    manifest of its own; the module is found in the parent directory by
    the [go] tool, not by [findStaleReplaces]. *)
Definition subdir_options : sync.Options :=
  {| sync.Output := Some (sync.Sink "out"); sync.Dir := "/proj/cmd";
     sync.DryRun := false; sync.Verbose := true; sync.SkipTidy := false |}.

(** The same options with the secondary messages off and no writer
    given. *)
Definition quiet_options (dry : bool) : sync.Options :=
  {| sync.Output := None; sync.Dir := "/proj";
     sync.DryRun := dry; sync.Verbose := false; sync.SkipTidy := true |}.

(** The edit that [go_rejecting] is made to reject below. *)
Definition rejected_edit : string :=
  "-replace=github.com/baz=github.com/new/baz@v1.0.0".

(** A project whose manifest holds a directive that is not annotated
    yet. *)
Definition applied_manifest : string :=
  "replace github.com/old/module => github.com/new/module v1.0.0".

Definition with_applied : gmap string string :=
  {[ "/proj/go.mod" := applied_manifest ]}.

(** The annotated directive of the project's manifest. *)
Definition stale_directive : modfile.Replace :=
  directive "github.com/stale/module" "github.com/other/module" "v1.0.0"
    (Some "// from: example.com/dep").

End Example.

(** * Properties *)

#[local] Arguments String.append !s1 s2 : simpl nomatch.

(** ** Strings *)

Section StringFacts.

Import strings.

Lemma eqb_string_true (s t : string) : String.eqb s t = true <-> s = t.
Proof. apply String.eqb_eq. Qed.

Lemma app_String_assoc (s t u : string) : (s ++ t) ++ u = s ++ (t ++ u).
Proof. induction s as [|c s IH]; simpl; [reflexivity | now rewrite IH]. Qed.

Lemma app_empty_r (s : string) : s ++ "" = s.
Proof. induction s as [|c s IH]; simpl; [reflexivity | now rewrite IH]. Qed.

Lemma length_app_String (s t : string) :
  String.length (s ++ t) = String.length s + String.length t.
Proof. induction s as [|c s IH]; simpl; [reflexivity | now rewrite IH]. Qed.

Lemma HasPrefix_app (p s : string) : HasPrefix (p ++ s) p = true.
Proof.
  induction p as [|c p IH]; simpl; [reflexivity |].
  now rewrite Ascii.eqb_refl.
Qed.

Lemma HasPrefix_split (s p : string) :
  HasPrefix s p = true -> s = p ++ drop (String.length p) s.
Proof.
  revert s; induction p as [|c p IH]; intros s H; simpl in *.
  - reflexivity.
  - destruct s as [|d s]; [discriminate |].
    destruct (Ascii.eqb d c) eqn:E; [| discriminate].
    apply Ascii.eqb_eq in E; subst d.
    f_equal. now apply IH.
Qed.

Lemma HasPrefix_app_l (s p q : string) :
  HasPrefix s (p ++ q) = true -> HasPrefix s p = true.
Proof.
  revert s; induction p as [|c p IH]; intros s H; simpl in *.
  - reflexivity.
  - destruct s as [|d s]; [discriminate |].
    destruct (Ascii.eqb d c); [now apply IH | discriminate].
Qed.

Lemma take_drop (n : nat) (s : string) : take n s ++ drop n s = s.
Proof.
  revert s; induction n as [|n IH]; intros [|c s]; simpl; try reflexivity.
  now rewrite IH.
Qed.

Lemma drop_drop (n m : nat) (s : string) : drop n (drop m s) = drop (m + n) s.
Proof.
  revert s; induction m as [|m IH]; intros s; simpl; [reflexivity |].
  destruct s as [|c s]; [now destruct n | apply IH].
Qed.

Lemma Index_nil (sub : string) :
  Index "" sub = if HasPrefix "" sub then Some 0 else None.
Proof. reflexivity. Qed.

Lemma Index_cons (c : ascii) (s sub : string) :
  Index (String c s) sub =
    if HasPrefix (String c s) sub then Some 0 else S <$> Index s sub.
Proof. reflexivity. Qed.

Lemma Replace1_cons (c : ascii) (s old new : string) :
  Replace1 (String c s) old new =
    if HasPrefix (String c s) old
    then new ++ drop (String.length old) (String c s)
    else String c (Replace1 s old new).
Proof. reflexivity. Qed.

Lemma Index_first (s sub : string) (n : nat) :
  Index s sub = Some n ->
  HasPrefix (drop n s) sub = true /\
  forall m, m < n -> HasPrefix (drop m s) sub = false.
Proof.
  revert n; induction s as [|c s IH]; intros n H.
  - rewrite Index_nil in H.
    destruct (HasPrefix "" sub) eqn:E; [| discriminate].
    injection H as <-. split; [exact E | intros m Hm; lia].
  - rewrite Index_cons in H.
    destruct (HasPrefix (String c s) sub) eqn:E.
    + injection H as <-. split; [exact E | intros m Hm; lia].
    + destruct (Index s sub) as [k|] eqn:Ek; [| discriminate].
      simpl in H. injection H as <-.
      destruct (IH k eq_refl) as [Hk Hlt]. split; [exact Hk |].
      intros [|m] Hm; [exact E | apply Hlt; lia].
Qed.

Lemma Index_occurrence (s sub : string) (n : nat) :
  HasPrefix (drop n s) sub = true -> n <= String.length s ->
  exists k, Index s sub = Some k.
Proof.
  revert n; induction s as [|c s IH]; intros n H Hn.
  - rewrite Index_nil. destruct n; simpl in H; rewrite H; eauto.
  - rewrite Index_cons.
    destruct (HasPrefix (String c s) sub) eqn:E; [eauto |].
    destruct n as [|n]; [simpl in H; congruence |].
    simpl in H, Hn. destruct (IH n H ltac:(lia)) as [k ->]. simpl; eauto.
Qed.

Lemma drop_app_length (pre s : string) : drop (String.length pre) (pre ++ s) = s.
Proof. induction pre as [|c pre IH]; simpl; [reflexivity | exact IH]. Qed.

Lemma Contains_app (pre sub post : string) :
  Contains (pre ++ sub ++ post) sub = true.
Proof.
  unfold Contains.
  destruct (Index_occurrence (pre ++ sub ++ post) sub (String.length pre))
    as [k ->]; [| | reflexivity].
  - rewrite drop_app_length. apply HasPrefix_app.
  - rewrite length_app_String. lia.
Qed.

Lemma Replace1_first (s old new : string) (n : nat) :
  Index s old = Some n ->
  Replace1 s old new = take n s ++ new ++ drop (n + String.length old) s.
Proof.
  revert n; induction s as [|c s IH]; intros n H.
  - rewrite Index_nil in H. simpl.
    destruct (HasPrefix "" old) eqn:E; [| discriminate].
    injection H as <-. reflexivity.
  - rewrite Index_cons in H. rewrite Replace1_cons.
    destruct (HasPrefix (String c s) old) eqn:E.
    + injection H as <-. reflexivity.
    + destruct (Index s old) as [k|] eqn:Ek; [| discriminate].
      simpl in H. injection H as <-. simpl. f_equal. now apply IH.
Qed.

Lemma Index_split (s sub : string) (n : nat) :
  Index s sub = Some n ->
  s = take n s ++ sub ++ drop (n + String.length sub) s.
Proof.
  intros H. apply Index_first in H as [H _].
  apply HasPrefix_split in H. rewrite drop_drop in H.
  rewrite <- H. symmetry. apply take_drop.
Qed.

Lemma Replace1_Contains (s old extra : string) :
  Contains s old = true ->
  Contains (Replace1 s old (old ++ extra)) (old ++ extra) = true.
Proof.
  unfold Contains. destruct (Index s old) as [n|] eqn:E; [| discriminate].
  intros _. rewrite (Replace1_first _ _ _ _ E).
  exact (Contains_app (take n s) (old ++ extra) (drop (n + String.length old) s)).
Qed.

End StringFacts.

(** ** [pathutil.IsLocalPath] *)

Section PathFacts.

Import pathutil.

(** What the function computes: the listed forms, or any string whose
    second byte is a colon. *)
Lemma IsLocalPath_unfold (t : string) :
  IsLocalPath t =
    String.eqb t "." || String.eqb t ".." ||
    strings.HasPrefix t "./" || strings.HasPrefix t "../" ||
    strings.HasPrefix t "/" ||
    match t with
    | String _ (String d _) => Ascii.eqb d ":"
    | _ => false
    end.
Proof.
  unfold IsLocalPath, filepath_IsAbs, byte_at.
  destruct t as [|c [|d rest]]; [reflexivity | |].
  - simpl. destruct (Ascii.eqb c "."), (Ascii.eqb c "/"); reflexivity.
  - assert (Hd : bool_decide (String.get 1 (String c (String d rest)) = Some ":"%char)
                 = Ascii.eqb d ":").
    { simpl. destruct (Ascii.eqb d ":") eqn:E.
      - apply Ascii.eqb_eq in E. subst d. reflexivity.
      - apply bool_decide_eq_false. intros [= ->].
        now rewrite Ascii.eqb_refl in E. }
    rewrite Hd.
    replace (String.eqb (String c (String d rest)) "") with false by reflexivity.
    replace (2 <=? String.length (String c (String d rest)))%nat with true
      by reflexivity.
    cbv iota.
    destruct (strings.HasPrefix (String c (String d rest)) "./"),
             (strings.HasPrefix (String c (String d rest)) "../"),
             (String.eqb (String c (String d rest)) "."),
             (String.eqb (String c (String d rest)) ".."),
             (strings.HasPrefix (String c (String d rest)) "/"),
             (Ascii.eqb d ":"); reflexivity.
Qed.

(** The function and the specification's wording agree on every string
    whose colon in second place, if any, follows a letter. *)
Lemma IsLocalPath_spec_on_letters (t : string) :
  (forall c rest, t = String c (String ":" rest) -> isLetter c = true) ->
  IsLocalPath t = spec_IsLocalPath t.
Proof.
  intros H. rewrite IsLocalPath_unfold. unfold spec_IsLocalPath.
  destruct t as [|c [|d rest]]; try reflexivity.
  destruct (Ascii.eqb d ":") eqn:E.
  - apply Ascii.eqb_eq in E. subst d. now rewrite (H c rest eq_refl).
  - now rewrite andb_false_r.
Qed.

(** The classification is total and false on the empty string. *)
Lemma IsLocalPath_empty : IsLocalPath "" = false.
Proof. reflexivity. Qed.

(** C3.  The specification lets a colon in second place count only
    after a drive letter, and the comments of the function say the
    same; the function returns true whatever the first byte is: the
    string [1:b] is classified as local although it has none of the
    listed forms. *)
Theorem IsLocalPath_colon_after_non_letter :
  IsLocalPath "1:b" = true /\ spec_IsLocalPath "1:b" = false.
Proof. split; reflexivity. Qed.

End PathFacts.
(** ** Three-way comparisons *)

Section Order3Facts.
Local Open Scope Z_scope.
Context {A : Type}.

Lemma o3_refl (c : A -> A -> Z) `{!Order3 c} a : c a a = 0.
Proof. pose proof (o3_opp a a). lia. Qed.

Lemma o3_lt_le (c : A -> A -> Z) `{!Order3 c} a b d :
  c a b < 0 -> c b d <= 0 -> c a d < 0.
Proof.
  intros H1 H2. destruct (Z_lt_le_dec (c a d) 0) as [H | H]; [exact H |].
  assert (c d a <= 0) by (rewrite (o3_opp a d); lia).
  pose proof (o3_trans b d a H2 H0). rewrite (o3_opp a b) in H3. lia.
Qed.

Lemma o3_le_lt (c : A -> A -> Z) `{!Order3 c} a b d :
  c a b <= 0 -> c b d < 0 -> c a d < 0.
Proof.
  intros H1 H2. destruct (Z_lt_le_dec (c a d) 0) as [H | H]; [exact H |].
  assert (c d a <= 0) by (rewrite (o3_opp a d); lia).
  pose proof (o3_trans d a b H0 H1). rewrite (o3_opp b d) in H3. lia.
Qed.

Lemma o3_zero (c : A -> A -> Z) `{!Order3 c} a b d :
  c a b = 0 -> c b d = 0 -> c a d = 0.
Proof.
  intros H1 H2.
  assert (c a d <= 0) by (apply (o3_trans a b d); lia).
  assert (c d a <= 0).
  { apply (o3_trans d b a); [rewrite (o3_opp b d) | rewrite (o3_opp a b)]; lia. }
  rewrite (o3_opp a d) in H0. lia.
Qed.

Global Instance lex_order (c1 c2 : A -> A -> Z) `{!Order3 c1, !Order3 c2} :
  Order3 (lex c1 c2).
Proof.
  split.
  - intros a b. unfold lex. rewrite (o3_opp a b).
    destruct (Z.eqb_spec (c1 a b) 0) as [-> | H].
    + simpl. apply o3_opp.
    + destruct (Z.eqb_spec (- c1 a b) 0); [lia | reflexivity].
  - intros a b d. unfold lex.
    destruct (Z.eqb_spec (c1 a b) 0) as [Hab | Hab];
      destruct (Z.eqb_spec (c1 b d) 0) as [Hbd | Hbd]; simpl; intros H1 H2.
    + rewrite (o3_zero c1 a b d Hab Hbd). simpl. now apply (o3_trans a b d).
    + assert (c1 a d < 0) by (apply (o3_le_lt c1 a b d); lia).
      destruct (Z.eqb_spec (c1 a d) 0); simpl; lia.
    + assert (c1 a d < 0) by (apply (o3_lt_le c1 a b d); lia).
      destruct (Z.eqb_spec (c1 a d) 0); simpl; lia.
    + assert (c1 a d < 0) by (apply (o3_lt_le c1 a b d); lia).
      destruct (Z.eqb_spec (c1 a d) 0); simpl; lia.
Qed.

Global Instance on_order {B} (f : A -> B) (c : B -> B -> Z) `{!Order3 c} :
  Order3 (on f c).
Proof.
  split; unfold on.
  - intros a b. apply o3_opp.
  - intros a b d. apply o3_trans.
Qed.

Global Instance lift_opt_order (c : A -> A -> Z) `{!Order3 c} : Order3 (lift_opt c).
Proof.
  split.
  - intros [a|] [b|]; simpl; try reflexivity. apply o3_opp.
  - intros [a|] [b|] [d|]; simpl; try lia. apply o3_trans.
Qed.

Lemma order3_three_way (c : A -> A -> Z) `{!Order3 c} : ThreeWayOrder c.
Proof.
  split.
  - intros v w. rewrite (o3_opp (cmp:=c) v w). lia.
  - apply o3_trans.
Qed.

End Order3Facts.

Section ListFacts.

Context {A : Type}.

Lemma fold_left_snoc_all (l acc : list A) :
  fold_left (fun result r => (result ++ [r])%list) l acc = (acc ++ l)%list.
Proof.
  revert acc; induction l as [|a l IH]; intros acc; simpl.
  - now rewrite app_nil_r.
  - rewrite IH. now rewrite <- app_assoc.
Qed.

Lemma find_first (f : A -> bool) (l : list A) (e : A) :
  find f l = Some e ->
  exists l1 l2, l = (l1 ++ e :: l2)%list /\ f e = true /\
                forall x, x ∈ l1 -> f x = false.
Proof.
  induction l as [|a l IH]; simpl; [discriminate |].
  destruct (f a) eqn:E.
  - intros [= ->]. exists [], l. repeat split; [exact E |].
    intros x Hx. inversion Hx.
  - intros H. destruct (IH H) as (l1 & l2 & -> & He & Hl1).
    exists (a :: l1), l2. repeat split; [exact He |].
    intros x [-> | Hx]%elem_of_cons; [exact E | now apply Hl1].
Qed.

Lemma find_at (f : A -> bool) (l1 l2 : list A) (e : A) :
  f e = true -> (forall x, x ∈ l1 -> f x = false) ->
  find f (l1 ++ e :: l2) = Some e.
Proof.
  intros He. induction l1 as [|a l1 IH]; intros Hl1; simpl.
  - now rewrite He.
  - rewrite (Hl1 a) by constructor. apply IH.
    intros x Hx. apply Hl1. now constructor.
Qed.

End ListFacts.

Section OrderFacts.

Variable cmp : string -> string -> Z.
Context `{!ThreeWayOrder cmp}.

Lemma cmp_refl v : (cmp v v <= 0)%Z.
Proof.
  destruct (Z_lt_le_dec 0 (cmp v v)) as [H | H]; [| exact H].
  apply cmp_flip in H. lia.
Qed.

Lemma cmp_not_lt_le v w : ¬ (cmp v w < 0)%Z -> (cmp w v <= 0)%Z.
Proof.
  intros H. destruct (Z_lt_le_dec 0 (cmp w v)) as [H' | H']; [| exact H'].
  apply cmp_flip in H'. contradiction.
Qed.

Lemma cmp_lt_not_le v w : (cmp v w < 0)%Z -> ¬ (cmp w v <= 0)%Z.
Proof. intros H. apply cmp_flip in H. lia. Qed.

Lemma cmp_lt_le_trans u v w :
  (cmp u v < 0)%Z -> (cmp v w <= 0)%Z -> (cmp u w < 0)%Z.
Proof.
  intros Huv Hvw.
  destruct (Z_lt_le_dec (cmp u w) 0) as [H | H]; [exact H |].
  exfalso. apply (cmp_lt_not_le _ _ Huv).
  apply cmp_le_trans with w; [exact Hvw |].
  apply cmp_not_lt_le. lia.
Qed.

Lemma cmp_le_lt_trans u v w :
  (cmp u v <= 0)%Z -> (cmp v w < 0)%Z -> (cmp u w < 0)%Z.
Proof.
  intros Huv Hvw.
  destruct (Z_lt_le_dec (cmp u w) 0) as [H | H]; [exact H |].
  exfalso. apply (cmp_lt_not_le _ _ Hvw).
  apply cmp_le_trans with u; [| exact Huv].
  apply cmp_not_lt_le. lia.
Qed.

End OrderFacts.

(** ** [semver.Compare] is a three-way comparison *)

Section StrictOrders.

Import semver.

Lemma str_compare_refl (s : string) : String.compare s s = Eq.
Proof.
  pose proof (String.compare_antisym s s) as H.
  destruct (String.compare s s); simpl in H; congruence.
Qed.

Lemma str_ltb_asym x y : str_ltb x y = true -> str_ltb y x = false.
Proof.
  unfold str_ltb. rewrite (String.compare_antisym y x).
  destruct (String.compare x y); simpl; congruence.
Qed.

Lemma str_ltb_total x y : x ≠ y -> str_ltb x y = false -> str_ltb y x = true.
Proof.
  unfold str_ltb. intros Hne. rewrite (String.compare_antisym y x).
  destruct (String.compare x y) eqn:E; simpl; try congruence.
  apply String.compare_eq_iff in E. congruence.
Qed.

Lemma str_ltb_trans x y z : str_ltb x y = true -> str_ltb y z = true -> str_ltb x z = true.
Proof.
  unfold str_ltb. intros H1 H2.
  assert (L1 : String_as_OT.lt x y).
  { apply String_as_OT.cmp_lt. change (String.compare x y = Lt).
    destruct (String.compare x y); congruence. }
  assert (L2 : String_as_OT.lt y z).
  { apply String_as_OT.cmp_lt. change (String.compare y z = Lt).
    destruct (String.compare y z); congruence. }
  pose proof (String_as_OT.lt_trans _ _ _ L1 L2) as L.
  apply String_as_OT.cmp_lt in L. change (String.compare x z = Lt) in L.
  now rewrite L.
Qed.

Lemma shortlex_ltb_asym x y : shortlex_ltb x y = true -> shortlex_ltb y x = false.
Proof.
  unfold shortlex_ltb. intros H.
  apply orb_true_iff in H as [H | H].
  - apply Nat.ltb_lt in H. apply orb_false_iff. split.
    + apply Nat.ltb_ge. lia.
    + apply andb_false_iff. left. apply Nat.eqb_neq. lia.
  - apply andb_true_iff in H as [H1 H2]. apply Nat.eqb_eq in H1.
    apply orb_false_iff. split.
    + apply Nat.ltb_ge. lia.
    + apply andb_false_iff. right. now apply str_ltb_asym.
Qed.

Lemma shortlex_ltb_total x y :
  x ≠ y -> shortlex_ltb x y = false -> shortlex_ltb y x = true.
Proof.
  unfold shortlex_ltb. intros Hne H.
  apply orb_false_iff in H as [H1 H2]. apply Nat.ltb_ge in H1.
  apply orb_true_iff.
  destruct (Nat.eq_dec (String.length x) (String.length y)) as [E | E].
  - right. rewrite E, Nat.eqb_refl in *. simpl in *. now apply str_ltb_total.
  - left. apply Nat.ltb_lt. lia.
Qed.

Lemma shortlex_ltb_trans x y z :
  shortlex_ltb x y = true -> shortlex_ltb y z = true -> shortlex_ltb x z = true.
Proof.
  unfold shortlex_ltb. intros H1 H2.
  apply orb_true_iff in H1. apply orb_true_iff in H2. apply orb_true_iff.
  rewrite !andb_true_iff, !Nat.ltb_lt, !Nat.eqb_eq in *.
  destruct H1 as [H1 | [H1 H1']], H2 as [H2 | [H2 H2']].
  - left. lia.
  - left. lia.
  - left. lia.
  - right. split; [lia | now apply (str_ltb_trans x y z)].
Qed.

Lemma ident_ltb_asym x y : ident_ltb x y = true -> ident_ltb y x = false.
Proof.
  unfold ident_ltb. destruct (semver.isNum x), (semver.isNum y); try congruence.
  - apply shortlex_ltb_asym.
  - apply str_ltb_asym.
Qed.

Lemma ident_ltb_total x y : x ≠ y -> ident_ltb x y = false -> ident_ltb y x = true.
Proof.
  unfold ident_ltb. destruct (semver.isNum x), (semver.isNum y); try congruence.
  - apply shortlex_ltb_total.
  - apply str_ltb_total.
Qed.

Lemma ident_ltb_trans x y z :
  ident_ltb x y = true -> ident_ltb y z = true -> ident_ltb x z = true.
Proof.
  unfold ident_ltb.
  destruct (semver.isNum x), (semver.isNum y), (semver.isNum z); try congruence.
  - apply shortlex_ltb_trans.
  - apply str_ltb_trans.
Qed.

(** A comparison read off a strict total order. *)
Lemma order3_of_strict (ltb : string -> string -> bool) (c : string -> string -> Z) :
  (forall a b, c a b = if String.eqb a b then 0%Z
                       else if ltb a b then (-1)%Z else 1%Z) ->
  (forall a b, ltb a b = true -> ltb b a = false) ->
  (forall a b, a ≠ b -> ltb a b = false -> ltb b a = true) ->
  (forall a b d, ltb a b = true -> ltb b d = true -> ltb a d = true) ->
  Order3 c.
Proof.
  intros Hc Hasym Htotal Htrans. split.
  - intros a b. rewrite !Hc, (String.eqb_sym b a).
    destruct (String.eqb_spec a b) as [-> | Hne]; [reflexivity |].
    destruct (ltb a b) eqn:E.
    + now rewrite (Hasym _ _ E).
    + now rewrite (Htotal _ _ Hne E).
  - intros a b d. rewrite !Hc.
    destruct (String.eqb_spec a b) as [-> | Hab]; [intros _ H; exact H |].
    destruct (String.eqb_spec b d) as [<- | Hbd].
    { intros H _. destruct (String.eqb_spec a b); [congruence | exact H]. }
    destruct (ltb a b) eqn:E1; [| lia].
    destruct (ltb b d) eqn:E2; [| lia].
    intros _ _. rewrite (Htrans _ _ _ E1 E2).
    destruct (String.eqb_spec a d); lia.
Qed.

End StrictOrders.

Section SemverOrders.

Import semver.

Lemma less_ltb x y : less x y = if str_ltb x y then (-1)%Z else 1%Z.
Proof. unfold less, str_ltb. now destruct (String.compare x y). Qed.

Lemma compareInt_strict x y :
  compareInt x y = if String.eqb x y then 0%Z
                   else if shortlex_ltb x y then (-1)%Z else 1%Z.
Proof.
  unfold compareInt, shortlex_ltb. destruct (String.eqb x y); [reflexivity |].
  rewrite less_ltb.
  destruct (Nat.ltb_spec (String.length x) (String.length y)) as [H | H];
    [reflexivity |].
  destruct (Nat.ltb_spec (String.length y) (String.length x)) as [H' | H'].
  - destruct (Nat.eqb_spec (String.length x) (String.length y)); [lia | reflexivity].
  - destruct (Nat.eqb_spec (String.length x) (String.length y)); [| lia].
    reflexivity.
Qed.

Global Instance compareInt_order : Order3 compareInt.
Proof.
  apply (order3_of_strict shortlex_ltb).
  - apply compareInt_strict.
  - apply shortlex_ltb_asym.
  - apply shortlex_ltb_total.
  - apply shortlex_ltb_trans.
Qed.

Lemma compareIdent_strict x y :
  compareIdent x y = if ident_ltb x y then (-1)%Z else 1%Z.
Proof.
  unfold compareIdent, ident_ltb, shortlex_ltb. rewrite less_ltb.
  destruct (isNum x), (isNum y); simpl; try reflexivity.
  destruct (Nat.ltb_spec (String.length x) (String.length y)) as [H | H];
    [reflexivity |].
  destruct (Nat.ltb_spec (String.length y) (String.length x)) as [H' | H'].
  - destruct (Nat.eqb_spec (String.length x) (String.length y)); [lia | reflexivity].
  - destruct (Nat.eqb_spec (String.length x) (String.length y)); [| lia].
    reflexivity.
Qed.

Global Instance identCmp_order : Order3 identCmp.
Proof.
  apply (order3_of_strict ident_ltb).
  - intros a b. unfold identCmp. now rewrite compareIdent_strict.
  - apply ident_ltb_asym.
  - apply ident_ltb_total.
  - apply ident_ltb_trans.
Qed.

Lemma identCmp_zero a b : identCmp a b = 0%Z -> a = b.
Proof.
  unfold identCmp. destruct (String.eqb_spec a b); [easy |].
  rewrite compareIdent_strict. destruct (ident_ltb a b); lia.
Qed.

Lemma lexL_cons a b l1 l2 :
  lexL (a :: l1) (b :: l2) = if String.eqb a b then lexL l1 l2 else identCmp a b.
Proof. simpl. unfold identCmp. now destruct (String.eqb a b). Qed.

Global Instance lexL_order : Order3 lexL.
Proof.
  split.
  - intros l1. induction l1 as [|a l1 IH]; intros [|b l2]; try reflexivity.
    rewrite !lexL_cons, (String.eqb_sym b a).
    destruct (String.eqb a b); [apply IH | apply (o3_opp (cmp:=identCmp))].
  - intros l1. induction l1 as [|a l1 IH]; intros [|b l2] [|d l3];
      try (simpl; lia).
    rewrite !lexL_cons.
    destruct (String.eqb_spec a b) as [<- | Hab].
    + destruct (String.eqb_spec a d) as [<- | Had]; [apply IH | easy].
    + destruct (String.eqb_spec b d) as [<- | Hbd].
      * destruct (String.eqb_spec a b); [congruence | easy].
      * intros H1 H2.
        assert (identCmp a b < 0)%Z.
        { destruct (Z.eq_dec (identCmp a b) 0%Z) as [E | E]; [| lia].
          now apply identCmp_zero in E. }
        pose proof (o3_lt_le identCmp a b d H H2).
        destruct (String.eqb_spec a d) as [<- | Had]; [| lia].
        rewrite (o3_refl identCmp a) in H0. lia.
Qed.

Global Instance cmpKey_order : Order3 cmpKey.
Proof.
  split.
  - intros [|a l1] [|b l2]; try reflexivity.
    apply (o3_opp (cmp:=lexL)).
  - intros [|a l1] [|b l2] [|d l3]; try (simpl; lia).
    apply (o3_trans (cmp:=lexL)).
Qed.

End SemverOrders.

Section KeyFacts.

Import semver.

Lemma split_dots_cons (s : string) : exists d l, split_dots s = d :: l.
Proof.
  induction s as [|c s (d & l & IH)]; simpl; [eauto |].
  destruct (Ascii.eqb c "."); [eauto |]. rewrite IH. eauto.
Qed.

Lemma join_split (s : string) : join_dots (split_dots s) = s.
Proof.
  induction s as [|c s IH]; [reflexivity |]. simpl.
  destruct (split_dots_cons s) as (d & l & E). rewrite E in *.
  destruct (Ascii.eqb_spec c ".") as [-> | Hc].
  - change (join_dots ("" :: d :: l)) with ("" ++ String "." (join_dots (d :: l))).
    now rewrite IH.
  - destruct l as [|d' l]; simpl in *; now rewrite IH.
Qed.

Lemma split_dots_inj (s t : string) : split_dots s = split_dots t -> s = t.
Proof. intros H. rewrite <- (join_split s), <- (join_split t). now rewrite H. Qed.

Lemma idents_of_inj (x y : string) :
  hyphenated x -> hyphenated y -> idents_of x = idents_of y -> x = y.
Proof.
  intros [-> | [s ->]] [-> | [t ->]]; simpl; intros H.
  - reflexivity.
  - destruct (split_dots_cons t) as (d & l & E). congruence.
  - destruct (split_dots_cons s) as (d & l & E). congruence.
  - f_equal. now apply split_dots_inj.
Qed.

Lemma nextIdent_split (s : string) :
  split_dots s = (nextIdent s).1 :: idents_of (nextIdent s).2 /\
  String.length (nextIdent s).2 <= String.length s.
Proof.
  induction s as [|c s [IH Hlen]]; [split; reflexivity |]. simpl.
  destruct (Ascii.eqb c "."); [split; [reflexivity | simpl; lia] |].
  destruct (nextIdent s) as [d rest]. simpl in *. rewrite IH.
  split; [reflexivity | lia].
Qed.

Lemma loop_lexL (iterations : nat) (x y : string) :
  idents_of x ≠ idents_of y -> String.length x <= iterations ->
  comparePrerelease_loop iterations x y = lexL (idents_of x) (idents_of y).
Proof.
  revert x y. induction iterations as [|n IH]; intros x y Hne Hlen.
  - destruct x as [|c x]; [| simpl in Hlen; lia]. simpl.
    destruct y as [|c y]; [now contradiction Hne |].
    simpl. now destruct (split_dots_cons y) as (d & l & ->).
  - cbn [comparePrerelease_loop].
    destruct x as [|c x].
    { simpl. destruct y as [|c y]; [now contradiction Hne |].
      simpl. now destruct (split_dots_cons y) as (d & l & ->). }
    destruct y as [|c' y].
    { simpl. now destruct (split_dots_cons x) as (d & l & ->). }
    cbn [String.eqb negb andb strings.drop idents_of] in *.
    destruct (nextIdent_split x) as [Hx Hlx].
    destruct (nextIdent_split y) as [Hy Hly].
    destruct (nextIdent x) as [dx x'], (nextIdent y) as [dy y'].
    cbn [fst snd] in *. rewrite Hx, Hy in *. cbn [lexL].
    destruct (String.eqb_spec dx dy) as [-> | Hd]; [| reflexivity].
    cbn [negb]. apply IH; [congruence | simpl in Hlen; lia].
Qed.

Lemma comparePrerelease_key (x y : string) :
  hyphenated x -> hyphenated y ->
  comparePrerelease x y = cmpKey (idents_of x) (idents_of y).
Proof.
  intros Hx Hy. unfold comparePrerelease.
  destruct (String.eqb_spec x y) as [-> | Hne].
  { symmetry. apply (o3_refl cmpKey). }
  assert (Hk : idents_of x ≠ idents_of y)
    by (intros H; apply Hne; now apply idents_of_inj).
  destruct x as [|c x]; destruct y as [|c' y]; try congruence.
  - simpl. now destruct (split_dots_cons y) as (d & l & ->).
  - simpl. now destruct (split_dots_cons x) as (d & l & ->).
  - cbn [String.eqb]. rewrite (loop_lexL _ _ _ Hk (le_n _)).
    simpl. destruct (split_dots_cons x) as (d & l & ->).
    now destruct (split_dots_cons y) as (d' & l' & ->).
Qed.

Lemma scan_taken (pre : bool) (v ident taken t rest : string) :
  scan pre v ident taken = Some (t, rest) -> exists suffix, t = taken ++ suffix.
Proof.
  revert ident taken. induction v as [|c v IH]; intros ident taken; simpl.
  - destruct (_ || _); [discriminate |]. intros [= <- <-].
    exists "". now rewrite app_empty_r.
  - destruct (pre && Ascii.eqb c "+").
    { destruct (_ || _); [discriminate |]. intros [= <- <-].
      exists "". now rewrite app_empty_r. }
    destruct (negb (isIdentChar c) && negb (Ascii.eqb c ".")); [discriminate |].
    destruct (Ascii.eqb c ".").
    + destruct (_ || _); [discriminate |]. intros H.
      destruct (IH _ _ H) as [suffix ->].
      exists (String c "" ++ suffix). now rewrite app_String_assoc.
    + intros H. destruct (IH _ _ H) as [suffix ->].
      exists (String c "" ++ suffix). now rewrite app_String_assoc.
Qed.

Lemma parse_hyphenated (v : string) (p : parsed) :
  parse v = Some p -> hyphenated (prerelease p).
Proof.
  unfold parse. destruct (_ || _); [discriminate |].
  destruct (parseInt _) as [[maj v1]|]; [| discriminate].
  destruct (String.eqb v1 ""); [intros [= <-]; now left |].
  destruct (negb _); [discriminate |].
  destruct (parseInt _) as [[min v2]|]; [| discriminate].
  destruct (String.eqb v2 ""); [intros [= <-]; now left |].
  destruct (negb _); [discriminate |].
  destruct (parseInt _) as [[pat v3]|]; [| discriminate].
  unfold parse_tail.
  destruct (starts_with "-" v3) eqn:Hs.
  - unfold parsePrerelease.
    destruct (_ || _); [discriminate |].
    destruct (scan true _ _ _) as [[pre v4]|] eqn:Hscan; [| discriminate].
    destruct (if starts_with "+" v4 then _ else _) as [[bld v5]|]; [| discriminate].
    destruct (negb _); [discriminate |]. intros [= <-]. simpl.
    destruct (scan_taken _ _ _ _ _ _ Hscan) as [suffix ->]. right. simpl. eauto.
  - destruct (if starts_with "+" v3 then _ else _) as [[bld v5]|]; [| discriminate].
    destruct (negb _); [discriminate |]. intros [= <-]. now left.
Qed.

Lemma Compare_key (v w : string) : Compare v w = cmpK (keyOf v) (keyOf w).
Proof.
  unfold Compare, cmpK, keyOf.
  destruct (parse v) as [pv|] eqn:Ev, (parse w) as [pw|] eqn:Ew; try reflexivity.
  unfold lift_opt, lex, on. cbn [fst snd].
  destruct (negb (compareInt (major pv) (major pw) =? 0)%Z); [reflexivity |].
  destruct (negb (compareInt (minor pv) (minor pw) =? 0)%Z); [reflexivity |].
  destruct (negb (compareInt (patch pv) (patch pw) =? 0)%Z); [reflexivity |].
  apply comparePrerelease_key; eapply parse_hyphenated; eassumption.
Qed.

Global Instance cmpK_order : Order3 cmpK.
Proof. unfold cmpK. apply _. Qed.

End KeyFacts.

Global Instance Compare_three_way : ThreeWayOrder semver.Compare.
Proof.
  assert (H : Order3 semver.Compare).
  { split.
    - intros a b. rewrite !Compare_key. apply (o3_opp (cmp:=semver.cmpK)).
    - intros a b c. rewrite !Compare_key. apply (o3_trans (cmp:=semver.cmpK)). }
  now apply order3_three_way.
Qed.

(** ** [gomod.Deduplicate] *)

Section LowestFacts.

Import gomod.
Local Open Scope list_scope.
Variable cmp : string -> string -> Z.
Context `{!ThreeWayOrder cmp}.

Lemma lowest_spec (G : list Replace) (r : Replace) :
  lowest cmp G r = true <->
  forall s, s ∈ G -> (cmp (NewVer r) (NewVer s) <= 0)%Z.
Proof.
  unfold lowest. rewrite forallb_forall. split.
  - intros H s Hs. apply Z.leb_le, H. now apply list_elem_of_In.
  - intros H s Hs. apply Z.leb_le, H. now apply list_elem_of_In.
Qed.

Lemma lowest_app (G1 G2 : list Replace) (r : Replace) :
  lowest cmp (G1 ++ G2) r = lowest cmp G1 r && lowest cmp G2 r.
Proof. unfold lowest. apply forallb_app. Qed.

Lemma first_lowest_keep (G : list Replace) (e r : Replace) :
  first_lowest cmp G = Some e ->
  ¬ (cmp (NewVer r) (NewVer e) < 0)%Z ->
  first_lowest cmp (G ++ [r]) = Some e.
Proof.
  intros He Hr. unfold first_lowest in *.
  destruct (find_first _ _ _ He) as (G1 & G2 & HG & Hlow & Hbefore).
  rewrite HG at 2. rewrite <- app_assoc. simpl.
  apply find_at.
  - rewrite lowest_app, Hlow. simpl. rewrite andb_true_r.
    apply Z.leb_le. now apply cmp_not_lt_le.
  - intros x Hx. rewrite lowest_app, (Hbefore x Hx). reflexivity.
Qed.

Lemma first_lowest_replace (G : list Replace) (e r : Replace) :
  first_lowest cmp G = Some e ->
  (cmp (NewVer r) (NewVer e) < 0)%Z ->
  first_lowest cmp (G ++ [r]) = Some r.
Proof.
  intros He Hr. unfold first_lowest in *.
  destruct (find_first _ _ _ He) as (G1 & G2 & HG & Hlow & _).
  assert (He_low := proj1 (lowest_spec G e) Hlow).
  assert (HeG : e ∈ G) by (rewrite HG; apply elem_of_app; right; constructor).
  replace (G ++ [r]) with (G ++ r :: []) at 2 by reflexivity.
  apply find_at.
  - apply lowest_spec. intros s [Hs | Hs]%elem_of_app.
    + apply (cmp_le_trans _ (NewVer e)); [lia | now apply He_low].
    + apply list_elem_of_singleton in Hs. subst s. now apply cmp_refl.
  - intros x Hx. apply not_true_is_false. intros Hlowx.
    apply (cmp_lt_not_le cmp _ _ Hr).
    apply (cmp_le_trans _ (NewVer x)); [now apply He_low |].
    apply (proj1 (lowest_spec _ x) Hlowx).
    apply elem_of_app. right. constructor.
Qed.

Lemma first_lowest_singleton (r : Replace) : first_lowest cmp [r] = Some r.
Proof.
  unfold first_lowest, lowest. simpl.
  pose proof (cmp_refl cmp (NewVer r)) as H. apply Z.leb_le in H.
  now rewrite H.
Qed.

Lemma first_lowest_None (G : list Replace) : first_lowest cmp G = None -> G = [].
Proof.
  induction G as [|r G IH] using rev_ind; [reflexivity |].
  intros H. exfalso.
  destruct (first_lowest cmp G) as [e|] eqn:E.
  - destruct (Z_lt_le_dec (cmp (NewVer r) (NewVer e)) 0) as [Hlt | Hge].
    + rewrite (first_lowest_replace G e r E Hlt) in H. discriminate.
    + rewrite (first_lowest_keep G e r E) in H by lia. discriminate.
  - rewrite (IH eq_refl) in H. simpl in H.
    rewrite first_lowest_singleton in H. discriminate.
Qed.

Lemma first_lowest_elem (G : list Replace) (w : Replace) :
  first_lowest cmp G = Some w -> w ∈ G /\ lowest cmp G w = true.
Proof.
  intros H. destruct (find_first _ _ _ H) as (G1 & G2 & -> & Hlow & _).
  split; [apply elem_of_app; right; constructor | exact Hlow].
Qed.

(** Everything before the first lowest candidate compares strictly
    higher than it. *)
Lemma first_lowest_earliest (G : list Replace) (w : Replace) :
  first_lowest cmp G = Some w ->
  exists G1 G2, G = G1 ++ w :: G2 /\
    (forall s, s ∈ G -> (cmp (NewVer w) (NewVer s) <= 0)%Z) /\
    (forall s, s ∈ G1 -> (cmp (NewVer w) (NewVer s) < 0)%Z).
Proof.
  intros H. destruct (find_first _ _ _ H) as (G1 & G2 & HG & Hlow & Hbefore).
  exists G1, G2. split; [exact HG |].
  assert (Hw := proj1 (lowest_spec G w) Hlow).
  split; [exact Hw |].
  intros s Hs.
  destruct (Z_lt_le_dec (cmp (NewVer w) (NewVer s)) 0) as [Hlt | Hge];
    [exact Hlt | exfalso].
  assert (Hsw : (cmp (NewVer s) (NewVer w) <= 0)%Z)
    by (apply cmp_not_lt_le; [assumption | lia]).
  specialize (Hbefore s Hs).
  apply not_true_iff_false in Hbefore. apply Hbefore.
  apply lowest_spec. intros t Ht.
  apply (cmp_le_trans _ (NewVer w)); [exact Hsw | now apply Hw].
Qed.

End LowestFacts.

Section DedupFacts.

Import gomod.
Local Open Scope list_scope.
Variable cmp : string -> string -> Z.

Lemma byKey_of_snoc (x : list Replace) (r : Replace) :
  byKey_of cmp (x ++ [r]) = dedup_step cmp (byKey_of cmp x) r.
Proof. unfold byKey_of. now rewrite fold_left_app. Qed.

Lemma dedup_step_other (m : gmap string Replace) (r : Replace) (k : string) :
  key_of r ≠ k -> dedup_step cmp m r !! k = m !! k.
Proof.
  intros Hk. unfold dedup_step.
  destruct (m !! key_of r) as [e|];
    [destruct (cmp (NewVer r) (NewVer e) <? 0)%Z |];
    try reflexivity; now apply lookup_insert_ne.
Qed.

(** Every entry of the map is an input record filed under its own key. *)
Lemma byKey_of_entry (x : list Replace) (k : string) (r : Replace) :
  byKey_of cmp x !! k = Some r -> key_of r = k /\ r ∈ x.
Proof.
  revert k r. induction x as [|a x IH] using rev_ind; intros k r.
  - unfold byKey_of. simpl. now rewrite lookup_empty.
  - rewrite byKey_of_snoc. destruct (decide (key_of a = k)) as [<- | Hk].
    + unfold dedup_step.
      destruct (byKey_of cmp x !! key_of a) as [e|] eqn:E.
      * destruct (cmp (NewVer a) (NewVer e) <? 0)%Z.
        -- rewrite lookup_insert_eq. intros [= <-].
           split; [reflexivity | apply elem_of_app; right; constructor].
        -- rewrite E. intros [= <-]. destruct (IH _ _ E) as [Hk Hin].
           split; [exact Hk | apply elem_of_app; now left].
      * rewrite lookup_insert_eq. intros [= <-].
        split; [reflexivity | apply elem_of_app; right; constructor].
    + rewrite dedup_step_other by exact Hk. intros H.
      destruct (IH _ _ H) as [Hk' Hin].
      split; [exact Hk' | apply elem_of_app; now left].
Qed.

Lemma elem_of_entries (m : gmap string Replace) (r : Replace) :
  r ∈ entries m <-> exists k, m !! k = Some r.
Proof.
  unfold entries. rewrite list_elem_of_fmap. split.
  - intros ([k r'] & -> & H). exists k. now apply elem_of_map_to_list.
  - intros [k H]. exists (k, r). split; [reflexivity |].
    now apply elem_of_map_to_list.
Qed.

Lemma Deduplicate_range (o : MapOrder) (x : list Replace) :
  Deduplicate cmp o x = range_order o (entries (byKey_of cmp x)).
Proof. unfold Deduplicate. now rewrite fold_left_snoc_all. Qed.

Lemma Deduplicate_entries (o : MapOrder) (x : list Replace) :
  Deduplicate cmp o x ≡ₚ entries (byKey_of cmp x).
Proof. rewrite Deduplicate_range. apply range_order_perm. Qed.

Lemma elem_of_Deduplicate (o : MapOrder) (x : list Replace) (r : Replace) :
  r ∈ Deduplicate cmp o x <-> byKey_of cmp x !! key_of r = Some r.
Proof.
  rewrite Deduplicate_entries, elem_of_entries. split.
  - intros [k H]. destruct (byKey_of_entry _ _ _ H) as [<- _]. exact H.
  - eauto.
Qed.

Lemma Deduplicate_subset (o : MapOrder) (x : list Replace) (r : Replace) :
  r ∈ Deduplicate cmp o x -> r ∈ x.
Proof.
  rewrite elem_of_Deduplicate. intros H. now destruct (byKey_of_entry _ _ _ H).
Qed.

(** Filing a record under its key and listing the map are inverse. *)
Lemma entries_keyed (x : list Replace) :
  (fun r => (key_of r, r)) <$> entries (byKey_of cmp x)
  = map_to_list (byKey_of cmp x).
Proof.
  unfold entries. rewrite <- list_fmap_compose.
  rewrite <- (list_fmap_id (map_to_list (byKey_of cmp x))) at 2.
  apply Forall_fmap_ext, Forall_forall. intros [k r] H. simpl.
  apply elem_of_map_to_list in H.
  now destruct (byKey_of_entry _ _ _ H) as [-> _].
Qed.

Lemma entries_keys_NoDup (x : list Replace) :
  NoDup (key_of <$> entries (byKey_of cmp x)).
Proof.
  replace (key_of <$> entries (byKey_of cmp x))
    with ((map_to_list (byKey_of cmp x)).*1).
  - apply NoDup_fst_map_to_list.
  - rewrite <- entries_keyed, <- list_fmap_compose. reflexivity.
Qed.

Lemma entries_NoDup (x : list Replace) : NoDup (entries (byKey_of cmp x)).
Proof. apply (NoDup_fmap_1 key_of), entries_keys_NoDup. Qed.

(** On records of pairwise different keys the first loop files every
    record. *)
Lemma byKey_of_distinct (l : list Replace) :
  NoDup (key_of <$> l) ->
  byKey_of cmp l = list_to_map ((fun r => (key_of r, r)) <$> l).
Proof.
  induction l as [|a l IH] using rev_ind; intros Hnd; [reflexivity |].
  rewrite fmap_app in Hnd. apply NoDup_app in Hnd as (Hl & Hdisj & _).
  rewrite byKey_of_snoc, (IH Hl), fmap_app. simpl.
  assert (Hfresh : key_of a ∉ ((fun r => (key_of r, r)) <$> l).*1).
  { rewrite <- list_fmap_compose. intros Hin. apply (Hdisj _ Hin). constructor. }
  rewrite list_to_map_snoc by exact Hfresh.
  unfold dedup_step. now rewrite (not_elem_of_list_to_map_1 _ _ Hfresh).
Qed.

Lemma byKey_of_Deduplicate (o : MapOrder) (x : list Replace) :
  byKey_of cmp (Deduplicate cmp o x) = byKey_of cmp x.
Proof.
  pose proof (Deduplicate_entries o x) as Hperm.
  rewrite byKey_of_distinct.
  - transitivity (list_to_map (map_to_list (byKey_of cmp x)) : gmap string Replace);
      [| apply list_to_map_to_list].
    apply list_to_map_proper.
    + rewrite <- list_fmap_compose. simpl.
      rewrite Hperm. apply entries_keys_NoDup.
    + rewrite Hperm. now rewrite entries_keyed.
  - rewrite Hperm. apply entries_keys_NoDup.
Qed.

(** C1, amended.  Two invocations of [Deduplicate] on the same input
    return the same records, each as often as the other, whatever
    arrangement each invocation's walk over the map draws; the order of
    the two outputs is not claimed to agree. *)
Theorem Deduplicate_same_records (o1 o2 : MapOrder) (x : list Replace) :
  Deduplicate cmp o1 x ≡ₚ Deduplicate cmp o2 x.
Proof. now rewrite !Deduplicate_entries. Qed.

(** C8.  [Deduplicate] is idempotent up to order: running it on its
    own output yields the records of a single run, so the two outputs
    are equal as sets (and even as multisets), for every arrangement
    drawn by any of the three walks. *)
Theorem Deduplicate_idempotent (o1 o2 o3 : MapOrder) (x : list Replace) :
  Deduplicate cmp o2 (Deduplicate cmp o1 x) ≡ₚ Deduplicate cmp o3 x /\
  forall r, r ∈ Deduplicate cmp o2 (Deduplicate cmp o1 x) <-> r ∈ Deduplicate cmp o3 x.
Proof.
  assert (H : Deduplicate cmp o2 (Deduplicate cmp o1 x) ≡ₚ Deduplicate cmp o3 x).
  { rewrite (Deduplicate_entries o2), byKey_of_Deduplicate.
    symmetry. apply Deduplicate_entries. }
  split; [exact H | intros r; now rewrite H].
Qed.

End DedupFacts.

Section PolicyFacts.

Import gomod.
Local Open Scope list_scope.
Variable cmp : string -> string -> Z.
Context `{!ThreeWayOrder cmp}.

(** The map holds, under every key, the earliest lowest record among
    the input records of that key. *)
Lemma byKey_of_first_lowest (x : list Replace) (k : string) :
  byKey_of cmp x !! k = first_lowest cmp (filter (fun r => key_of r = k) x).
Proof.
  induction x as [|a x IH] using rev_ind; [reflexivity |].
  rewrite byKey_of_snoc, filter_app.
  destruct (decide (key_of a = k)) as [Hk | Hk].
  - rewrite filter_cons_True by exact Hk. rewrite filter_nil.
    unfold dedup_step. rewrite Hk, IH.
    destruct (first_lowest cmp (filter (fun r => key_of r = k) x)) as [e|] eqn:E.
    + destruct (cmp (NewVer a) (NewVer e) <? 0)%Z eqn:Hlt.
      * rewrite lookup_insert_eq. symmetry.
        apply (first_lowest_replace cmp _ e); [exact E | now apply Z.ltb_lt].
      * rewrite IH. symmetry.
        apply (first_lowest_keep cmp _ e); [exact E |].
        apply Z.ltb_ge in Hlt. lia.
    + rewrite lookup_insert_eq.
      rewrite (first_lowest_None cmp _ E). simpl.
      symmetry. apply first_lowest_singleton; assumption.
  - rewrite filter_cons_False by exact Hk. rewrite filter_nil, app_nil_r.
    now rewrite dedup_step_other.
Qed.

Lemma key_of_group_key (r s : Replace) : group_key r = group_key s -> key_of r = key_of s.
Proof. unfold group_key, key_of. now intros [= -> ->]. Qed.

Lemma filter_iff_in {A} (P Q : A -> Prop)
      `{!forall a, Decision (P a), !forall a, Decision (Q a)} (l : list A) :
  (forall a, a ∈ l -> P a <-> Q a) -> filter P l = filter Q l.
Proof.
  induction l as [|a l IH]; intros Hpq; [reflexivity |].
  assert (Hl : filter P l = filter Q l).
  { apply IH. intros b Hb. apply Hpq. now constructor. }
  destruct (decide (P a)) as [Ha | Ha].
  - rewrite !filter_cons_True; [now rewrite Hl | | exact Ha].
    apply Hpq; [constructor | exact Ha].
  - rewrite !filter_cons_False; [exact Hl | | exact Ha].
    intros Hq. apply Ha, Hpq; [constructor | exact Hq].
Qed.

Lemma group_by_key (x : list Replace) (r : Replace) :
  keys_faithful x -> r ∈ x ->
  group (group_key r) x = filter (fun s => key_of s = key_of r) x.
Proof.
  intros Hx Hr. unfold group. apply filter_iff_in. intros s Hs. split.
  - apply key_of_group_key.
  - now apply Hx.
Qed.

(** The output holds exactly one record of the group of [r], the one
    that the map holds under the key of [r]. *)
Lemma Deduplicate_group (o : MapOrder) (x : list Replace) (r w : Replace) :
  keys_faithful x -> r ∈ x ->
  byKey_of cmp x !! key_of r = Some w ->
  filter (fun s => group_key s = group_key r) (Deduplicate cmp o x) = [w].
Proof.
  intros Hx Hr Hw.
  destruct (byKey_of_entry _ _ _ _ Hw) as [Hkw Hwx].
  apply Permutation_singleton_r.
  rewrite (Deduplicate_entries cmp o x).
  apply NoDup_Permutation.
  - apply NoDup_filter, entries_NoDup.
  - apply NoDup_singleton.
  - intros s. rewrite list_elem_of_filter, elem_of_entries, list_elem_of_singleton.
    split.
    + intros [Hg [k Hs]].
      destruct (byKey_of_entry _ _ _ _ Hs) as [<- _].
      apply key_of_group_key in Hg. rewrite Hg, Hw in Hs. congruence.
    + intros ->. split; [apply Hx; assumption | eauto].
Qed.

(** C2, amended.  Let [semver.Compare] be a three-way comparison, and
    let no two input records of different (OldTarget, OldConstraint)
    pairs share a map key.  Then for every input record the output
    holds exactly one record of its group, that record's NewVersion
    compares lowest among the group's candidates, and every output
    record is an input record. *)
Theorem Deduplicate_one_lowest_per_group (o : MapOrder) (x : list Replace) :
  keys_faithful x ->
  one_lowest_per_group cmp x (Deduplicate cmp o x) /\
  forall w, w ∈ Deduplicate cmp o x -> w ∈ x.
Proof.
  intros Hx. split; [| intros w; apply Deduplicate_subset].
  intros r Hr.
  pose proof (byKey_of_first_lowest x (key_of r)) as Hm.
  rewrite <- (group_by_key x r Hx Hr) in Hm.
  destruct (first_lowest cmp (group (group_key r) x)) as [w|] eqn:E.
  - exists w. split; [now apply Deduplicate_group |].
    now apply (first_lowest_elem cmp) in E as [_ E].
  - apply (first_lowest_None cmp) in E.
    assert (Hin : r ∈ group (group_key r) x)
      by (apply list_elem_of_filter; split; [reflexivity | exact Hr]).
    rewrite E in Hin. inversion Hin.
Qed.

(** C9, amended.  Under the same two conditions as for C2, the record
    that the output holds for a group is the earliest member of the
    group that compares lowest: every member before it in the input
    compares strictly higher, so among records of equal lowest version
    the first one is kept. *)
Theorem Deduplicate_ties_keep_earliest (o : MapOrder) (x : list Replace) :
  keys_faithful x ->
  ties_keep_earliest cmp x (Deduplicate cmp o x) /\
  forall r w, r ∈ x -> first_lowest cmp (group (group_key r) x) = Some w ->
    exists before after,
      group (group_key r) x = before ++ w :: after /\
      (forall s, s ∈ group (group_key r) x ->
                 (cmp (NewVer w) (NewVer s) <= 0)%Z) /\
      (forall s, s ∈ before -> (cmp (NewVer w) (NewVer s) < 0)%Z).
Proof.
  intros Hx. split.
  - intros r w Hr Hw. apply Deduplicate_group; [exact Hx | exact Hr |].
    rewrite byKey_of_first_lowest, <- (group_by_key x r Hx Hr). exact Hw.
  - intros r w _ Hw. now apply first_lowest_earliest.
Qed.


End PolicyFacts.

(** ** Reading manifests *)

Section ReadingFacts.

Import gomod.
Local Open Scope list_scope.

Lemma fold_left_keep {A B : Type} (keep : A -> bool) (f : B -> A)
      (l : list B) (acc : list A) :
  fold_left (fun result b => if keep (f b) then result ++ [f b] else result) l acc
  = acc ++ filter (fun a => keep a = true) (f <$> l).
Proof.
  revert acc; induction l as [|b l IH]; intros acc; simpl.
  - now rewrite app_nil_r.
  - rewrite IH. destruct (keep (f b)) eqn:E.
    + rewrite filter_cons_True by exact E. now rewrite <- app_assoc.
    + rewrite filter_cons_False by congruence. reflexivity.
Qed.

Lemma filter_none {A : Type} (P : A -> Prop) `{!forall a, Decision (P a)}
      (l : list A) :
  (forall a, a ∈ l -> ¬ P a) -> filter P l = [].
Proof.
  induction l as [|a l IH]; intros Hl; [reflexivity |].
  rewrite filter_cons_False by (apply Hl; constructor).
  apply IH. intros b Hb. apply Hl. now constructor.
Qed.

Variable os_ReadFile : string -> result string.
Variable modfile_Parse : string -> string -> result modfile.File.
Variable strings_TrimSpace : string -> string.

Lemma ParseReplaces_run (path : string) (rs : list Replace) :
  ParseReplaces os_ReadFile modfile_Parse path = Ok rs ->
  exists data f,
    os_ReadFile path = Ok data /\ modfile_Parse path data = Ok f /\
    rs = filter (fun r => negb (IsLocal r) = true) (of_directive <$> modfile.Replaces f).
Proof.
  unfold ParseReplaces.
  destruct (os_ReadFile path) as [data | err] eqn:Eread; [| discriminate].
  destruct (modfile_Parse path data) as [f | err] eqn:Eparse; [| discriminate].
  intros [= <-]. exists data, f. split; [reflexivity |]. split; [exact Eparse |].
  apply (fold_left_keep (fun r => negb (IsLocal r)) of_directive).
Qed.

Lemma ParseReplacesWithSource_run (path : string) (rs : list Replace) :
  ParseReplacesWithSource os_ReadFile modfile_Parse strings_TrimSpace path = Ok rs ->
  exists data f,
    os_ReadFile path = Ok data /\ modfile_Parse path data = Ok f /\
    rs = filter (fun r => negb (String.eqb (Source r) "") = true)
                (annotate strings_TrimSpace <$> modfile.Replaces f).
Proof.
  unfold ParseReplacesWithSource.
  destruct (os_ReadFile path) as [data | err] eqn:Eread; [| discriminate].
  destruct (modfile_Parse path data) as [f | err] eqn:Eparse; [| discriminate].
  intros [= <-]. exists data, f. split; [reflexivity |]. split; [exact Eparse |].
  apply (fold_left_keep (fun r => negb (String.eqb (Source r) ""))
           (annotate strings_TrimSpace)).
Qed.

Lemma ParseReplaces_not_local (path : string) (rs : list Replace) (r : Replace) :
  ParseReplaces os_ReadFile modfile_Parse path = Ok rs ->
  r ∈ rs -> pathutil.IsLocalPath (New r) = false.
Proof.
  intros H Hr. destruct (ParseReplaces_run _ _ H) as (data & f & _ & _ & ->).
  apply list_elem_of_filter in Hr as [Hr _].
  now apply negb_true_iff in Hr.
Qed.

Lemma ParseReplacesWithSource_annotated (path : string) (rs : list Replace) (r : Replace) :
  ParseReplacesWithSource os_ReadFile modfile_Parse strings_TrimSpace path = Ok rs ->
  r ∈ rs -> Source r ≠ "".
Proof.
  intros H Hr. destruct (ParseReplacesWithSource_run _ _ H) as (data & f & _ & _ & ->).
  apply list_elem_of_filter in Hr as [Hr _].
  apply negb_true_iff in Hr. now apply String.eqb_neq in Hr.
Qed.

End ReadingFacts.

Section StaleFacts.

Import sync.
Local Open Scope list_scope.

Lemma currentKeys_lookup (current : list gomod.Replace) (k : string) :
  default false
    (fold_left (fun (keys : gmap string bool) r => <[gomod.Old r := true]> keys)
               current ∅ !! k)
  = bool_decide (k ∈ gomod.Old <$> current).
Proof.
  induction current as [|r current IH] using rev_ind.
  - simpl. rewrite lookup_empty. reflexivity.
  - rewrite fold_left_app, fmap_app. simpl.
    destruct (decide (gomod.Old r = k)) as [-> | Hk].
    + rewrite lookup_insert_eq. simpl. symmetry. apply bool_decide_eq_true.
      apply elem_of_app. right. constructor.
    + rewrite lookup_insert_ne by exact Hk. rewrite IH.
      apply bool_decide_ext. rewrite elem_of_app, list_elem_of_singleton.
      split; [tauto | intros [H | H]; [exact H | congruence]].
Qed.

Variable filepath_Join : string -> string -> string.
Variable modfile_Parse : string -> string -> result modfile.File.
Variable strings_TrimSpace : string -> string.

(** C5.  When the manifest of the working directory reads and parses,
    [findStaleReplaces] succeeds and returns exactly the annotated
    replaces, in manifest order, whose [Old] is the [Old] of no record
    of the reconciled list; every annotated replace has a non-empty
    [Source]; and the result is empty when every annotated [Old] occurs
    in the reconciled list. *)
Theorem findStaleReplaces_exact (dir : string) (current : list gomod.Replace)
        (fs : gmap string string) (annotated : list gomod.Replace) :
  gomod.ParseReplacesWithSource (os_ReadFile fs) modfile_Parse strings_TrimSpace
    (filepath_Join dir "go.mod") = Ok annotated ->
  findStaleReplaces filepath_Join modfile_Parse strings_TrimSpace dir current fs
    = (filter (fun r => gomod.Old r ∉ gomod.Old <$> current) annotated, None) /\
  (forall r, r ∈ annotated -> gomod.Source r ≠ "") /\
  ((forall r, r ∈ annotated -> gomod.Old r ∈ gomod.Old <$> current) ->
   (findStaleReplaces filepath_Join modfile_Parse strings_TrimSpace dir current fs).1 = []).
Proof.
  intros Hread.
  assert (Hrun : findStaleReplaces filepath_Join modfile_Parse strings_TrimSpace dir current fs
    = (filter (fun r => gomod.Old r ∉ gomod.Old <$> current) annotated, None)).
  { unfold findStaleReplaces. rewrite Hread. f_equal.
    rewrite (fold_left_keep
               (fun r => negb (default false
                  (fold_left (fun (keys : gmap string bool) r => <[gomod.Old r := true]> keys)
                             current ∅ !! gomod.Old r))) id).
    rewrite list_fmap_id. simpl.
    apply list_filter_iff. intros r. rewrite currentKeys_lookup.
    rewrite negb_true_iff, bool_decide_eq_false. reflexivity. }
  split; [exact Hrun |]. split.
  - intros r. exact (ParseReplacesWithSource_annotated _ _ _ _ _ r Hread).
  - intros Hall. rewrite Hrun. simpl.
    apply filter_none. intros r Hr Hnot. apply Hnot, Hall, Hr.
Qed.

End StaleFacts.

(** ** [sync] *)

Section SyncFacts.

Import sync.
Local Open Scope list_scope.

Variable os_Getwd : result string.
Variable filepath_Join : string -> string -> string.
Variable modfile_Parse : string -> string -> result modfile.File.
Variable cmp : string -> string -> Z.
Variable order : MapOrder.
Variable go : Command -> gmap string string -> gmap string string * result string.
Variable json_Decode : string -> list (result moduleInfo).
Variable strings_TrimSpace : string -> string.
Variable write_error : string -> string -> gmap string string -> option error.
Variable go_stderr : Command -> gmap string string -> list string.

Lemma quiet_ret {A} (a : A) : quiet (ret a).
Proof. intros w. split; reflexivity. Qed.

Lemma quiet_bind {A B} (m : M A) (f : A -> M B) :
  quiet m -> (forall a, quiet (f a)) -> quiet (bind m f).
Proof.
  intros Hm Hf w. unfold bind. destruct (m w) as [a w1] eqn:E.
  destruct (Hm w) as [H1 H2]. rewrite E in H1, H2. simpl in H1, H2.
  destruct (Hf a w1) as [H3 H4]. split; congruence.
Qed.

Lemma quiet_log out line : quiet (log out line).
Proof. intros w. split; reflexivity. Qed.

Lemma quiet_verbose out enabled line : quiet (verbose out enabled line).
Proof. destruct enabled; [apply quiet_log | apply quiet_ret]. Qed.

Lemma quiet_fold_log {A} out (line : A -> string) (l : list A) (m : M unit) :
  quiet m ->
  quiet (fold_left (fun m r => bind m (fun _ => log out (line r))) l m).
Proof.
  revert m; induction l as [|a l IH]; intros m Hm; simpl; [exact Hm |].
  apply IH, quiet_bind; [exact Hm | intros _; apply quiet_log].
Qed.

Lemma quiet_collect out opts (deps : list moduleInfo) (acc : list gomod.Replace) :
  quiet (collect filepath_Join modfile_Parse out opts deps acc).
Proof.
  revert acc; induction deps as [|dep deps IH]; intros acc; simpl.
  - apply quiet_ret.
  - apply quiet_bind; [apply quiet_verbose | intros _].
    destruct (String.eqb (ModDir dep) "").
    + apply quiet_bind; [apply quiet_verbose | intros _; apply IH].
    + intros w.
      destruct (gomod.ParseReplaces _ _ _) as [rs | err].
      * apply IH.
      * apply (quiet_bind _ _ (quiet_verbose _ _ _) (fun _ => IH acc)).
Qed.

Lemma quiet_would_apply out replaces : quiet (would_apply out replaces).
Proof.
  apply quiet_bind; [apply quiet_log | intros _].
  apply quiet_fold_log with
    (line := (fun r => "  " ++ gomod.Old r ++ " => " ++ gomod.New r ++ " " ++
                       gomod.NewVer r ++ " // from: " ++ gomod.Source r)%string).
  apply quiet_ret.
Qed.

Lemma quiet_would_remove out stale : quiet (would_remove out stale).
Proof.
  apply quiet_bind; [apply quiet_log | intros _].
  apply quiet_fold_log with
    (line := (fun r => "  " ++ gomod.Old r ++ " (was from: " ++
                       gomod.Source r ++ ")")%string).
  apply quiet_ret.
Qed.

(** In dry-run mode the last part of [Run] starts no process and writes
    no file. *)
Lemma quiet_finish_dry_run out opts dir replaces stale :
  DryRun opts = true ->
  quiet (finish filepath_Join go write_error go_stderr out opts dir replaces stale).
Proof.
  intros Hdry. unfold finish. rewrite Hdry.
  destruct ((length replaces =? 0)%nat && (length stale =? 0)%nat).
  - apply quiet_bind; [apply quiet_log | intros _; apply quiet_ret].
  - apply quiet_bind.
    + destruct (0 <? length replaces)%nat;
        [apply quiet_would_apply | apply quiet_ret].
    + intros _. apply quiet_bind; [| intros _; apply quiet_ret].
      destruct (0 <? length stale)%nat;
        [apply quiet_would_remove | apply quiet_ret].
Qed.

Local Abbreviation Run :=
  (sync.Run os_Getwd filepath_Join modfile_Parse cmp order go json_Decode
     strings_TrimSpace write_error go_stderr).
Local Abbreviation run_in :=
  (sync.run_in filepath_Join modfile_Parse cmp order go json_Decode
     strings_TrimSpace write_error go_stderr).
Local Abbreviation after_listing :=
  (sync.after_listing filepath_Join modfile_Parse cmp order go
     strings_TrimSpace write_error go_stderr).

Lemma bind_run {A B} (m : M A) (f : A -> M B) (w : World) :
  bind m f w = f (m w).1 (m w).2.
Proof. unfold bind. now destruct (m w). Qed.

Lemma quiet_files {A} (m : M A) (w : World) : quiet m -> files (m w).2 = files w.
Proof. intros H. apply H. Qed.

Lemma quiet_executed {A} (m : M A) (w : World) :
  quiet m -> executed (m w).2 = executed w.
Proof. intros H. apply H. Qed.

Lemma exec_run dir argv w :
  exec go dir argv w =
    ((go {| cmd_dir := dir; cmd_argv := argv |} (files w)).2,
     {| files := (go {| cmd_dir := dir; cmd_argv := argv |} (files w)).1;
        written := written w;
        executed := executed w ++ [{| cmd_dir := dir; cmd_argv := argv |}] |}).
Proof. unfold exec. now destruct (go _ _). Qed.

Lemma listDirectDeps_run dir w :
  listDirectDeps go json_Decode dir w =
    (match (go (go_list dir) (files w)).2 with
     | Err err => Err err
     | Ok out => decode_deps (json_Decode out) []
     end,
     {| files := (go (go_list dir) (files w)).1;
        written := written w;
        executed := executed w ++ [go_list dir] |}).
Proof. unfold listDirectDeps. now rewrite bind_run, exec_run. Qed.

Lemma run_in_run out opts dir w :
  run_in out opts dir w =
    match (listDirectDeps go json_Decode dir w).1 with
    | Err err => (Some ("listing deps: " ++ err)%string,
                  (listDirectDeps go json_Decode dir w).2)
    | Ok deps => after_listing out opts dir deps (listDirectDeps go json_Decode dir w).2
    end.
Proof.
  unfold sync.run_in. rewrite bind_run.
  destruct (listDirectDeps go json_Decode dir w).1; reflexivity.
Qed.

Lemma quiet_after_listing_dry_run out opts dir deps :
  DryRun opts = true -> quiet (after_listing out opts dir deps).
Proof.
  intros Hdry. unfold sync.after_listing.
  apply quiet_bind; [apply quiet_verbose | intros _].
  apply quiet_bind; [apply quiet_collect | intros allReplaces].
  intros w2.
  destruct (findStaleReplaces _ _ _ _ _) as [stale err].
  apply quiet_bind; [| intros _; now apply quiet_finish_dry_run].
  destruct err; [apply quiet_verbose | apply quiet_ret].
Qed.

(** What a dry run leaves of the world: nothing was written, and the one
    process started was the dependency listing. *)
Lemma dry_run_effects out opts dir w :
  DryRun opts = true ->
  files (run_in out opts dir w).2 = (go (go_list dir) (files w)).1 /\
  executed (run_in out opts dir w).2 = executed w ++ [go_list dir].
Proof.
  intros Hdry. rewrite run_in_run, listDirectDeps_run. simpl.
  destruct (go (go_list dir) (files w)).2 as [out' | err];
    [| split; reflexivity].
  destruct (decode_deps (json_Decode out') []) as [deps | err];
    [| split; reflexivity].
  pose proof (quiet_after_listing_dry_run out opts dir deps Hdry) as Hq.
  now rewrite (quiet_files _ _ Hq), (quiet_executed _ _ Hq).
Qed.

(** C6.  With [DryRun] set, [Run] leaves every file as it was that the
    dependency listing leaves as it was, the manifest among them:
    whatever branch the run takes, the contents at [path] are the same
    before and after. *)
Theorem dry_run_keeps_manifest (opts : Options) (w : World) (path : string) :
  DryRun opts = true ->
  (forall dir fs, (go (go_list dir) fs).1 !! path = fs !! path) ->
  files (Run opts w).2 !! path = files w !! path.
Proof.
  intros Hdry Hlist. unfold sync.Run.
  destruct (if String.eqb (Dir opts) "" then os_Getwd else Ok (Dir opts))
    as [dir | err]; [| reflexivity].
  destruct (dry_run_effects (default Stdout (Output opts)) opts dir w Hdry)
    as [-> _].
  apply Hlist.
Qed.

End SyncFacts.

Section RunFacts.

Import sync.
Local Open Scope list_scope.

Variable os_Getwd : result string.
Variable filepath_Join : string -> string -> string.
Variable modfile_Parse : string -> string -> result modfile.File.
Variable cmp : string -> string -> Z.
Variable order : MapOrder.
Variable go : Command -> gmap string string -> gmap string string * result string.
Variable json_Decode : string -> list (result moduleInfo).
Variable strings_TrimSpace : string -> string.
Variable write_error : string -> string -> gmap string string -> option error.
Variable go_stderr : Command -> gmap string string -> list string.

Local Abbreviation Run :=
  (sync.Run os_Getwd filepath_Join modfile_Parse cmp order go json_Decode
     strings_TrimSpace write_error go_stderr).
Local Abbreviation collect := (sync.collect filepath_Join modfile_Parse).
Local Abbreviation finish := (sync.finish filepath_Join go write_error go_stderr).
Local Abbreviation addSourceComment := (sync.addSourceComment filepath_Join write_error).

(** Every record that the collecting loop accumulates comes out of
    [ParseReplaces], stamped with its dependency. *)
Lemma collect_not_local out opts deps acc w r :
  (forall a, a ∈ acc -> pathutil.IsLocalPath (gomod.New a) = false) ->
  r ∈ (collect out opts deps acc w).1 ->
  pathutil.IsLocalPath (gomod.New r) = false.
Proof.
  revert acc w. induction deps as [|dep deps IH]; intros acc w Hacc; simpl.
  - apply Hacc.
  - rewrite bind_run. destruct (String.eqb (ModDir dep) "").
    + rewrite bind_run. now apply IH.
    + destruct (gomod.ParseReplaces _ _ _) as [rs | err] eqn:E.
      * apply IH. intros a [Ha | Ha]%elem_of_app; [now apply Hacc |].
        apply list_elem_of_fmap in Ha as (b & -> & Hb). simpl.
        exact (ParseReplaces_not_local _ _ _ _ _ E Hb).
      * rewrite bind_run. now apply IH.
Qed.

(** C4.  No record returned by [ParseReplaces] has a local [New];
    [Deduplicate] returns no local record when given none; and so the
    reconciled set that [Run] computes from the manifests of its
    dependencies holds no local record. *)
Theorem local_overrides_never_propagate :
  (forall fs path rs r,
      gomod.ParseReplaces (os_ReadFile fs) modfile_Parse path = Ok rs ->
      r ∈ rs -> pathutil.IsLocalPath (gomod.New r) = false) /\
  (forall o x r,
      (forall a, a ∈ x -> pathutil.IsLocalPath (gomod.New a) = false) ->
      r ∈ gomod.Deduplicate cmp o x -> pathutil.IsLocalPath (gomod.New r) = false) /\
  (forall out opts deps w o r,
      r ∈ gomod.Deduplicate cmp o (collect out opts deps [] w).1 ->
      pathutil.IsLocalPath (gomod.New r) = false).
Proof.
  split; [| split].
  - intros fs path rs r. apply ParseReplaces_not_local.
  - intros o x r Hx Hr. apply Hx. exact (Deduplicate_subset cmp o x r Hr).
  - intros out opts deps w o r Hr.
    apply (collect_not_local out opts deps [] w).
    + intros a Ha. inversion Ha.
    + exact (Deduplicate_subset cmp o _ r Hr).
Qed.

(** *** The provenance annotation *)

Lemma addSourceComment_annotated dir r w content :
  files w !! filepath_Join dir "go.mod" = Some content ->
  strings.Contains content (pattern_of r ++ comment_of r)%string = true ->
  addSourceComment dir r w = (None, w).
Proof.
  intros Hfile Hc. unfold sync.addSourceComment, os_ReadFile.
  rewrite Hfile, Hc. now rewrite andb_false_r.
Qed.

Lemma addSourceComment_rewrite dir r w content :
  files w !! filepath_Join dir "go.mod" = Some content ->
  strings.Contains content (pattern_of r) = true ->
  strings.Contains content (pattern_of r ++ comment_of r)%string = false ->
  write_error (filepath_Join dir "go.mod")
    (strings.Replace1 content (pattern_of r) (pattern_of r ++ comment_of r)%string)
    (files w) = None ->
  addSourceComment dir r w =
    (None,
     {| files := <[filepath_Join dir "go.mod" :=
                     strings.Replace1 content (pattern_of r)
                       (pattern_of r ++ comment_of r)%string]> (files w);
        written := written w; executed := executed w |}).
Proof.
  intros Hfile Hp Hc Hw. unfold sync.addSourceComment, os_ReadFile, os_WriteFile.
  now rewrite Hfile, Hp, Hc, Hw.
Qed.

Lemma addSourceComment_refused dir r w content err :
  files w !! filepath_Join dir "go.mod" = Some content ->
  strings.Contains content (pattern_of r) = true ->
  strings.Contains content (pattern_of r ++ comment_of r)%string = false ->
  write_error (filepath_Join dir "go.mod")
    (strings.Replace1 content (pattern_of r) (pattern_of r ++ comment_of r)%string)
    (files w) = Some err ->
  addSourceComment dir r w = (Some err, w).
Proof.
  intros Hfile Hp Hc Hw. unfold sync.addSourceComment, os_ReadFile, os_WriteFile.
  now rewrite Hfile, Hp, Hc, Hw.
Qed.

Lemma addSourceComment_absent dir r w content :
  files w !! filepath_Join dir "go.mod" = Some content ->
  strings.Contains content (pattern_of r) = false ->
  addSourceComment dir r w = (None, w).
Proof.
  intros Hfile Hp. unfold sync.addSourceComment, os_ReadFile.
  now rewrite Hfile, Hp.
Qed.

Lemma addSourceComment_unreadable dir r w :
  files w !! filepath_Join dir "go.mod" = None ->
  addSourceComment dir r w
  = (Some ("open " ++ filepath_Join dir "go.mod" ++ ": no such file or directory")%string,
     w).
Proof.
  intros Hfile. unfold sync.addSourceComment, os_ReadFile. now rewrite Hfile.
Qed.

Lemma addSourceComment_twice dir r w :
  (addSourceComment dir r (addSourceComment dir r w).2).2
  = (addSourceComment dir r w).2.
Proof.
  destruct (files w !! filepath_Join dir "go.mod") as [content|] eqn:Hfile.
  - destruct (strings.Contains content (pattern_of r ++ comment_of r)%string) eqn:Hc.
    + rewrite (addSourceComment_annotated dir r w content Hfile Hc). simpl.
      now rewrite (addSourceComment_annotated dir r w content Hfile Hc).
    + destruct (strings.Contains content (pattern_of r)) eqn:Hp.
      * destruct (write_error (filepath_Join dir "go.mod")
                    (strings.Replace1 content (pattern_of r)
                       (pattern_of r ++ comment_of r)%string) (files w))
          as [err|] eqn:Hw.
        -- rewrite (addSourceComment_refused dir r w content err Hfile Hp Hc Hw).
           cbn [snd].
           now rewrite (addSourceComment_refused dir r w content err Hfile Hp Hc Hw).
        -- rewrite (addSourceComment_rewrite dir r w content Hfile Hp Hc Hw).
           cbn [snd].
           erewrite addSourceComment_annotated; [reflexivity | |].
           ++ cbn [files]. apply lookup_insert_eq.
           ++ now apply Replace1_Contains.
      * rewrite (addSourceComment_absent dir r w content Hfile Hp). cbn [snd].
        now rewrite (addSourceComment_absent dir r w content Hfile Hp).
  - rewrite (addSourceComment_unreadable dir r w Hfile). cbn [snd].
    now rewrite (addSourceComment_unreadable dir r w Hfile).
Qed.

(** C10.  On a readable manifest, [addSourceComment] returns success
    and changes nothing when the directive is already followed by its
    comment; a second application never changes what the first one
    left; and when it does rewrite, the comment is inserted after the
    first occurrence of the directive pattern and nothing else in the
    manifest, nor any other file, is changed. *)
Theorem addSourceComment_idempotent (dir : string) (r : gomod.Replace)
        (w : World) (content : string) :
  files w !! filepath_Join dir "go.mod" = Some content ->
  (strings.Contains content (pattern_of r ++ comment_of r)%string = true ->
   addSourceComment dir r w = (None, w)) /\
  (addSourceComment dir r (addSourceComment dir r w).2).2
    = (addSourceComment dir r w).2 /\
  ((addSourceComment dir r w).2 ≠ w ->
   exists n,
     strings.Index content (pattern_of r) = Some n /\
     (forall m, m < n ->
                strings.HasPrefix (strings.drop m content) (pattern_of r) = false) /\
     content = (strings.take n content ++ pattern_of r ++
                strings.drop (n + String.length (pattern_of r)) content)%string /\
     files (addSourceComment dir r w).2 !! filepath_Join dir "go.mod"
     = Some (strings.take n content ++ (pattern_of r ++ comment_of r) ++
             strings.drop (n + String.length (pattern_of r)) content)%string /\
     forall other, other ≠ filepath_Join dir "go.mod" ->
                   files (addSourceComment dir r w).2 !! other = files w !! other).
Proof.
  intros Hfile. split; [now apply addSourceComment_annotated |].
  split; [apply addSourceComment_twice |].
  intros Hchanged.
  destruct (strings.Contains content (pattern_of r ++ comment_of r)%string) eqn:Hc.
  { rewrite (addSourceComment_annotated dir r w content Hfile Hc) in Hchanged.
    now contradiction Hchanged. }
  destruct (strings.Contains content (pattern_of r)) eqn:Hp.
  - destruct (write_error (filepath_Join dir "go.mod")
                (strings.Replace1 content (pattern_of r)
                   (pattern_of r ++ comment_of r)%string) (files w))
      as [err|] eqn:Hw.
    { rewrite (addSourceComment_refused dir r w content err Hfile Hp Hc Hw)
        in Hchanged.
      now contradiction Hchanged. }
    rewrite (addSourceComment_rewrite dir r w content Hfile Hp Hc Hw). cbn [snd files].
    unfold strings.Contains in Hp.
    destruct (strings.Index content (pattern_of r)) as [n|] eqn:Hn; [| discriminate].
    exists n. split; [reflexivity |].
    split; [apply (Index_first _ _ _ Hn) |].
    split; [now apply Index_split |].
    split.
    + rewrite lookup_insert_eq. f_equal. now apply Replace1_first.
    + intros other Hother. now apply lookup_insert_ne.
  - exfalso. apply Hchanged.
    now rewrite (addSourceComment_absent dir r w content Hfile Hp).
Qed.

End RunFacts.

Section StaleFailure.

Import sync.
Local Open Scope list_scope.

Variable os_Getwd : result string.
Variable filepath_Join : string -> string -> string.
Variable modfile_Parse : string -> string -> result modfile.File.
Variable cmp : string -> string -> Z.
Variable order : MapOrder.
Variable go : Command -> gmap string string -> gmap string string * result string.
Variable json_Decode : string -> list (result moduleInfo).
Variable strings_TrimSpace : string -> string.
Variable write_error : string -> string -> gmap string string -> option error.
Variable go_stderr : Command -> gmap string string -> list string.

Local Abbreviation Run :=
  (sync.Run os_Getwd filepath_Join modfile_Parse cmp order go json_Decode
     strings_TrimSpace write_error go_stderr).
Local Abbreviation run_in :=
  (sync.run_in filepath_Join modfile_Parse cmp order go json_Decode
     strings_TrimSpace write_error go_stderr).
Local Abbreviation after_listing :=
  (sync.after_listing filepath_Join modfile_Parse cmp order go
     strings_TrimSpace write_error go_stderr).
Local Abbreviation collect := (sync.collect filepath_Join modfile_Parse).
Local Abbreviation finish := (sync.finish filepath_Join go write_error go_stderr).
Local Abbreviation apply_replaces := (sync.apply_replaces filepath_Join go write_error go_stderr).
Local Abbreviation addSourceComment := (sync.addSourceComment filepath_Join write_error).
Local Abbreviation findStaleReplaces :=
  (sync.findStaleReplaces filepath_Join modfile_Parse strings_TrimSpace).

Local Abbreviation go_succeeds := (sync.go_succeeds go).

Lemma runCmd_run dir name args w :
  runCmd go go_stderr dir name args w =
    (match (go {| cmd_dir := dir; cmd_argv := name :: args |} (files w)).2 with
     | Ok _ => None
     | Err err => Some err
     end,
     {| files := (go {| cmd_dir := dir; cmd_argv := name :: args |} (files w)).1;
        written := written w ++
                   ((fun text => (Stderr, text)) <$>
                    go_stderr {| cmd_dir := dir; cmd_argv := name :: args |} (files w));
        executed := executed w ++ [{| cmd_dir := dir; cmd_argv := name :: args |}] |}).
Proof. unfold runCmd. now destruct (go _ _). Qed.

Lemma addSourceComment_executed dir r w :
  executed (addSourceComment dir r w).2 = executed w.
Proof.
  unfold sync.addSourceComment, os_WriteFile.
  destruct (os_ReadFile _ _); [| reflexivity].
  destruct (_ && _); [| reflexivity].
  destruct (write_error _ _ _); reflexivity.
Qed.

Lemma apply_replaces_succeeds out opts dir replaces w :
  go_succeeds ->
  (apply_replaces out opts dir replaces w).1 = None /\
  executed (apply_replaces out opts dir replaces w).2
  = executed w ++ (go_mod_edit_replace dir <$> replaces).
Proof.
  intros Hgo. revert w. induction replaces as [|r replaces IH]; intros w.
  - simpl. now rewrite app_nil_r.
  - cbn [sync.apply_replaces]. rewrite bind_run, runCmd_run. cbn [fst snd].
    fold (go_mod_edit_replace dir r).
    destruct (Hgo (go_mod_edit_replace dir r) (files w)) as [o ->].
    rewrite !bind_run.
    match goal with |- context [apply_replaces out opts dir replaces ?w'] =>
      destruct (IH w') as [-> ->]; split; [reflexivity |];
      assert (Hex : executed w' = executed w ++ [go_mod_edit_replace dir r])
    end.
    + rewrite (quiet_executed _ _ (quiet_log _ _)).
      match goal with |- context [match ?e with Some _ => _ | None => _ end] =>
        assert (Hq : quiet (match e with
                            | Some err => verbose out (Verbose opts)
                                ("warning: could not add source comment: " ++ err)%string
                            | None => ret tt end))
          by (destruct e; [apply quiet_verbose | apply quiet_ret])
      end.
      rewrite (quiet_executed _ _ Hq), addSourceComment_executed. reflexivity.
    + rewrite Hex, <- app_assoc. reflexivity.
Qed.

Lemma tidy_succeeds out opts dir w :
  go_succeeds ->
  (tidy go go_stderr out opts dir w).1 = None /\
  executed (tidy go go_stderr out opts dir w).2
  = executed w ++ (if SkipTidy opts then [] else [go_mod_tidy dir]).
Proof.
  intros Hgo. unfold tidy. destruct (SkipTidy opts); simpl.
  - now rewrite app_nil_r.
  - rewrite !bind_run, runCmd_run. cbn [fst snd].
    fold (go_mod_tidy dir).
    destruct (Hgo (go_mod_tidy dir)
                (files (verbose out (Verbose opts) "Running go mod tidy..." w).2))
      as [o ->].
    split; [reflexivity |]. cbn [executed].
    now rewrite (quiet_executed _ _ (quiet_verbose _ _ _)).
Qed.

(** With nothing stale, a run that is not dry edits the manifest once
    per reconciled record and then tidies. *)
Lemma finish_without_stale out opts dir replaces w :
  go_succeeds -> DryRun opts = false ->
  (finish out opts dir replaces [] w).1 = None /\
  executed (finish out opts dir replaces [] w).2
  = executed w ++
    match replaces with
    | [] => []
    | _ => (go_mod_edit_replace dir <$> replaces) ++
           (if SkipTidy opts then [] else [go_mod_tidy dir])
    end.
Proof.
  intros Hgo Hdry. unfold sync.finish. rewrite Hdry.
  destruct replaces as [|r replaces].
  - simpl. now rewrite app_nil_r.
  - cbn [length Nat.eqb andb]. rewrite bind_run.
    destruct (apply_replaces_succeeds out opts dir (r :: replaces) w Hgo)
      as [-> Hex].
    cbn [remove_stale]. rewrite bind_run. cbn [ret fst snd].
    destruct (tidy_succeeds out opts dir
                (apply_replaces out opts dir (r :: replaces) w).2 Hgo)
      as [-> ->].
    split; [reflexivity |]. now rewrite Hex, app_assoc.
Qed.

End StaleFailure.

(** ** Map keys and groups *)

Section KeysFacts.

Import gomod.

Lemma no_at_app_at (a b : string) : no_at (a ++ String "@" b) = false.
Proof. induction a as [|c a IH]; simpl; [reflexivity | now rewrite IH, andb_false_r]. Qed.

Lemma at_split_unique (a b c d : string) :
  no_at a = true -> no_at b = true ->
  a ++ String "@" c = b ++ String "@" d -> a = b /\ c = d.
Proof.
  revert b. induction a as [|x a IH]; intros [|y b]; simpl; intros Ha Hb H.
  - now injection H.
  - injection H as <- _. discriminate.
  - injection H as -> _. discriminate.
  - injection H as -> H.
    apply andb_true_iff in Ha as [_ Ha]. apply andb_true_iff in Hb as [_ Hb].
    destruct (IH b Ha Hb H) as [-> ->]. now split.
Qed.

(** Module paths hold no ['@']; on such records the map key determines
    the group. *)
Lemma no_at_keys_faithful (x : list Replace) :
  (forall r, r ∈ x -> no_at (Old r) = true) -> keys_faithful x.
Proof.
  intros Hx r s Hr Hs. unfold key_of, group_key.
  pose proof (Hx r Hr) as Har. pose proof (Hx s Hs) as Has.
  destruct (String.eqb_spec (OldVer r) "") as [Er | Er];
    destruct (String.eqb_spec (OldVer s) "") as [Es | Es]; simpl; intros H.
  - congruence.
  - rewrite H, no_at_app_at in Har. discriminate.
  - rewrite <- H, no_at_app_at in Has. discriminate.
  - destruct (at_split_unique _ _ _ _ Har Has H) as [-> ->]. reflexivity.
Qed.

End KeysFacts.

(** ** The claims on the concrete project *)

Section Concrete.

Import Example.
Local Open Scope list_scope.

(** C1, as stated, fails: on two records of different keys, two walks
    over the map return the records in different orders. *)
Lemma Deduplicate_order_varies :
  gomod.Deduplicate semver.Compare listing_order [foo_v1; baz_v1]
  ≠ gomod.Deduplicate semver.Compare reverse_order [foo_v1; baz_v1].
Proof. vm_compute. discriminate. Qed.

(** C2, as stated, fails: the groups [("a@v1.0.0", "")] and
    [("a", "v1.0.0")] share the map key [a@v1.0.0], and the output
    holds a record of the first group only. *)
Lemma shared_key_drops_a_group :
  ¬ gomod.one_lowest_per_group semver.Compare [a_at; a_constrained]
      (gomod.Deduplicate semver.Compare listing_order [a_at; a_constrained]).
Proof.
  intros H.
  destruct (H a_constrained) as (w & Hw & _).
  - apply elem_of_cons. right. constructor.
  - vm_compute in Hw. discriminate.
Qed.

(** C9, as stated, fails: the earliest lowest record of the group
    [("a", "v1.0.0")] is displaced by a record of another group that
    shares its map key. *)
Lemma shared_key_displaces_earliest :
  ¬ gomod.ties_keep_earliest semver.Compare
      [a_constrained; a_constrained_again; a_at]
      (gomod.Deduplicate semver.Compare listing_order
         [a_constrained; a_constrained_again; a_at]).
Proof.
  intros H.
  assert (Hw := H a_constrained a_constrained).
  assert (Hin : a_constrained ∈ [a_constrained; a_constrained_again; a_at])
    by constructor.
  specialize (Hw Hin eq_refl).
  vm_compute in Hw. discriminate.
Qed.

Lemma test_input_faithful : gomod.keys_faithful [foo_v2; foo_v1; baz_v1].
Proof.
  apply no_at_keys_faithful. intros r Hr.
  repeat (apply elem_of_cons in Hr as [-> | Hr]; [reflexivity |]).
  inversion Hr.
Qed.

Lemma tie_input_faithful : gomod.keys_faithful [foo_v2; foo_v1; foo_v1_again].
Proof.
  apply no_at_keys_faithful. intros r Hr.
  repeat (apply elem_of_cons in Hr as [-> | Hr]; [reflexivity |]).
  inversion Hr.
Qed.

Lemma Deduplicate_one_lowest_per_group_witness :
  gomod.keys_faithful [foo_v2; foo_v1; baz_v1] /\
  gomod.one_lowest_per_group semver.Compare [foo_v2; foo_v1; baz_v1]
    (gomod.Deduplicate semver.Compare listing_order [foo_v2; foo_v1; baz_v1]).
Proof.
  split; [exact test_input_faithful |].
  exact (proj1 (Deduplicate_one_lowest_per_group semver.Compare listing_order
                  [foo_v2; foo_v1; baz_v1] test_input_faithful)).
Defined.

Lemma Deduplicate_ties_keep_earliest_witness :
  gomod.keys_faithful [foo_v2; foo_v1; foo_v1_again] /\
  gomod.ties_keep_earliest semver.Compare [foo_v2; foo_v1; foo_v1_again]
    (gomod.Deduplicate semver.Compare reverse_order [foo_v2; foo_v1; foo_v1_again]).
Proof.
  split; [exact tie_input_faithful |].
  exact (proj1 (Deduplicate_ties_keep_earliest semver.Compare reverse_order
                  [foo_v2; foo_v1; foo_v1_again] tie_input_faithful)).
Defined.

(** The test of the repository: of [v2.0.0] and [v1.0.0] for one key,
    [v1.0.0] is kept; of two records with [v1.0.0], the earlier. *)
Lemma Deduplicate_test :
  gomod.Deduplicate semver.Compare listing_order [foo_v2; foo_v1] = [foo_v1] /\
  gomod.Deduplicate semver.Compare listing_order [foo_v2; foo_v1; foo_v1_again]
  = [foo_v1].
Proof. split; vm_compute; reflexivity. Qed.

End Concrete.

Section ConcreteRuns.

Import Example.
Local Open Scope list_scope.

Lemma dep_manifest_read :
  gomod.ParseReplaces (sync.os_ReadFile with_stale) modfile_Parse "/proj/dep/go.mod"
  = Ok [old_module].
Proof. vm_compute. reflexivity. Qed.

Lemma local_overrides_never_propagate_witness :
  gomod.ParseReplaces (sync.os_ReadFile with_stale) modfile_Parse "/proj/dep/go.mod"
  = Ok [old_module] /\
  pathutil.IsLocalPath (gomod.New old_module) = false.
Proof.
  split; [exact dep_manifest_read |].
  refine (proj1 (local_overrides_never_propagate filepath_Join modfile_Parse
                   semver.Compare)
            with_stale "/proj/dep/go.mod" [old_module] old_module
            dep_manifest_read _).
  constructor.
Defined.

Lemma project_manifest_read :
  gomod.ParseReplacesWithSource (sync.os_ReadFile with_stale) modfile_Parse TrimSpace
    (filepath_Join "/proj" "go.mod") = Ok [stale_module].
Proof. vm_compute. reflexivity. Qed.

Lemma findStaleReplaces_exact_witness :
  sync.findStaleReplaces filepath_Join modfile_Parse TrimSpace "/proj"
    [gomod.with_Source old_module "example.com/dep"] with_stale
  = (filter (fun r => gomod.Old r ∉
                      gomod.Old <$> [gomod.with_Source old_module "example.com/dep"])
            [stale_module],
     None).
Proof.
  exact (proj1 (findStaleReplaces_exact filepath_Join modfile_Parse TrimSpace "/proj"
                  [gomod.with_Source old_module "example.com/dep"] with_stale
                  [stale_module] project_manifest_read)).
Defined.

Lemma dry_run_keeps_manifest_witness :
  sync.files (Run listing_order (options true) (world with_stale)).2 !! "/proj/go.mod"
  = with_stale !! "/proj/go.mod".
Proof.
  exact (dry_run_keeps_manifest os_Getwd filepath_Join modfile_Parse semver.Compare
           listing_order go json_Decode TrimSpace write_error go_stderr
           (options true) (world with_stale)
           "/proj/go.mod" eq_refl (fun dir fs => eq_refl)).
Defined.

Lemma go_always_succeeds : sync.go_succeeds go.
Proof. intros c fs. eexists. reflexivity. Qed.

Lemma addSourceComment_idempotent_witness :
  sync.addSourceComment filepath_Join write_error "/proj" stale_module
    (world with_stale)
  = (None, world with_stale).
Proof.
  refine (proj1 (addSourceComment_idempotent filepath_Join write_error "/proj"
                   stale_module
                   (world with_stale) stale_manifest _) _).
  - vm_compute. reflexivity.
  - vm_compute. reflexivity.
Defined.

End ConcreteRuns.

(** ** Further properties of [gomod] *)

Section IndexOfFacts.

Import strings gomod.

Lemma length_drop (n : nat) (s : string) :
  String.length (drop n s) = String.length s - n.
Proof.
  revert s; induction n as [|n IH]; intros [|c s]; simpl; try reflexivity.
  apply IH.
Qed.

Lemma substring_take_drop (i n : nat) (s : string) :
  String.substring i n s = take n (drop i s).
Proof.
  revert s n; induction i as [|i IH]; intros s n; simpl.
  - revert s; induction n as [|n IHn]; intros [|c s]; simpl; try reflexivity.
    now rewrite IHn.
  - destruct s as [|c s]; [now destruct n | apply IH].
Qed.

Lemma take_app_length (p s : string) : take (String.length p) (p ++ s) = p.
Proof. induction p as [|c p IH]; simpl; [now destruct s | now rewrite IH]. Qed.

Lemma HasPrefix_take (s p : string) :
  HasPrefix s p = true <-> take (String.length p) s = p.
Proof.
  split.
  - intros H. apply HasPrefix_split in H. rewrite H at 1. apply take_app_length.
  - intros H. rewrite <- (take_drop (String.length p) s), H. apply HasPrefix_app.
Qed.

Lemma substring_eqb (i : nat) (s sub : string) :
  String.eqb (String.substring i (String.length sub) s) sub
  = HasPrefix (drop i s) sub.
Proof.
  rewrite substring_take_drop.
  destruct (HasPrefix (drop i s) sub) eqn:E.
  - apply String.eqb_eq. now apply HasPrefix_take.
  - apply String.eqb_neq. intros H. apply HasPrefix_take in H. congruence.
Qed.

Lemma HasPrefix_length (s p : string) :
  HasPrefix s p = true -> String.length p <= String.length s.
Proof.
  intros H. apply HasPrefix_split in H. rewrite H, length_app_String. lia.
Qed.

(** The loop returns the first position in its range at which [substr]
    starts, and [-1] when there is none. *)
Lemma indexOf_from_first (iterations i : nat) (s substr : string) :
  (indexOf_from iterations i s substr = (-1)%Z /\
   forall j, i <= j < i + iterations -> HasPrefix (drop j s) substr = false) \/
  (exists j, i <= j < i + iterations /\
             indexOf_from iterations i s substr = Z.of_nat j /\
             HasPrefix (drop j s) substr = true /\
             forall m, i <= m < j -> HasPrefix (drop m s) substr = false).
Proof.
  revert i. induction iterations as [|k IH]; intros i; simpl.
  - left. split; [reflexivity | intros j Hj; lia].
  - rewrite substring_eqb. destruct (HasPrefix (drop i s) substr) eqn:E.
    + right. exists i. repeat split; try lia. exact E.
    + destruct (IH (S i)) as [[H1 H2] | (j & Hj & H1 & H2 & H3)].
      * left. split; [exact H1 |]. intros j Hj.
        destruct (Nat.eq_dec j i) as [-> | Hne]; [exact E | apply H2; lia].
      * right. exists j. repeat split; try lia; try assumption.
        intros m Hm. destruct (Nat.eq_dec m i) as [-> | Hne]; [exact E | apply H3; lia].
Qed.

Lemma drop_app_at (pre s : string) :
  drop (String.length pre) (pre ++ s) = s.
Proof. apply drop_app_length. Qed.

Lemma occurrence_at (s pre substr post : string) :
  s = pre ++ substr ++ post ->
  HasPrefix (drop (String.length pre) s) substr = true /\
  String.length pre + String.length substr <= String.length s.
Proof.
  intros ->. rewrite drop_app_length. split; [apply HasPrefix_app |].
  rewrite !length_app_String. lia.
Qed.

Lemma indexOf_iterations (s substr : string) (j : nat) :
  j + String.length substr <= String.length s ->
  j < Z.to_nat (Z.of_nat (String.length s) - Z.of_nat (String.length substr) + 1).
Proof. lia. Qed.

(** X1.  [indexOf] returns [-1] exactly when [substr] occurs nowhere in
    [s]; otherwise it returns the offset of the first occurrence: [s]
    splits around [substr] at that offset and at no smaller one.  A
    [substr] longer than [s] gives [-1], the empty [substr] gives [0]. *)
Theorem indexOf_first_occurrence (s substr : string) :
  (indexOf s substr = (-1)%Z /\
   forall pre post, s ≠ pre ++ substr ++ post) \/
  (exists pre post,
      s = pre ++ substr ++ post /\
      indexOf s substr = Z.of_nat (String.length pre) /\
      forall pre' post', s = pre' ++ substr ++ post' ->
                         String.length pre <= String.length pre').
Proof.
  unfold indexOf.
  destruct (indexOf_from_first
              (Z.to_nat (Z.of_nat (String.length s)
                         - Z.of_nat (String.length substr) + 1)) 0 s substr)
    as [[H1 H2] | (j & Hj & H1 & H2 & H3)].
  - left. split; [exact H1 |]. intros pre post Hs.
    destruct (occurrence_at _ _ _ _ Hs) as [Hocc Hlen].
    rewrite H2 in Hocc; [discriminate |].
    split; [lia | apply indexOf_iterations; exact Hlen].
  - right. exists (take j s), (drop (String.length substr) (drop j s)).
    assert (Hjs : j <= String.length s).
    { pose proof (HasPrefix_length _ _ H2) as Hl. rewrite length_drop in Hl.
      destruct (Nat.le_gt_cases j (String.length s)); [assumption | lia]. }
    assert (Hlen : String.length (take j s) = j).
    { clear -Hjs. revert s Hjs; induction j as [|j IH]; intros [|c s] H;
        simpl in *; try lia. now rewrite IH by lia. }
    split; [| split].
    + rewrite <- (HasPrefix_split _ _ H2). symmetry. apply take_drop.
    + now rewrite Hlen.
    + intros pre' post' Hs. rewrite Hlen.
      destruct (occurrence_at _ _ _ _ Hs) as [Hocc _].
      destruct (Nat.le_gt_cases j (String.length pre')) as [Hle | Hgt];
        [exact Hle |].
      rewrite H3 in Hocc; [discriminate | lia].
Qed.

End IndexOfFacts.

Section AnnotateFacts.

Import strings gomod.

Variable strings_TrimSpace : string -> string.

Local Abbreviation source_step := (gomod.source_step strings_TrimSpace).
Local Abbreviation annotate := (gomod.annotate strings_TrimSpace).

Lemma drop_app_plus (pre s : string) (n : nat) :
  drop (String.length pre + n) (pre ++ s) = drop n s.
Proof. induction pre as [|c pre IH]; simpl; [reflexivity | exact IH]. Qed.

(** A comment without the marker leaves the record as it is. *)
Lemma source_step_unmarked (rep : Replace) (c : modfile.Comment) :
  (forall pre post, modfile.Token c ≠ pre ++ "from:" ++ post) ->
  source_step rep c = rep.
Proof.
  intros Hno. unfold source_step.
  destruct (0 <? String.length (modfile.Token c))%nat; [| reflexivity].
  destruct (indexOf_first_occurrence (modfile.Token c) "from:")
    as [[-> _] | (pre & post & Hs & _)]; [reflexivity |].
  now contradiction (Hno pre post).
Qed.

(** A comment with the marker sets [Source] to what [strings.TrimSpace]
    returns on the text that follows its first occurrence. *)
Lemma source_step_marked (rep : Replace) (c : modfile.Comment) (pre post : string) :
  modfile.Token c = pre ++ "from:" ++ post ->
  (forall pre' post', modfile.Token c = pre' ++ "from:" ++ post' ->
                      String.length pre <= String.length pre') ->
  source_step rep c = with_Source rep (strings_TrimSpace post).
Proof.
  intros Hs Hfirst. unfold source_step.
  assert (Hlen : (0 <? String.length (modfile.Token c))%nat = true).
  { apply Nat.ltb_lt. rewrite Hs, !length_app_String. simpl. lia. }
  rewrite Hlen.
  destruct (indexOf_first_occurrence (modfile.Token c) "from:")
    as [[_ Hno] | (pre0 & post0 & Hs0 & Hidx & Hmin)].
  { now contradiction (Hno pre post). }
  assert (Hpre : String.length pre0 = String.length pre).
  { apply Nat.le_antisymm; [now apply (Hmin pre post) | now apply (Hfirst pre0 post0)]. }
  rewrite Hidx, Hpre.
  replace (0 <=? Z.of_nat (String.length pre))%Z with true
    by (symmetry; apply Z.leb_le; lia).
  replace (Z.to_nat (Z.of_nat (String.length pre) + 5)) with (String.length pre + 5)
    by lia.
  rewrite Hs. rewrite drop_app_plus. reflexivity.
Qed.

Lemma source_step_fields (rep : Replace) (c : modfile.Comment) :
  Old (source_step rep c) = Old rep /\ OldVer (source_step rep c) = OldVer rep /\
  New (source_step rep c) = New rep /\ NewVer (source_step rep c) = NewVer rep.
Proof.
  unfold source_step.
  destruct (0 <? _)%nat; [| repeat split].
  destruct (0 <=? _)%Z; repeat split.
Qed.

Lemma fold_source_step_fields (cs : list modfile.Comment) (rep : Replace) :
  Old (fold_left source_step cs rep) = Old rep /\
  OldVer (fold_left source_step cs rep) = OldVer rep /\
  New (fold_left source_step cs rep) = New rep /\
  NewVer (fold_left source_step cs rep) = NewVer rep.
Proof.
  revert rep. induction cs as [|c cs IH]; intros rep; simpl; [repeat split |].
  destruct (IH (source_step rep c)) as (-> & -> & -> & ->).
  apply source_step_fields.
Qed.

Lemma fold_source_step_unmarked (cs : list modfile.Comment) (rep : Replace) :
  (forall c, c ∈ cs -> forall pre post, modfile.Token c ≠ pre ++ "from:" ++ post) ->
  fold_left source_step cs rep = rep.
Proof.
  revert rep. induction cs as [|c cs IH]; intros rep Hcs; simpl; [reflexivity |].
  rewrite source_step_unmarked by (apply Hcs; constructor).
  apply IH. intros c' Hc'. apply Hcs. now constructor.
Qed.

(** X2.  The record that [ParseReplacesWithSource] builds from a
    directive takes its paths and versions from the directive; its
    [Source] is what [strings.TrimSpace] returns on the text that follows
    the first [from:] of the last suffix comment that holds one, and is
    empty when no suffix comment holds [from:] (or the directive has no
    syntax line).  [strings.TrimSpace] is the function of Go's library,
    whatever it returns. *)
Theorem annotate_provenance (r : modfile.Replace) :
  (Old (annotate r) = modfile.Path (modfile.Old r) /\
   OldVer (annotate r) = modfile.Vers (modfile.Old r) /\
   New (annotate r) = modfile.Path (modfile.New r) /\
   NewVer (annotate r) = modfile.Vers (modfile.New r)) /\
  (forall line before c after pre post,
      modfile.Syntax r = Some line ->
      modfile.Suffix line = (before ++ c :: after)%list ->
      modfile.Token c = pre ++ "from:" ++ post ->
      (forall pre' post', modfile.Token c = pre' ++ "from:" ++ post' ->
                          String.length pre <= String.length pre') ->
      (forall c', c' ∈ after ->
                  forall pre' post', modfile.Token c' ≠ pre' ++ "from:" ++ post') ->
      Source (annotate r) = strings_TrimSpace post) /\
  ((forall line c, modfile.Syntax r = Some line -> c ∈ modfile.Suffix line ->
                   forall pre post, modfile.Token c ≠ pre ++ "from:" ++ post) ->
   Source (annotate r) = "").
Proof.
  split; [| split].
  - unfold annotate. destruct (modfile.Syntax r) as [line|]; [| repeat split].
    apply fold_source_step_fields.
  - intros line before c after pre post Hline Hsuffix Htoken Hfirst Hafter.
    unfold annotate. rewrite Hline, Hsuffix, fold_left_app. simpl.
    rewrite (source_step_marked _ c pre post Htoken Hfirst).
    now rewrite (fold_source_step_unmarked after _ Hafter).
  - intros Hno. unfold annotate.
    destruct (modfile.Syntax r) as [line|] eqn:Hline; [| reflexivity].
    rewrite fold_source_step_unmarked; [reflexivity |].
    intros c Hc. now apply (Hno line c).
Qed.

(** X3.  Round trip of the annotation: the comment that
    [addSourceComment] appends for a record, read back as the suffix
    comment of a directive, yields what [strings.TrimSpace] returns on a
    space followed by the record's [Source], whatever else the [Source]
    holds (a further [from:] included). *)
Theorem provenance_comment_round_trip
        (old new : modfile.Version) (r : Replace) :
  Source (annotate
            {| modfile.Old := old; modfile.New := new;
               modfile.Syntax :=
                 Some {| modfile.Suffix :=
                           [{| modfile.Token := drop 1 (sync.comment_of r) |}] |} |})
  = strings_TrimSpace (String " " (Source r)).
Proof.
  unfold gomod.annotate. cbn [modfile.Syntax modfile.Suffix fold_left].
  rewrite (source_step_marked _ _ "// " (String " " (Source r))).
  - reflexivity.
  - reflexivity.
  - intros pre' post' H. simpl in H.
    destruct pre' as [|a [|b [|c pre']]]; simpl in *; try discriminate; lia.
Qed.

End AnnotateFacts.

Section ReadersFacts.

Import gomod.
Local Open Scope list_scope.

Variable os_ReadFile : string -> result string.
Variable modfile_Parse : string -> string -> result modfile.File.
Variable strings_TrimSpace : string -> string.

(** X4.  [ParseReplaces] fails with the error of the read or of the
    parse, whichever comes first; otherwise it returns the directives
    whose [New] path is not local, in the order of the manifest, each with
    an empty [Source], and never more records than there are
    directives. *)
Theorem ParseReplaces_exact (path : string) :
  match os_ReadFile path with
  | Err err => ParseReplaces os_ReadFile modfile_Parse path = Err err
  | Ok data =>
      match modfile_Parse path data with
      | Err err => ParseReplaces os_ReadFile modfile_Parse path = Err err
      | Ok f =>
          exists rs,
            ParseReplaces os_ReadFile modfile_Parse path = Ok rs /\
            rs = filter (fun r => pathutil.IsLocalPath (New r) = false)
                        (of_directive <$> modfile.Replaces f) /\
            (forall r, r ∈ rs -> Source r = "") /\
            length rs <= length (modfile.Replaces f)
      end
  end.
Proof.
  unfold ParseReplaces.
  destruct (os_ReadFile path) as [data | err]; [| reflexivity].
  destruct (modfile_Parse path data) as [f | err]; [| reflexivity].
  eexists. split; [reflexivity |].
  rewrite (fold_left_keep (fun r => negb (IsLocal r)) of_directive).
  simpl.
  assert (Hf : filter (fun a => negb (IsLocal a) = true)
                      (of_directive <$> modfile.Replaces f)
               = filter (fun r => pathutil.IsLocalPath (New r) = false)
                        (of_directive <$> modfile.Replaces f)).
  { apply list_filter_iff. intros r. unfold IsLocal. apply negb_true_iff. }
  rewrite Hf. split; [reflexivity |]. split.
  - intros r Hr. apply list_elem_of_filter in Hr as [_ Hr].
    apply list_elem_of_fmap in Hr as (d & -> & _). reflexivity.
  - etransitivity; [apply length_filter |]. now rewrite length_fmap.
Qed.

(** X5.  On one manifest the two readers fail together and with the same
    error; when [ParseReplacesWithSource] succeeds it returns, in manifest
    order, the annotated records whose [Source] is not empty, local
    targets included. *)
Theorem ParseReplacesWithSource_exact (path : string) :
  (forall err, ParseReplacesWithSource os_ReadFile modfile_Parse strings_TrimSpace path = Err err <->
               ParseReplaces os_ReadFile modfile_Parse path = Err err) /\
  (forall rs, ParseReplacesWithSource os_ReadFile modfile_Parse strings_TrimSpace path = Ok rs ->
     exists data f,
       os_ReadFile path = Ok data /\ modfile_Parse path data = Ok f /\
       rs = filter (fun r => Source r ≠ "")
                   (annotate strings_TrimSpace <$> modfile.Replaces f)).
Proof.
  split.
  - intros err. unfold ParseReplacesWithSource, ParseReplaces.
    destruct (os_ReadFile path) as [data | e]; [| reflexivity].
    destruct (modfile_Parse path data) as [f | e]; [| reflexivity].
    split; discriminate.
  - intros rs H.
    destruct (ParseReplacesWithSource_run _ _ _ _ _ H) as (data & f & Hr & Hp & ->).
    exists data, f. split; [exact Hr |]. split; [exact Hp |].
    apply list_filter_iff. intros r.
    rewrite negb_true_iff. apply String.eqb_neq.
Qed.

End ReadersFacts.

Section PathCharacter.

Import pathutil.

Lemma HasPrefix_iff (s p : string) :
  strings.HasPrefix s p = true <-> exists rest, s = p ++ rest.
Proof.
  split.
  - intros H. eexists. now apply HasPrefix_split.
  - intros [rest ->]. apply HasPrefix_app.
Qed.

(** X6.  What [IsLocalPath] accepts, exactly: the strings [.] and [..],
    those that begin with [./], [../] or [/], and those whose second byte
    is a colon; everything else, the empty string included, is not
    local. *)
Theorem IsLocalPath_iff (t : string) :
  IsLocalPath t = true <->
  t = "." \/ t = ".." \/
  (exists rest, t = "./" ++ rest) \/ (exists rest, t = "../" ++ rest) \/
  (exists rest, t = "/" ++ rest) \/
  (exists c rest, t = String c (String ":" rest)).
Proof.
  rewrite IsLocalPath_unfold, !orb_true_iff, !String.eqb_eq, !HasPrefix_iff.
  assert (Hcolon :
            match t with
            | String _ (String d _) => Ascii.eqb d ":"
            | _ => false
            end = true <-> exists c rest, t = String c (String ":" rest)).
  { destruct t as [|c [|d rest]].
    - split; [discriminate | intros (? & ? & [=])].
    - split; [discriminate | intros (? & ? & [=])].
    - rewrite Ascii.eqb_eq. split.
      + intros ->. eauto.
      + intros (? & ? & [= _ -> _]). reflexivity. }
  rewrite Hcolon. tauto.
Qed.

End PathCharacter.

Section DedupKeys.

Import gomod.
Local Open Scope list_scope.
Variable cmp : string -> string -> Z.

(** The map has an entry for a key exactly when some input record has
    that key. *)
Lemma byKey_of_is_Some (x : list Replace) (k : string) :
  is_Some (byKey_of cmp x !! k) <-> k ∈ key_of <$> x.
Proof.
  induction x as [|a x IH] using rev_ind.
  - unfold byKey_of. simpl. rewrite lookup_empty. split.
    + intros [? [=]].
    + intros H. inversion H.
  - rewrite byKey_of_snoc, fmap_app, elem_of_app. simpl.
    rewrite list_elem_of_singleton.
    destruct (decide (key_of a = k)) as [<- | Hk].
    + split; [now right | intros _].
      unfold dedup_step.
      destruct (byKey_of cmp x !! key_of a) as [e|] eqn:E.
      * destruct (cmp (NewVer a) (NewVer e) <? 0)%Z;
          [rewrite lookup_insert_eq | rewrite E]; eauto.
      * rewrite lookup_insert_eq. eauto.
    + rewrite dedup_step_other by exact Hk. rewrite IH.
      split; [now left | intros [H | H]; [exact H | congruence]].
Qed.

Lemma Deduplicate_keys_entries (o : MapOrder) (x : list Replace) :
  key_of <$> Deduplicate cmp o x ≡ₚ key_of <$> entries (byKey_of cmp x).
Proof. now rewrite Deduplicate_entries. Qed.

(** X7.  For every comparison function and every iteration order, the
    output of [Deduplicate] holds one record per map key and no key
    twice, its keys are those of the input, its records are input
    records, it is no longer than the input, and it is empty only for the
    empty input. *)
Theorem Deduplicate_one_per_key (o : MapOrder) (x : list Replace) :
  NoDup (key_of <$> Deduplicate cmp o x) /\
  (forall k, k ∈ key_of <$> Deduplicate cmp o x <-> k ∈ key_of <$> x) /\
  (forall r, r ∈ Deduplicate cmp o x -> r ∈ x) /\
  length (Deduplicate cmp o x) <= length x /\
  (Deduplicate cmp o x = [] <-> x = []).
Proof.
  assert (Hnd : NoDup (key_of <$> Deduplicate cmp o x)).
  { rewrite Deduplicate_keys_entries. apply entries_keys_NoDup. }
  assert (Hkeys : forall k, k ∈ key_of <$> Deduplicate cmp o x <-> k ∈ key_of <$> x).
  { intros k. rewrite <- (byKey_of_is_Some x k), list_elem_of_fmap. split.
    - intros (r & -> & Hr). apply elem_of_Deduplicate in Hr. eauto.
    - intros [r Hr]. exists r.
      destruct (byKey_of_entry _ _ _ _ Hr) as [Hk _].
      split; [now symmetry |]. apply elem_of_Deduplicate. now rewrite Hk. }
  split; [exact Hnd |]. split; [exact Hkeys |].
  split; [apply Deduplicate_subset |]. split.
  - rewrite <- (length_fmap key_of), <- (length_fmap key_of x).
    apply submseteq_length, NoDup_submseteq; [exact Hnd |].
    intros k. apply Hkeys.
  - split.
    + intros H. destruct x as [|a x]; [reflexivity | exfalso].
      assert (Hin : key_of a ∈ key_of <$> Deduplicate cmp o (a :: x)).
      { apply Hkeys. rewrite fmap_cons. constructor. }
      rewrite H in Hin. inversion Hin.
    + intros ->. rewrite Deduplicate_range.
      apply Permutation_nil_r. apply range_order_perm.
Qed.

(** X8.  Without conflicts nothing is dropped: on records of pairwise
    different map keys the output of [Deduplicate] is a permutation of
    the input. *)
Theorem Deduplicate_keeps_distinct_keys (o : MapOrder) (x : list Replace) :
  NoDup (key_of <$> x) -> Deduplicate cmp o x ≡ₚ x.
Proof.
  intros Hnd. rewrite Deduplicate_entries, (byKey_of_distinct cmp x Hnd).
  unfold entries.
  rewrite map_to_list_to_map.
  - rewrite <- list_fmap_compose. simpl. now rewrite list_fmap_id.
  - now rewrite <- list_fmap_compose.
Qed.

Context `{!ThreeWayOrder cmp}.

(** X9.  With [semver.Compare] a three-way comparison, and for every
    input: the output holds exactly one record with the map key of a
    given input record, and it is the earliest input record of that key
    whose [NewVer] compares lowest among the records of that key. *)
Theorem Deduplicate_earliest_lowest_per_key
        (o : MapOrder) (x : list Replace) (r : Replace) :
  r ∈ x ->
  exists w,
    filter (fun s => key_of s = key_of r) (Deduplicate cmp o x) = [w] /\
    first_lowest cmp (filter (fun s => key_of s = key_of r) x) = Some w.
Proof.
  intros Hr.
  pose proof (byKey_of_first_lowest cmp x (key_of r)) as Hm.
  destruct (first_lowest cmp (filter (fun s => key_of s = key_of r) x))
    as [w|] eqn:E.
  - exists w. split; [| reflexivity].
    apply Permutation_singleton_r.
    rewrite (Deduplicate_entries cmp o x).
    apply NoDup_Permutation.
    + apply NoDup_filter, entries_NoDup.
    + apply NoDup_singleton.
    + intros s. rewrite list_elem_of_filter, elem_of_entries, list_elem_of_singleton.
      split.
      * intros [Hk [k Hs]]. destruct (byKey_of_entry _ _ _ _ Hs) as [<- _].
        rewrite Hk, Hm in Hs. congruence.
      * intros ->. destruct (byKey_of_entry _ _ _ _ Hm) as [Hk _].
        split; [exact Hk | eauto].
  - apply (first_lowest_None cmp) in E.
    assert (Hin : r ∈ filter (fun s => key_of s = key_of r) x)
      by (apply list_elem_of_filter; split; [reflexivity | exact Hr]).
    rewrite E in Hin. inversion Hin.
Qed.

End DedupKeys.

(** ** Further properties of [sync] *)

Section ListingFacts.

Import sync.
Local Open Scope list_scope.

Variable filepath_Join : string -> string -> string.
Variable modfile_Parse : string -> string -> result modfile.File.
Variable go : Command -> gmap string string -> gmap string string * result string.
Variable json_Decode : string -> list (result moduleInfo).
Variable strings_TrimSpace : string -> string.
Variable write_error : string -> string -> gmap string string -> option error.
Variable go_stderr : Command -> gmap string string -> list string.

Local Abbreviation direct := (fun m : moduleInfo => Main m = false /\ Indirect m = false).

Lemma decode_deps_all_ok (ms deps : list moduleInfo) :
  decode_deps (Ok <$> ms) deps = Ok (deps ++ filter direct ms).
Proof.
  revert deps. induction ms as [|m ms IH]; intros deps; simpl.
  - now rewrite app_nil_r.
  - destruct (Main m) eqn:Em, (Indirect m) eqn:Ei; simpl; rewrite IH.
    + rewrite filter_cons_False; [reflexivity | intros [? ?]; congruence].
    + rewrite filter_cons_False; [reflexivity | intros [? ?]; congruence].
    + rewrite filter_cons_False; [reflexivity | intros [? ?]; congruence].
    + rewrite filter_cons_True by now split. now rewrite <- app_assoc.
Qed.

Lemma decode_deps_first_error (ms deps : list moduleInfo) (err : error)
      (rest : list (result moduleInfo)) :
  decode_deps ((Ok <$> ms) ++ Err err :: rest) deps = Err err.
Proof.
  revert deps. induction ms as [|m ms IH]; intros deps; simpl; [reflexivity |].
  destruct (negb (Main m) && negb (Indirect m)); apply IH.
Qed.

Lemma outcomes_split (outcomes : list (result moduleInfo)) :
  (exists ms, outcomes = Ok <$> ms) \/
  (exists ms err rest, outcomes = (Ok <$> ms) ++ Err err :: rest).
Proof.
  induction outcomes as [|[m | err] outcomes IH].
  - left. now exists [].
  - destruct IH as [[ms ->] | (ms & e & rest & ->)].
    + left. now exists (m :: ms).
    + right. now exists (m :: ms), e, rest.
  - right. now exists [], err, outcomes.
Qed.

(** X10.  [listDirectDeps] starts exactly one process, [go list -m -json
    all] in the given directory, and writes nothing.  It fails when the
    process fails, and when any entry of the output fails to decode, with
    the first such error and whatever was decoded before; otherwise it
    returns the entries that are neither main nor indirect, in the order
    of the listing. *)
Theorem listDirectDeps_keeps_direct (dir : string) (w : World) :
  executed (listDirectDeps go json_Decode dir w).2 = executed w ++ [go_list dir] /\
  written (listDirectDeps go json_Decode dir w).2 = written w /\
  match (go (go_list dir) (files w)).2 with
  | Err err => (listDirectDeps go json_Decode dir w).1 = Err err
  | Ok out =>
      (forall ms, json_Decode out = Ok <$> ms ->
                  (listDirectDeps go json_Decode dir w).1 = Ok (filter direct ms)) /\
      (forall ms err rest, json_Decode out = (Ok <$> ms) ++ Err err :: rest ->
                           (listDirectDeps go json_Decode dir w).1 = Err err) /\
      ((exists ms, json_Decode out = Ok <$> ms) \/
       (exists ms err rest, json_Decode out = (Ok <$> ms) ++ Err err :: rest))
  end.
Proof.
  rewrite listDirectDeps_run. cbn [fst snd executed written].
  split; [reflexivity |]. split; [reflexivity |].
  destruct (go (go_list dir) (files w)).2 as [out | err]; [| reflexivity].
  split; [| split].
  - intros ms ->. apply decode_deps_all_ok.
  - intros ms err rest ->. apply decode_deps_first_error.
  - apply outcomes_split.
Qed.

Local Abbreviation collect := (sync.collect filepath_Join modfile_Parse).
Local Abbreviation replaces_of_dep := (sync.replaces_of_dep filepath_Join modfile_Parse).

Lemma collect_cons out opts dep (deps : list moduleInfo) (acc : list gomod.Replace) :
  collect out opts (dep :: deps) acc =
    bind (verbose out (Verbose opts)
            ("Processing " ++ Path dep ++ "@" ++ Version dep)%string)
      (fun _ =>
         if String.eqb (ModDir dep) "" then
           bind (verbose out (Verbose opts) "  skipping: no local dir")
                (fun _ => collect out opts deps acc)
         else
           fun w =>
             match gomod.ParseReplaces (os_ReadFile (files w)) modfile_Parse
                     (filepath_Join (ModDir dep) "go.mod") with
             | Err err =>
                 bind (verbose out (Verbose opts) ("  skipping: " ++ err)%string)
                      (fun _ => collect out opts deps acc) w
             | Ok replaces =>
                 collect out opts deps
                   (acc ++ map (fun r => gomod.with_Source r (Path dep)) replaces) w
             end).
Proof. reflexivity. Qed.

Lemma collect_exact out opts (deps : list moduleInfo) (acc : list gomod.Replace) w :
  (collect out opts deps acc w).1
  = acc ++ concat (replaces_of_dep (files w) <$> deps).
Proof.
  revert acc w. induction deps as [|dep deps IH]; intros acc w.
  - simpl. now rewrite app_nil_r.
  - rewrite collect_cons, fmap_cons. cbn [concat].
    rewrite bind_run. unfold sync.replaces_of_dep at 1.
    assert (Hf : files (verbose out (Verbose opts)
                          ("Processing " ++ Path dep ++ "@" ++ Version dep)%string w).2
                 = files w) by apply (quiet_files _ _ (quiet_verbose _ _ _)).
    destruct (String.eqb (ModDir dep) "").
    + rewrite bind_run, IH.
      now rewrite (quiet_files _ _ (quiet_verbose _ _ _)), Hf.
    + rewrite Hf.
      destruct (gomod.ParseReplaces _ _ _) as [rs | err].
      * rewrite IH, Hf. now rewrite <- app_assoc.
      * rewrite bind_run, IH.
        now rewrite (quiet_files _ _ (quiet_verbose _ _ _)), Hf.
Qed.

(** X11.  The collecting loop of [Run] returns, dependency after
    dependency, the non-local replaces of each manifest that reads and
    parses, and nothing for a dependency without a directory or with a
    manifest that fails; it changes no file and starts no process; every
    record it returns carries as [Source] the path of a listed dependency
    that has a directory, and has a non-local [New]. *)
Theorem collect_stamps_provenance out opts (deps : list moduleInfo) (w : World) :
  (collect out opts deps [] w).1 = concat (replaces_of_dep (files w) <$> deps) /\
  (collect out opts deps [] w).2.(files) = files w /\
  (collect out opts deps [] w).2.(executed) = executed w /\
  forall r, r ∈ (collect out opts deps [] w).1 ->
    exists dep, dep ∈ deps /\ ModDir dep ≠ "" /\
                gomod.Source r = Path dep /\
                pathutil.IsLocalPath (gomod.New r) = false.
Proof.
  assert (H := collect_exact out opts deps [] w). simpl in H.
  split; [exact H |].
  split; [apply (quiet_files _ _ (quiet_collect _ _ _ _ _ _)) |].
  split; [apply (quiet_executed _ _ (quiet_collect _ _ _ _ _ _)) |].
  intros r. rewrite H. intros Hr.
  apply list_elem_of_In, in_concat in Hr as (l & Hl & Hr).
  apply list_elem_of_In in Hl, Hr.
  apply list_elem_of_fmap in Hl as (dep & -> & Hdep).
  exists dep. split; [exact Hdep |].
  unfold sync.replaces_of_dep in Hr.
  destruct (String.eqb_spec (ModDir dep) "") as [E | E]; [inversion Hr |].
  split; [exact E |].
  destruct (gomod.ParseReplaces _ _ _) as [rs | err] eqn:Eparse; [| inversion Hr].
  apply list_elem_of_fmap in Hr as (r0 & -> & Hr0). split; [reflexivity |].
  simpl. exact (ParseReplaces_not_local _ _ _ _ _ Eparse Hr0).
Qed.

End ListingFacts.

Section PhaseFacts.

Import sync.
Local Open Scope list_scope.

Variable filepath_Join : string -> string -> string.
Variable go : Command -> gmap string string -> gmap string string * result string.
Variable write_error : string -> string -> gmap string string -> option error.
Variable go_stderr : Command -> gmap string string -> list string.

Local Abbreviation apply_replaces :=
  (sync.apply_replaces filepath_Join go write_error go_stderr).
Local Abbreviation remove_stale := (sync.remove_stale go go_stderr).
Local Abbreviation tidy := (sync.tidy go go_stderr).
Local Abbreviation finish := (sync.finish filepath_Join go write_error go_stderr).
Local Abbreviation addSourceComment := (sync.addSourceComment filepath_Join write_error).

(** The world that [runCmd] leaves once the command [c] has run. *)
Local Abbreviation started c w :=
  ({| files := (go c (files w)).1;
      written := written w ++ ((fun text => (Stderr, text)) <$> go_stderr c (files w));
      executed := executed w ++ [c] |}).

(** A command that succeeds, or fails, whatever the files are. *)
Local Abbreviation succeeds c := (forall fs, exists o, (go c fs).2 = Ok o).
Local Abbreviation fails c := (forall fs, exists err, (go c fs).2 = Err err).

Lemma quiet_warning out opts (e : option error) :
  quiet (match e with
         | Some err => verbose out (Verbose opts)
                         ("warning: could not add source comment: " ++ err)%string
         | None => ret tt
         end).
Proof. destruct e; [apply quiet_verbose | apply quiet_ret]. Qed.

(** *** The apply phase *)

Lemma apply_replaces_failed out opts dir r rest w err :
  (go (go_mod_edit_replace dir r) (files w)).2 = Err err ->
  apply_replaces out opts dir (r :: rest) w
  = (Some ("applying replace " ++ gomod.Old r ++ ": " ++ err)%string,
     started (go_mod_edit_replace dir r) w).
Proof.
  intros Hgo. cbn [sync.apply_replaces]. rewrite bind_run, runCmd_run. cbn [fst snd].
  fold (go_mod_edit_replace dir r). now rewrite Hgo.
Qed.

Lemma apply_replaces_passed out opts dir r rest w o :
  (go (go_mod_edit_replace dir r) (files w)).2 = Ok o ->
  exists w',
    apply_replaces out opts dir (r :: rest) w = apply_replaces out opts dir rest w' /\
    executed w' = executed w ++ [go_mod_edit_replace dir r] /\
    files w' = files (addSourceComment dir r (started (go_mod_edit_replace dir r) w)).2.
Proof.
  intros Hgo. cbn [sync.apply_replaces]. rewrite bind_run, runCmd_run. cbn [fst snd].
  fold (go_mod_edit_replace dir r). rewrite Hgo, !bind_run.
  eexists. split; [reflexivity |]. split.
  - rewrite (quiet_executed _ _ (quiet_log _ _)),
      (quiet_executed _ _ (quiet_warning _ _ _)), addSourceComment_executed.
    reflexivity.
  - rewrite (quiet_files _ _ (quiet_log _ _)),
      (quiet_files _ _ (quiet_warning _ _ _)).
    reflexivity.
Qed.

Lemma apply_replaces_trace out opts dir
        (replaces : list gomod.Replace) (w : World) :
  exists n,
    n <= length replaces /\
    executed (apply_replaces out opts dir replaces w).2
    = executed w ++ (go_mod_edit_replace dir <$> take n replaces) /\
    match (apply_replaces out opts dir replaces w).1 with
    | None => n = length replaces
    | Some e =>
        exists r err,
          replaces !! (n - 1) = Some r /\ 0 < n /\
          e = ("applying replace " ++ gomod.Old r ++ ": " ++ err)%string
    end.
Proof.
  revert w. induction replaces as [|r replaces IH]; intros w.
  - exists 0. simpl. now rewrite app_nil_r.
  - destruct (go (go_mod_edit_replace dir r) (files w)).2 as [o | err] eqn:Ego.
    + destruct (apply_replaces_passed out opts dir r replaces w o Ego)
        as (w' & -> & Hw' & _).
      destruct (IH w') as (n & Hn & Hex & Hres).
      exists (S n). split; [simpl; lia |]. split.
      * rewrite Hex, Hw', <- app_assoc. reflexivity.
      * destruct (apply_replaces _ _ _ _ _).1 as [e|]; [| simpl; lia].
        destruct Hres as (r' & err & Hr' & Hpos & ->).
        exists r', err. split; [| split; [lia | reflexivity]].
        replace (S n - 1) with (S (n - 1)) by lia. exact Hr'.
    + rewrite (apply_replaces_failed out opts dir r replaces w err Ego).
      exists 1. split; [simpl; lia |]. split; [reflexivity |].
      exists r, err. repeat split. lia.
Qed.

Lemma apply_replaces_all_pass out opts dir (replaces : list gomod.Replace) (w : World) :
  (forall a, a ∈ replaces -> succeeds (go_mod_edit_replace dir a)) ->
  (apply_replaces out opts dir replaces w).1 = None /\
  executed (apply_replaces out opts dir replaces w).2
  = executed w ++ (go_mod_edit_replace dir <$> replaces).
Proof.
  revert w. induction replaces as [|r replaces IH]; intros w Hall.
  - simpl. now rewrite app_nil_r.
  - destruct (Hall r (list_elem_of_here _ _) (files w)) as [o Ego].
    destruct (apply_replaces_passed out opts dir r replaces w o Ego)
      as (w' & -> & Hw' & _).
    destruct (IH w') as [-> ->].
    { intros a Ha. apply Hall. now constructor. }
    split; [reflexivity |]. rewrite Hw', fmap_cons, <- app_assoc. reflexivity.
Qed.

Lemma apply_replaces_first_failure out opts dir
      (before after : list gomod.Replace) (r : gomod.Replace) (err : error) (w : World) :
  (forall a, a ∈ before -> succeeds (go_mod_edit_replace dir a)) ->
  (forall fs, (go (go_mod_edit_replace dir r) fs).2 = Err err) ->
  (apply_replaces out opts dir (before ++ r :: after) w).1
  = Some ("applying replace " ++ gomod.Old r ++ ": " ++ err)%string /\
  executed (apply_replaces out opts dir (before ++ r :: after) w).2
  = executed w ++ (go_mod_edit_replace dir <$> before ++ [r]).
Proof.
  revert w. induction before as [|b before IH]; intros w Hbefore Hr.
  - cbn [app]. rewrite (apply_replaces_failed out opts dir r after w err (Hr _)).
    split; reflexivity.
  - cbn [app]. destruct (Hbefore b (list_elem_of_here _ _) (files w)) as [o Ego].
    destruct (apply_replaces_passed out opts dir b (before ++ r :: after) w o Ego)
      as (w' & -> & Hw' & _).
    destruct (IH w') as [-> ->]; [| exact Hr |].
    { intros a Ha. apply Hbefore. now constructor. }
    split; [reflexivity |]. rewrite Hw', fmap_cons, <- app_assoc. reflexivity.
Qed.

Lemma apply_replaces_passed_all out opts dir (replaces : list gomod.Replace) (w : World) :
  (apply_replaces out opts dir replaces w).1 = None ->
  forall r, r ∈ replaces -> exists fs o, (go (go_mod_edit_replace dir r) fs).2 = Ok o.
Proof.
  revert w. induction replaces as [|a replaces IH]; intros w Hres r Hr.
  - inversion Hr.
  - destruct (go (go_mod_edit_replace dir a) (files w)).2 as [o | err] eqn:Ego.
    + destruct (apply_replaces_passed out opts dir a replaces w o Ego)
        as (w' & Heq & _).
      rewrite Heq in Hres.
      apply elem_of_cons in Hr as [-> | Hr]; [now exists (files w), o |].
      exact (IH w' Hres r Hr).
    + rewrite (apply_replaces_failed out opts dir a replaces w err Ego) in Hres.
      discriminate.
Qed.

(** X12.  The apply phase starts one [go mod edit -replace] per reconciled
    record, in order, and stops at the first one that fails.  When the edit
    of the first record fails the phase returns that error, prefixed with
    [applying replace <Old>: ], having started that edit and nothing else;
    when it succeeds the phase goes on with the remaining records, on the
    files that the edit and the annotation leave.  So the processes started
    are the edits of a prefix of the list; if every edit succeeds the phase
    succeeds having started them all; if the edit of one record fails and
    those before it succeed, the phase fails with the error of that record
    and no edit of a later record is started; and the phase succeeds only
    if the edit of every record succeeded. *)
Theorem apply_replaces_stops_at_failure out opts dir
        (replaces : list gomod.Replace) (w : World) :
  (forall r rest err,
      replaces = r :: rest ->
      (go (go_mod_edit_replace dir r) (files w)).2 = Err err ->
      apply_replaces out opts dir replaces w
      = (Some ("applying replace " ++ gomod.Old r ++ ": " ++ err)%string,
         started (go_mod_edit_replace dir r) w)) /\
  (forall r rest o,
      replaces = r :: rest ->
      (go (go_mod_edit_replace dir r) (files w)).2 = Ok o ->
      exists w',
        apply_replaces out opts dir replaces w = apply_replaces out opts dir rest w' /\
        executed w' = executed w ++ [go_mod_edit_replace dir r] /\
        files w'
        = files (addSourceComment dir r (started (go_mod_edit_replace dir r) w)).2) /\
  (exists n,
      n <= length replaces /\
      executed (apply_replaces out opts dir replaces w).2
      = executed w ++ (go_mod_edit_replace dir <$> take n replaces) /\
      match (apply_replaces out opts dir replaces w).1 with
      | None => n = length replaces
      | Some e =>
          exists r err,
            replaces !! (n - 1) = Some r /\ 0 < n /\
            e = ("applying replace " ++ gomod.Old r ++ ": " ++ err)%string
      end) /\
  ((forall a, a ∈ replaces -> succeeds (go_mod_edit_replace dir a)) ->
   (apply_replaces out opts dir replaces w).1 = None /\
   executed (apply_replaces out opts dir replaces w).2
   = executed w ++ (go_mod_edit_replace dir <$> replaces)) /\
  (forall before r after err,
      replaces = before ++ r :: after ->
      (forall a, a ∈ before -> succeeds (go_mod_edit_replace dir a)) ->
      (forall fs, (go (go_mod_edit_replace dir r) fs).2 = Err err) ->
      (apply_replaces out opts dir replaces w).1
      = Some ("applying replace " ++ gomod.Old r ++ ": " ++ err)%string /\
      executed (apply_replaces out opts dir replaces w).2
      = executed w ++ (go_mod_edit_replace dir <$> before ++ [r])) /\
  ((apply_replaces out opts dir replaces w).1 = None ->
   forall r, r ∈ replaces ->
             exists fs o, (go (go_mod_edit_replace dir r) fs).2 = Ok o).
Proof.
  split; [| split; [| split; [| split; [| split]]]].
  - intros r rest err ->. apply apply_replaces_failed.
  - intros r rest o ->. apply apply_replaces_passed.
  - apply apply_replaces_trace.
  - apply apply_replaces_all_pass.
  - intros before r after err ->. apply apply_replaces_first_failure.
  - apply apply_replaces_passed_all.
Qed.

(** *** The removal phase *)

Lemma remove_stale_failed out dir r rest w err :
  (go (go_mod_edit_dropreplace dir r) (files w)).2 = Err err ->
  remove_stale out dir (r :: rest) w
  = (Some ("removing stale replace " ++ gomod.Old r ++ ": " ++ err)%string,
     started (go_mod_edit_dropreplace dir r) w).
Proof.
  intros Hgo. cbn [sync.remove_stale]. rewrite bind_run, runCmd_run. cbn [fst snd].
  fold (go_mod_edit_dropreplace dir r). now rewrite Hgo.
Qed.

Lemma remove_stale_passed out dir r rest w o :
  (go (go_mod_edit_dropreplace dir r) (files w)).2 = Ok o ->
  exists w',
    remove_stale out dir (r :: rest) w = remove_stale out dir rest w' /\
    executed w' = executed w ++ [go_mod_edit_dropreplace dir r] /\
    files w' = (go (go_mod_edit_dropreplace dir r) (files w)).1.
Proof.
  intros Hgo. cbn [sync.remove_stale]. rewrite bind_run, runCmd_run. cbn [fst snd].
  fold (go_mod_edit_dropreplace dir r). rewrite Hgo, !bind_run.
  eexists. split; [reflexivity |]. split.
  - now rewrite (quiet_executed _ _ (quiet_log _ _)).
  - now rewrite (quiet_files _ _ (quiet_log _ _)).
Qed.

Lemma remove_stale_trace out dir (stale : list gomod.Replace) (w : World) :
  exists n,
    n <= length stale /\
    executed (remove_stale out dir stale w).2
    = executed w ++ (go_mod_edit_dropreplace dir <$> take n stale) /\
    match (remove_stale out dir stale w).1 with
    | None => n = length stale
    | Some e =>
        exists r err,
          stale !! (n - 1) = Some r /\ 0 < n /\
          e = ("removing stale replace " ++ gomod.Old r ++ ": " ++ err)%string
    end.
Proof.
  revert w. induction stale as [|r stale IH]; intros w.
  - exists 0. simpl. now rewrite app_nil_r.
  - destruct (go (go_mod_edit_dropreplace dir r) (files w)).2 as [o | err] eqn:Ego.
    + destruct (remove_stale_passed out dir r stale w o Ego) as (w' & -> & Hw' & _).
      destruct (IH w') as (n & Hn & Hex & Hres).
      exists (S n). split; [simpl; lia |]. split.
      * rewrite Hex, Hw', <- app_assoc. reflexivity.
      * destruct (remove_stale _ _ _ _).1 as [e|]; [| simpl; lia].
        destruct Hres as (r' & err & Hr' & Hpos & ->).
        exists r', err. split; [| split; [lia | reflexivity]].
        replace (S n - 1) with (S (n - 1)) by lia. exact Hr'.
    + rewrite (remove_stale_failed out dir r stale w err Ego).
      exists 1. split; [simpl; lia |]. split; [reflexivity |].
      exists r, err. repeat split. lia.
Qed.

Lemma remove_stale_all_pass out dir (stale : list gomod.Replace) (w : World) :
  (forall a, a ∈ stale -> succeeds (go_mod_edit_dropreplace dir a)) ->
  (remove_stale out dir stale w).1 = None /\
  executed (remove_stale out dir stale w).2
  = executed w ++ (go_mod_edit_dropreplace dir <$> stale).
Proof.
  revert w. induction stale as [|r stale IH]; intros w Hall.
  - simpl. now rewrite app_nil_r.
  - destruct (Hall r (list_elem_of_here _ _) (files w)) as [o Ego].
    destruct (remove_stale_passed out dir r stale w o Ego) as (w' & -> & Hw' & _).
    destruct (IH w') as [-> ->].
    { intros a Ha. apply Hall. now constructor. }
    split; [reflexivity |]. rewrite Hw', fmap_cons, <- app_assoc. reflexivity.
Qed.

Lemma remove_stale_first_failure out dir
      (before after : list gomod.Replace) (r : gomod.Replace) (err : error) (w : World) :
  (forall a, a ∈ before -> succeeds (go_mod_edit_dropreplace dir a)) ->
  (forall fs, (go (go_mod_edit_dropreplace dir r) fs).2 = Err err) ->
  (remove_stale out dir (before ++ r :: after) w).1
  = Some ("removing stale replace " ++ gomod.Old r ++ ": " ++ err)%string /\
  executed (remove_stale out dir (before ++ r :: after) w).2
  = executed w ++ (go_mod_edit_dropreplace dir <$> before ++ [r]).
Proof.
  revert w. induction before as [|b before IH]; intros w Hbefore Hr.
  - cbn [app]. rewrite (remove_stale_failed out dir r after w err (Hr _)).
    split; reflexivity.
  - cbn [app]. destruct (Hbefore b (list_elem_of_here _ _) (files w)) as [o Ego].
    destruct (remove_stale_passed out dir b (before ++ r :: after) w o Ego)
      as (w' & -> & Hw' & _).
    destruct (IH w') as [-> ->]; [| exact Hr |].
    { intros a Ha. apply Hbefore. now constructor. }
    split; [reflexivity |]. rewrite Hw', fmap_cons, <- app_assoc. reflexivity.
Qed.

Lemma remove_stale_passed_all out dir (stale : list gomod.Replace) (w : World) :
  (remove_stale out dir stale w).1 = None ->
  forall r, r ∈ stale -> exists fs o, (go (go_mod_edit_dropreplace dir r) fs).2 = Ok o.
Proof.
  revert w. induction stale as [|a stale IH]; intros w Hres r Hr.
  - inversion Hr.
  - destruct (go (go_mod_edit_dropreplace dir a) (files w)).2 as [o | err] eqn:Ego.
    + destruct (remove_stale_passed out dir a stale w o Ego) as (w' & Heq & _).
      rewrite Heq in Hres.
      apply elem_of_cons in Hr as [-> | Hr]; [now exists (files w), o |].
      exact (IH w' Hres r Hr).
    + rewrite (remove_stale_failed out dir a stale w err Ego) in Hres.
      discriminate.
Qed.

(** X19.  The removal phase starts one [go mod edit -dropreplace] per
    stale record, in order, the argument being [Old], or [Old@OldVer] when
    the record is constrained, and stops at the first one that fails.
    When the removal of the first record fails the phase returns that
    error, prefixed with [removing stale replace <Old>: ], having started
    that removal and nothing else; when it succeeds the phase goes on with
    the remaining records on the files that the removal leaves.  If every
    removal succeeds the phase succeeds having started them all; if the
    removal of one record fails and those before it succeed, the phase
    fails with the error of that record and no later removal is started;
    and the phase succeeds only if the removal of every record
    succeeded. *)
Theorem remove_stale_stops_at_failure out dir
        (stale : list gomod.Replace) (w : World) :
  (forall r, cmd_argv (go_mod_edit_dropreplace dir r)
             = ["go"; "mod"; "edit";
                ("-dropreplace=" ++
                 (if String.eqb (gomod.OldVer r) "" then gomod.Old r
                  else gomod.Old r ++ "@" ++ gomod.OldVer r))%string]) /\
  (forall r rest err,
      stale = r :: rest ->
      (go (go_mod_edit_dropreplace dir r) (files w)).2 = Err err ->
      remove_stale out dir stale w
      = (Some ("removing stale replace " ++ gomod.Old r ++ ": " ++ err)%string,
         started (go_mod_edit_dropreplace dir r) w)) /\
  (forall r rest o,
      stale = r :: rest ->
      (go (go_mod_edit_dropreplace dir r) (files w)).2 = Ok o ->
      exists w',
        remove_stale out dir stale w = remove_stale out dir rest w' /\
        executed w' = executed w ++ [go_mod_edit_dropreplace dir r] /\
        files w' = (go (go_mod_edit_dropreplace dir r) (files w)).1) /\
  ((forall a, a ∈ stale -> succeeds (go_mod_edit_dropreplace dir a)) ->
   (remove_stale out dir stale w).1 = None /\
   executed (remove_stale out dir stale w).2
   = executed w ++ (go_mod_edit_dropreplace dir <$> stale)) /\
  (forall before r after err,
      stale = before ++ r :: after ->
      (forall a, a ∈ before -> succeeds (go_mod_edit_dropreplace dir a)) ->
      (forall fs, (go (go_mod_edit_dropreplace dir r) fs).2 = Err err) ->
      (remove_stale out dir stale w).1
      = Some ("removing stale replace " ++ gomod.Old r ++ ": " ++ err)%string /\
      executed (remove_stale out dir stale w).2
      = executed w ++ (go_mod_edit_dropreplace dir <$> before ++ [r])) /\
  ((remove_stale out dir stale w).1 = None ->
   forall r, r ∈ stale ->
             exists fs o, (go (go_mod_edit_dropreplace dir r) fs).2 = Ok o).
Proof.
  split; [| split; [| split; [| split; [| split]]]].
  - intros r. unfold go_mod_edit_dropreplace. cbn [cmd_argv].
    now destruct (String.eqb (gomod.OldVer r) "").
  - intros r rest err ->. apply remove_stale_failed.
  - intros r rest o ->. apply remove_stale_passed.
  - apply remove_stale_all_pass.
  - intros before r after err ->. apply remove_stale_first_failure.
  - apply remove_stale_passed_all.
Qed.

(** *** The tidy pass and the three phases together *)

Lemma tidy_run out opts dir (w : World) :
  (SkipTidy opts = true -> tidy out opts dir w = (None, w)) /\
  (SkipTidy opts = false ->
   (tidy out opts dir w).1
   = match (go (go_mod_tidy dir) (files w)).2 with
     | Ok _ => None
     | Err err => Some ("go mod tidy: " ++ err)%string
     end /\
   executed (tidy out opts dir w).2 = executed w ++ [go_mod_tidy dir] /\
   files (tidy out opts dir w).2 = (go (go_mod_tidy dir) (files w)).1).
Proof.
  unfold sync.tidy. split; intros ->; [reflexivity |]. cbn [negb].
  rewrite !bind_run, runCmd_run. cbn [fst snd executed files ret].
  fold (go_mod_tidy dir).
  rewrite (quiet_executed _ _ (quiet_verbose _ _ _)),
    (quiet_files _ _ (quiet_verbose _ _ _)).
  split; [| split; reflexivity].
  now destruct (go (go_mod_tidy dir) (files w)).2.
Qed.

Lemma finish_not_dry out opts dir (replaces stale : list gomod.Replace) (w : World) :
  DryRun opts = false -> ¬ (replaces = [] /\ stale = []) ->
  finish out opts dir replaces stale w
  = match (apply_replaces out opts dir replaces w).1 with
    | Some e => (Some e, (apply_replaces out opts dir replaces w).2)
    | None =>
        match (remove_stale out dir stale
                 (apply_replaces out opts dir replaces w).2).1 with
        | Some e =>
            (Some e,
             (remove_stale out dir stale (apply_replaces out opts dir replaces w).2).2)
        | None =>
            tidy out opts dir
              (remove_stale out dir stale (apply_replaces out opts dir replaces w).2).2
        end
    end.
Proof.
  intros Hdry Hne. unfold sync.finish. rewrite Hdry.
  assert (Hlen : (length replaces =? 0)%nat && (length stale =? 0)%nat = false).
  { destruct replaces, stale; try reflexivity. now contradiction Hne. }
  rewrite Hlen, bind_run.
  destruct (apply_replaces out opts dir replaces w).1; [reflexivity |].
  rewrite bind_run.
  destruct (remove_stale out dir stale _).1; reflexivity.
Qed.

(** X13.  With nothing to apply and nothing stale, [Run] ends
    successfully without starting a process or writing a file, dry run
    or not.  Otherwise a run that is not dry goes through the apply
    phase, the removal phase and the tidy pass in that order, and each
    is entered only if the one before returned no error: an error of
    the apply phase is the result of the run and leaves the world as
    that phase left it, likewise an error of the removal phase, and
    otherwise the result is that of the tidy pass, which starts
    [go mod tidy] unless it is skipped and prefixes its error with
    [go mod tidy: ].  So when every command succeeds the run succeeds
    having started every edit, every removal and the tidy pass; when an
    edit fails the run fails and only edits were started; when every edit
    succeeds and a removal fails the run fails and no tidy pass was
    started. *)
Theorem finish_phases out opts dir (replaces stale : list gomod.Replace) (w : World) :
  (replaces = [] -> stale = [] ->
   (finish out opts dir replaces stale w).1 = None /\
   files (finish out opts dir replaces stale w).2 = files w /\
   executed (finish out opts dir replaces stale w).2 = executed w) /\
  (DryRun opts = false -> ¬ (replaces = [] /\ stale = []) ->
   finish out opts dir replaces stale w
   = match (apply_replaces out opts dir replaces w).1 with
     | Some e => (Some e, (apply_replaces out opts dir replaces w).2)
     | None =>
         match (remove_stale out dir stale
                  (apply_replaces out opts dir replaces w).2).1 with
         | Some e =>
             (Some e,
              (remove_stale out dir stale (apply_replaces out opts dir replaces w).2).2)
         | None =>
             tidy out opts dir
               (remove_stale out dir stale (apply_replaces out opts dir replaces w).2).2
         end
     end) /\
  (forall w0,
      (SkipTidy opts = true -> tidy out opts dir w0 = (None, w0)) /\
      (SkipTidy opts = false ->
       (tidy out opts dir w0).1
       = match (go (go_mod_tidy dir) (files w0)).2 with
         | Ok _ => None
         | Err err => Some ("go mod tidy: " ++ err)%string
         end /\
       executed (tidy out opts dir w0).2 = executed w0 ++ [go_mod_tidy dir])) /\
  (DryRun opts = false -> ¬ (replaces = [] /\ stale = []) ->
   (forall a, a ∈ replaces -> succeeds (go_mod_edit_replace dir a)) ->
   (forall a, a ∈ stale -> succeeds (go_mod_edit_dropreplace dir a)) ->
   (SkipTidy opts = false -> succeeds (go_mod_tidy dir)) ->
   (finish out opts dir replaces stale w).1 = None /\
   executed (finish out opts dir replaces stale w).2
   = executed w ++ (go_mod_edit_replace dir <$> replaces)
                ++ (go_mod_edit_dropreplace dir <$> stale)
                ++ (if SkipTidy opts then [] else [go_mod_tidy dir])) /\
  (DryRun opts = false ->
   forall r, r ∈ replaces -> fails (go_mod_edit_replace dir r) ->
     is_Some (finish out opts dir replaces stale w).1 /\
     exists i, i <= length replaces /\
       executed (finish out opts dir replaces stale w).2
       = executed w ++ (go_mod_edit_replace dir <$> take i replaces)) /\
  (DryRun opts = false ->
   (forall a, a ∈ replaces -> succeeds (go_mod_edit_replace dir a)) ->
   forall r, r ∈ stale -> fails (go_mod_edit_dropreplace dir r) ->
     is_Some (finish out opts dir replaces stale w).1 /\
     exists j, j <= length stale /\
       executed (finish out opts dir replaces stale w).2
       = executed w ++ (go_mod_edit_replace dir <$> replaces)
                    ++ (go_mod_edit_dropreplace dir <$> take j stale)).
Proof.
  split; [| split; [| split; [| split; [| split]]]].
  - intros -> ->. unfold sync.finish. simpl. repeat split.
  - apply finish_not_dry.
  - intros w0. destruct (tidy_run out opts dir w0) as [Hskip Hrun].
    split; [exact Hskip |]. intros Hs. destruct (Hrun Hs) as (H1 & H2 & _).
    now split.
  - intros Hdry Hne Hedits Hdrops Htidy.
    rewrite (finish_not_dry out opts dir replaces stale w Hdry Hne).
    destruct (apply_replaces_all_pass out opts dir replaces w Hedits) as [-> Hex].
    destruct (remove_stale_all_pass out dir stale
                (apply_replaces out opts dir replaces w).2 Hdrops) as [-> Hex'].
    destruct (tidy_run out opts dir
                (remove_stale out dir stale
                   (apply_replaces out opts dir replaces w).2).2) as [Hskip Hrun].
    destruct (SkipTidy opts) eqn:Hs.
    + rewrite (Hskip eq_refl). cbn [fst snd].
      split; [reflexivity |]. now rewrite Hex', Hex, app_nil_r, <- app_assoc.
    + destruct (Hrun eq_refl) as (-> & -> & _).
      destruct (Htidy eq_refl
                  (files (remove_stale out dir stale
                            (apply_replaces out opts dir replaces w).2).2))
        as [o ->].
      split; [reflexivity |]. now rewrite Hex', Hex, <- !app_assoc.
  - intros Hdry r Hr Hfails.
    assert (Hne : ¬ (replaces = [] /\ stale = [])).
    { intros [-> _]. inversion Hr. }
    rewrite (finish_not_dry out opts dir replaces stale w Hdry Hne).
    destruct (apply_replaces_trace out opts dir replaces w) as (i & Hi & Hex & _).
    destruct (apply_replaces out opts dir replaces w).1 as [e|] eqn:Hres.
    + cbn [fst snd]. split; [now exists e |]. now exists i.
    + destruct (apply_replaces_passed_all out opts dir replaces w Hres r Hr)
        as (fs & o & Hok).
      destruct (Hfails fs) as [err Herr]. congruence.
  - intros Hdry Hedits r Hr Hfails.
    assert (Hne : ¬ (replaces = [] /\ stale = [])).
    { intros [_ ->]. inversion Hr. }
    rewrite (finish_not_dry out opts dir replaces stale w Hdry Hne).
    destruct (apply_replaces_all_pass out opts dir replaces w Hedits) as [-> Hex].
    destruct (remove_stale_trace out dir stale
                (apply_replaces out opts dir replaces w).2) as (j & Hj & Hex' & _).
    destruct (remove_stale out dir stale _).1 as [e|] eqn:Hres.
    + cbn [fst snd]. split; [now exists e |]. exists j.
      split; [exact Hj |]. now rewrite Hex', Hex, <- app_assoc.
    + destruct (remove_stale_passed_all out dir stale _ Hres r Hr) as (fs & o & Hok).
      destruct (Hfails fs) as [err Herr]. congruence.
Qed.

End PhaseFacts.

Section SinkFacts.

Import sync.
Local Open Scope list_scope.

Variable os_Getwd : result string.
Variable filepath_Join : string -> string -> string.
Variable modfile_Parse : string -> string -> result modfile.File.
Variable cmp : string -> string -> Z.
Variable order : MapOrder.
Variable go : Command -> gmap string string -> gmap string string * result string.
Variable json_Decode : string -> list (result moduleInfo).
Variable strings_TrimSpace : string -> string.
Variable write_error : string -> string -> gmap string string -> option error.
Variable go_stderr : Command -> gmap string string -> list string.

Local Abbreviation Run :=
  (sync.Run os_Getwd filepath_Join modfile_Parse cmp order go json_Decode
     strings_TrimSpace write_error go_stderr).
Local Abbreviation run_in :=
  (sync.run_in filepath_Join modfile_Parse cmp order go json_Decode
     strings_TrimSpace write_error go_stderr).
Local Abbreviation after_listing :=
  (sync.after_listing filepath_Join modfile_Parse cmp order go
     strings_TrimSpace write_error go_stderr).
Local Abbreviation collect := (sync.collect filepath_Join modfile_Parse).
Local Abbreviation finish := (sync.finish filepath_Join go write_error go_stderr).
Local Abbreviation apply_replaces := (sync.apply_replaces filepath_Join go write_error go_stderr).
Local Abbreviation addSourceComment := (sync.addSourceComment filepath_Join write_error).

(** X14.  The fatal errors before reconciliation: when no directory is
    given and the working directory cannot be determined, [Run] returns
    that error and leaves the world untouched; when the listing fails, or
    an entry of it fails to decode, [Run] returns the error prefixed with
    [listing deps: ], has started the listing only and has written
    nothing. *)
Theorem Run_fatal_before_reconciling (opts : Options) (w : World) :
  (forall err, Dir opts = "" -> os_Getwd = Err err -> Run opts w = (Some err, w)) /\
  (forall dir err,
      (if String.eqb (Dir opts) "" then os_Getwd else Ok (Dir opts)) = Ok dir ->
      (go (go_list dir) (files w)).2 = Err err ->
      Run opts w =
        (Some ("listing deps: " ++ err)%string,
         {| files := (go (go_list dir) (files w)).1;
            written := written w;
            executed := executed w ++ [go_list dir] |})) /\
  (forall dir out ms err rest,
      (if String.eqb (Dir opts) "" then os_Getwd else Ok (Dir opts)) = Ok dir ->
      (go (go_list dir) (files w)).2 = Ok out ->
      json_Decode out = (Ok <$> ms) ++ Err err :: rest ->
      Run opts w =
        (Some ("listing deps: " ++ err)%string,
         {| files := (go (go_list dir) (files w)).1;
            written := written w;
            executed := executed w ++ [go_list dir] |})).
Proof.
  split; [| split].
  - intros err Hdir Hwd. unfold sync.Run. now rewrite Hdir, Hwd.
  - intros dir err Hdir Hgo. unfold sync.Run. rewrite Hdir.
    rewrite run_in_run, listDirectDeps_run. cbn [fst snd]. now rewrite Hgo.
  - intros dir out ms err rest Hdir Hgo Hdec. unfold sync.Run. rewrite Hdir.
    rewrite run_in_run, listDirectDeps_run. cbn [fst snd].
    now rewrite Hgo, Hdec, decode_deps_first_error.
Qed.

Lemma writes_to_ret {A} outs (a : A) : writes_to outs (ret a).
Proof. intros w. exists []. simpl. now rewrite app_nil_r. Qed.

Lemma writes_to_bind {A B} outs (m : M A) (f : A -> M B) :
  writes_to outs m -> (forall a, writes_to outs (f a)) -> writes_to outs (bind m f).
Proof.
  intros Hm Hf w. rewrite bind_run.
  destruct (Hm w) as (l1 & H1 & F1). destruct (Hf (m w).1 (m w).2) as (l2 & H2 & F2).
  exists (l1 ++ l2). split; [now rewrite H2, H1, app_assoc |].
  now apply Forall_app.
Qed.

Lemma writes_to_log outs out line : out ∈ outs -> writes_to outs (log out line).
Proof.
  intros Hout w. exists [(out, (line ++ String "010" "")%string)].
  split; [reflexivity |]. now repeat constructor.
Qed.

Lemma writes_to_verbose outs out enabled line :
  out ∈ outs -> writes_to outs (verbose out enabled line).
Proof. intros Hout. destruct enabled; [now apply writes_to_log | apply writes_to_ret]. Qed.

Lemma writes_to_silent {A} outs (m : M A) :
  (forall w, written (m w).2 = written w) -> writes_to outs m.
Proof. intros H w. exists []. split; [now rewrite app_nil_r | constructor]. Qed.

(** What a command writes to its standard error reaches the standard
    error of the caller, and nothing else does. *)
Lemma writes_to_runCmd outs dir name args :
  Stderr ∈ outs \/ (forall c fs, go_stderr c fs = []) ->
  writes_to outs (runCmd go go_stderr dir name args).
Proof.
  intros Herr w. rewrite runCmd_run. cbn [snd written].
  eexists. split; [reflexivity |].
  destruct Herr as [Hin | Hsilent].
  - apply Forall_fmap, Forall_forall. intros text _. exact Hin.
  - rewrite Hsilent. constructor.
Qed.

Lemma writes_to_addSourceComment outs dir r : writes_to outs (addSourceComment dir r).
Proof.
  apply writes_to_silent. intros w. unfold sync.addSourceComment, os_WriteFile.
  destruct (os_ReadFile _ _); [| reflexivity].
  destruct (_ && _); [| reflexivity].
  destruct (write_error _ _ _); reflexivity.
Qed.

Lemma writes_to_fold_log {A} outs out (line : A -> string) (l : list A) (m : M unit) :
  out ∈ outs -> writes_to outs m ->
  writes_to outs (fold_left (fun m r => bind m (fun _ => log out (line r))) l m).
Proof.
  intros Hout. revert m; induction l as [|a l IH]; intros m Hm; simpl; [exact Hm |].
  apply IH, writes_to_bind; [exact Hm | intros _; now apply writes_to_log].
Qed.

Lemma writes_to_collect outs out opts (deps : list moduleInfo) acc :
  out ∈ outs -> writes_to outs (collect out opts deps acc).
Proof.
  intros Hout. revert acc; induction deps as [|dep deps IH]; intros acc.
  - apply writes_to_ret.
  - rewrite collect_cons.
    apply writes_to_bind; [now apply writes_to_verbose | intros _].
    destruct (String.eqb (ModDir dep) "").
    + apply writes_to_bind; [now apply writes_to_verbose | intros _; apply IH].
    + intros w. destruct (gomod.ParseReplaces _ _ _) as [rs | err].
      * apply IH.
      * apply (writes_to_bind _ _ _ (writes_to_verbose _ _ _ _ Hout) (fun _ => IH acc)).
Qed.

Lemma writes_to_apply_replaces outs out opts dir replaces :
  out ∈ outs -> Stderr ∈ outs \/ (forall c fs, go_stderr c fs = []) ->
  writes_to outs (apply_replaces out opts dir replaces).
Proof.
  intros Hout Herr. induction replaces as [|r replaces IH]; [apply writes_to_ret |].
  cbn [sync.apply_replaces].
  apply writes_to_bind; [now apply writes_to_runCmd | intros [e|]];
    [apply writes_to_ret |].
  apply writes_to_bind; [apply writes_to_addSourceComment | intros e].
  apply writes_to_bind;
    [destruct e; [now apply writes_to_verbose | apply writes_to_ret] | intros _].
  apply writes_to_bind; [now apply writes_to_log | intros _; exact IH].
Qed.

Lemma writes_to_remove_stale outs out dir stale :
  out ∈ outs -> Stderr ∈ outs \/ (forall c fs, go_stderr c fs = []) ->
  writes_to outs (remove_stale go go_stderr out dir stale).
Proof.
  intros Hout Herr. induction stale as [|r stale IH]; [apply writes_to_ret |].
  cbn [remove_stale].
  apply writes_to_bind; [now apply writes_to_runCmd | intros [e|]];
    [apply writes_to_ret |].
  apply writes_to_bind; [now apply writes_to_log | intros _; exact IH].
Qed.

Lemma writes_to_finish outs out opts dir replaces stale :
  out ∈ outs ->
  DryRun opts = true \/ Stderr ∈ outs \/ (forall c fs, go_stderr c fs = []) ->
  writes_to outs (finish out opts dir replaces stale).
Proof.
  intros Hout Herr. unfold sync.finish.
  destruct ((length replaces =? 0)%nat && (length stale =? 0)%nat).
  { apply writes_to_bind; [now apply writes_to_log | intros _; apply writes_to_ret]. }
  destruct (DryRun opts).
  - apply writes_to_bind.
    + destruct (0 <? length replaces)%nat; [| apply writes_to_ret].
      apply writes_to_bind; [now apply writes_to_log | intros _].
      apply writes_to_fold_log with
        (line := (fun r => "  " ++ gomod.Old r ++ " => " ++ gomod.New r ++ " " ++
                           gomod.NewVer r ++ " // from: " ++ gomod.Source r)%string);
        [exact Hout | apply writes_to_ret].
    + intros _. apply writes_to_bind; [| intros _; apply writes_to_ret].
      destruct (0 <? length stale)%nat; [| apply writes_to_ret].
      apply writes_to_bind; [now apply writes_to_log | intros _].
      apply writes_to_fold_log with
        (line := (fun r => "  " ++ gomod.Old r ++ " (was from: " ++
                           gomod.Source r ++ ")")%string);
        [exact Hout | apply writes_to_ret].
  - destruct Herr as [Hdry | Herr]; [discriminate |].
    apply writes_to_bind; [now apply writes_to_apply_replaces | intros [e|]];
      [apply writes_to_ret |].
    apply writes_to_bind; [now apply writes_to_remove_stale | intros [e|]];
      [apply writes_to_ret |].
    unfold tidy. destruct (negb (SkipTidy opts)); [| apply writes_to_ret].
    apply writes_to_bind; [now apply writes_to_verbose | intros _].
    apply writes_to_bind; [now apply writes_to_runCmd | intros e; apply writes_to_ret].
Qed.

Lemma writes_to_after_listing outs out opts dir deps :
  out ∈ outs ->
  DryRun opts = true \/ Stderr ∈ outs \/ (forall c fs, go_stderr c fs = []) ->
  writes_to outs (after_listing out opts dir deps).
Proof.
  intros Hout Herr. unfold sync.after_listing.
  apply writes_to_bind; [now apply writes_to_verbose | intros _].
  apply writes_to_bind; [now apply writes_to_collect | intros allReplaces].
  intros w. destruct (findStaleReplaces _ _ _ _ _ _) as [stale err].
  apply writes_to_bind; [| intros _; now apply writes_to_finish].
  destruct err; [now apply writes_to_verbose | apply writes_to_ret].
Qed.

Lemma writes_to_Run outs opts :
  default Stdout (Output opts) ∈ outs ->
  DryRun opts = true \/ Stderr ∈ outs \/ (forall c fs, go_stderr c fs = []) ->
  writes_to outs (Run opts).
Proof.
  intros Hout Herr. unfold sync.Run.
  destruct (if String.eqb (Dir opts) "" then os_Getwd else Ok (Dir opts))
    as [dir | err]; [| apply writes_to_ret].
  unfold sync.run_in.
  apply writes_to_bind.
  { apply writes_to_silent. intros w. now rewrite listDirectDeps_run. }
  intros [deps | err]; [| apply writes_to_ret].
  now apply writes_to_after_listing.
Qed.

Lemma writes_to_one {A} out (m : M A) (w : World) :
  writes_to [out] m ->
  exists lines,
    written (m w).2 = written w ++ ((fun line => (out, line)) <$> lines).
Proof.
  intros Hm. destruct (Hm w) as (entries & -> & Hall).
  exists (snd <$> entries). f_equal.
  induction Hall as [|[o line] entries Ho Hall IH]; [reflexivity |].
  apply list_elem_of_singleton in Ho. simpl in Ho. subst o.
  rewrite !fmap_cons. cbn [snd]. now rewrite <- IH.
Qed.

(** X15.  Whatever [Run] writes goes to the writer of its options (the
    standard output when none is given) or to the standard error of the
    process, which the commands it starts with [runCmd] inherit: what is
    written to any other writer is as before the run.  A dry run writes
    to the writer of its options only, and so does any run whose
    commands write nothing to their standard error. *)
Theorem Run_writes_to_one_sink (opts : Options) (w : World) :
  (exists entries,
     written (Run opts w).2 = written w ++ entries /\
     Forall (fun entry => entry.1 = default Stdout (Output opts) \/ entry.1 = Stderr)
            entries) /\
  (DryRun opts = true ->
   exists lines,
     written (Run opts w).2
     = written w ++ ((fun line => (default Stdout (Output opts), line)) <$> lines)) /\
  ((forall c fs, go_stderr c fs = []) ->
   exists lines,
     written (Run opts w).2
     = written w ++ ((fun line => (default Stdout (Output opts), line)) <$> lines)).
Proof.
  split; [| split].
  - destruct (writes_to_Run [default Stdout (Output opts); Stderr] opts)
      with (w := w) as (entries & Hw & Hall).
    + constructor.
    + right. left. constructor. constructor.
    + exists entries. split; [exact Hw |].
      eapply Forall_impl; [exact Hall |]. intros entry Hin. cbn beta in Hin.
      apply elem_of_cons in Hin as [Hin | Hin]; [now left |].
      apply list_elem_of_singleton in Hin. now right.
  - intros Hdry. apply writes_to_one, writes_to_Run; [constructor | now left].
  - intros Hsilent. apply writes_to_one, writes_to_Run; [constructor | now right; right].
Qed.

End SinkFacts.

Section StaleCheck.

Import sync.
Local Open Scope list_scope.

Variable os_Getwd : result string.
Variable filepath_Join : string -> string -> string.
Variable modfile_Parse : string -> string -> result modfile.File.
Variable cmp : string -> string -> Z.
Variable order : MapOrder.
Variable go : Command -> gmap string string -> gmap string string * result string.
Variable json_Decode : string -> list (result moduleInfo).
Variable strings_TrimSpace : string -> string.
Variable write_error : string -> string -> gmap string string -> option error.
Variable go_stderr : Command -> gmap string string -> list string.

Local Abbreviation Run :=
  (sync.Run os_Getwd filepath_Join modfile_Parse cmp order go json_Decode
     strings_TrimSpace write_error go_stderr).
Local Abbreviation collect := (sync.collect filepath_Join modfile_Parse).
Local Abbreviation finish := (sync.finish filepath_Join go write_error go_stderr).
Local Abbreviation findStaleReplaces :=
  (sync.findStaleReplaces filepath_Join modfile_Parse strings_TrimSpace).
Local Abbreviation go_succeeds := (sync.go_succeeds go).

(** The list that [Run] reconciles from the manifests of the direct
    dependencies [deps], read on the files [fs]. *)
Local Abbreviation reconciled fs deps :=
  (gomod.Deduplicate cmp order
     (concat (sync.replaces_of_dep filepath_Join modfile_Parse fs <$> deps))).

Lemma written_verbose out enabled line w :
  written (verbose out enabled line w).2
  = written w ++ (if enabled then [(out, (line ++ String "010" "")%string)] else []).
Proof. destruct enabled; simpl; [reflexivity | now rewrite app_nil_r]. Qed.

(** C7.  If the project's own manifest cannot be read or parsed when
    staleness is checked, [findStaleReplaces] returns no stale record
    together with the error, and [Run] carries on from there: it hands
    to its last part the list reconciled from the dependencies and an
    empty stale list, on the files that the listing left, the error
    having gone to the writer as a warning and only when [Verbose] is
    set.  When the run is not dry and every command succeeds, it returns
    success having started one edit per reconciled record, in order, then
    the tidy pass unless skipped, and no removal; when the run is dry it
    returns success having started nothing but the listing. *)
Theorem stale_check_failure_is_not_fatal
        (opts : Options) (w : World) (dir listing : string)
        (deps : list moduleInfo) (err : error) :
  (if String.eqb (Dir opts) "" then os_Getwd else Ok (Dir opts)) = Ok dir ->
  (go (go_list dir) (files w)).2 = Ok listing ->
  decode_deps (json_Decode listing) [] = Ok deps ->
  gomod.ParseReplacesWithSource
    (os_ReadFile (go (go_list dir) (files w)).1) modfile_Parse strings_TrimSpace
    (filepath_Join dir "go.mod") = Err err ->
  (forall current,
      findStaleReplaces dir current (go (go_list dir) (files w)).1
      = ([], Some err)) /\
  (exists w',
      Run opts w
      = finish (default Stdout (Output opts)) opts dir
          (reconciled (go (go_list dir) (files w)).1 deps) [] w' /\
      files w' = (go (go_list dir) (files w)).1 /\
      executed w' = executed w ++ [go_list dir] /\
      exists lines,
        written w'
        = written w ++
          ((fun line => (default Stdout (Output opts), line)) <$> lines) ++
          (if Verbose opts
           then [(default Stdout (Output opts),
                  (("warning: could not check for stale replaces: " ++ err) ++
                   String "010" "")%string)]
           else [])) /\
  (go_succeeds -> DryRun opts = false ->
   (Run opts w).1 = None /\
   executed (Run opts w).2
   = executed w ++ go_list dir ::
     match reconciled (go (go_list dir) (files w)).1 deps with
     | [] => []
     | _ => (go_mod_edit_replace dir <$>
             reconciled (go (go_list dir) (files w)).1 deps) ++
            (if SkipTidy opts then [] else [go_mod_tidy dir])
     end) /\
  (DryRun opts = true ->
   (Run opts w).1 = None /\
   files (Run opts w).2 = (go (go_list dir) (files w)).1 /\
   executed (Run opts w).2 = executed w ++ [go_list dir]).
Proof.
  intros Hdir Hlist Hdeps Hstale.
  assert (Hfind : forall current,
             findStaleReplaces dir current (go (go_list dir) (files w)).1
             = ([], Some err)).
  { intros current. unfold sync.findStaleReplaces. now rewrite Hstale. }
  set (out := default Stdout (Output opts)).
  set (fs := (go (go_list dir) (files w)).1) in *.
  assert (Hrun : exists w',
             Run opts w = finish out opts dir (reconciled fs deps) [] w' /\
             files w' = fs /\
             executed w' = executed w ++ [go_list dir] /\
             exists lines,
               written w'
               = written w ++ ((fun line => (out, line)) <$> lines) ++
                 (if Verbose opts
                  then [(out,
                         (("warning: could not check for stale replaces: " ++ err) ++
                          String "010" "")%string)]
                  else [])).
  { unfold sync.Run. rewrite Hdir. fold out.
    rewrite run_in_run, listDirectDeps_run. cbn [fst snd]. rewrite Hlist, Hdeps.
    unfold sync.after_listing. rewrite !bind_run. fold fs.
    set (w0 := {| files := fs; written := written w;
                  executed := executed w ++ [go_list dir] |}).
    set (w1 := (verbose out (Verbose opts) _ w0).2).
    set (c := collect out opts deps [] w1).
    assert (Hw1 : files w1 = fs)
      by (unfold w1; now rewrite (quiet_files _ _ (quiet_verbose _ _ _))).
    assert (Hfiles : files c.2 = fs)
      by (unfold c; now rewrite (quiet_files _ _ (quiet_collect _ _ _ _ _ _))).
    assert (Hexec : executed c.2 = executed w ++ [go_list dir]).
    { unfold c. rewrite (quiet_executed _ _ (quiet_collect _ _ _ _ _ _)).
      unfold w1. now rewrite (quiet_executed _ _ (quiet_verbose _ _ _)). }
    assert (Hc : c.1 = concat (sync.replaces_of_dep filepath_Join modfile_Parse fs <$> deps)).
    { unfold c. rewrite collect_exact, Hw1. reflexivity. }
    destruct (writes_to_one out (collect out opts deps []) w1) as [lines Hlines].
    { apply writes_to_collect. constructor. }
    fold c in Hlines.
    rewrite Hfiles, Hfind, Hc. rewrite bind_run.
    eexists. split; [reflexivity |]. split; [| split].
    - now rewrite (quiet_files _ _ (quiet_verbose _ _ _)).
    - now rewrite (quiet_executed _ _ (quiet_verbose _ _ _)).
    - exists ((if Verbose opts
               then [(("Found " ++ itoa (length deps) ++ " direct dependencies") ++
                      String "010" "")%string]
               else []) ++ lines).
      rewrite written_verbose, Hlines. unfold w1. rewrite written_verbose.
      cbn [written w0]. rewrite fmap_app, <- !app_assoc. f_equal. f_equal.
      now destruct (Verbose opts). }
  split; [exact Hfind |]. split; [exact Hrun |].
  destruct Hrun as (w' & -> & Hfs & Hex & _). split.
  - intros Hgo Hdry.
    destruct (finish_without_stale filepath_Join go write_error go_stderr
                out opts dir (reconciled fs deps) w' Hgo Hdry) as [-> ->].
    split; [reflexivity |]. now rewrite Hex, <- app_assoc.
  - intros Hdry.
    pose proof (quiet_finish_dry_run filepath_Join go write_error go_stderr
                  out opts dir (reconciled fs deps) [] Hdry) as Hq.
    rewrite (quiet_files _ _ Hq), (quiet_executed _ _ Hq).
    split; [| split; assumption].
    unfold sync.finish. rewrite Hdry.
    destruct ((length (reconciled fs deps) =? 0)%nat && (length (@nil gomod.Replace) =? 0)%nat);
      rewrite !bind_run; reflexivity.
Qed.

End StaleCheck.

Section VerboseFacts.

Import sync.
Local Open Scope list_scope.

Variable os_Getwd : result string.
Variable filepath_Join : string -> string -> string.
Variable modfile_Parse : string -> string -> result modfile.File.
Variable cmp : string -> string -> Z.
Variable go : Command -> gmap string string -> gmap string string * result string.
Variable json_Decode : string -> list (result moduleInfo).
Variable strings_TrimSpace : string -> string.
Variable write_error : string -> string -> gmap string string -> option error.
Variable go_stderr : Command -> gmap string string -> list string.

Local Abbreviation Run order :=
  (sync.Run os_Getwd filepath_Join modfile_Parse cmp order go json_Decode
     strings_TrimSpace write_error go_stderr).
Local Abbreviation collect := (sync.collect filepath_Join modfile_Parse).
Local Abbreviation finish := (sync.finish filepath_Join go write_error go_stderr).
Local Abbreviation apply_replaces := (sync.apply_replaces filepath_Join go write_error go_stderr).
Local Abbreviation addSourceComment := (sync.addSourceComment filepath_Join write_error).

Lemma same_effects_ret {A} (a : A) : same_effects (ret a) (ret a).
Proof. intros w w' Hf He. repeat split; assumption. Qed.

Lemma same_effects_bind {A B} (m m' : M A) (f f' : A -> M B) :
  same_effects m m' -> (forall a, same_effects (f a) (f' a)) ->
  same_effects (bind m f) (bind m' f').
Proof.
  intros Hm Hf w w' Hfiles Hexec. rewrite !bind_run.
  destruct (Hm w w' Hfiles Hexec) as (Ha & Hf1 & He1).
  rewrite Ha. now apply Hf.
Qed.

Lemma same_effects_quiet (m m' : M unit) :
  quiet m -> quiet m' -> same_effects m m'.
Proof.
  intros Hm Hm' w w' Hf He.
  destruct (Hm w) as [-> ->], (Hm' w') as [-> ->].
  repeat split; try assumption. now destruct (m w).1, (m' w').1.
Qed.

Lemma same_effects_verbose out out' enabled enabled' line line' :
  same_effects (verbose out enabled line) (verbose out' enabled' line').
Proof. apply same_effects_quiet; apply quiet_verbose. Qed.

Lemma same_effects_log out out' line line' :
  same_effects (log out line) (log out' line').
Proof. apply same_effects_quiet; apply quiet_log. Qed.

Lemma same_effects_runCmd dir name args :
  same_effects (runCmd go go_stderr dir name args) (runCmd go go_stderr dir name args).
Proof.
  intros w w' Hf He. rewrite !runCmd_run. cbn [fst snd files executed].
  rewrite Hf, He. repeat split.
Qed.

Lemma same_effects_listDirectDeps dir :
  same_effects (listDirectDeps go json_Decode dir) (listDirectDeps go json_Decode dir).
Proof.
  intros w w' Hf He. rewrite !listDirectDeps_run. cbn [fst snd files executed].
  rewrite Hf, He. repeat split.
Qed.

Lemma same_effects_addSourceComment dir r :
  same_effects (addSourceComment dir r) (addSourceComment dir r).
Proof.
  intros w w' Hf He. unfold sync.addSourceComment, os_WriteFile. rewrite Hf.
  destruct (os_ReadFile _ _) as [data | err]; [| repeat split; assumption].
  destruct (_ && _); [| repeat split; assumption].
  destruct (write_error _ _ _); cbn [fst snd files executed];
    repeat split; assumption.
Qed.

Lemma same_effects_fold_log {A} out out' (line line' : A -> string)
      (l : list A) (m m' : M unit) :
  quiet m -> quiet m' ->
  same_effects
    (fold_left (fun m r => bind m (fun _ => log out (line r))) l m)
    (fold_left (fun m r => bind m (fun _ => log out' (line' r))) l m').
Proof.
  intros Hm Hm'. apply same_effects_quiet; now apply quiet_fold_log.
Qed.

Lemma same_effects_collect out out' opts opts' (deps : list moduleInfo) acc :
  same_effects (collect out opts deps acc) (collect out' opts' deps acc).
Proof.
  revert acc; induction deps as [|dep deps IH]; intros acc.
  - apply same_effects_ret.
  - rewrite !collect_cons.
    apply same_effects_bind; [apply same_effects_verbose | intros _].
    destruct (String.eqb (ModDir dep) "").
    + apply same_effects_bind; [apply same_effects_verbose | intros _; apply IH].
    + intros w w' Hf He. rewrite Hf.
      destruct (gomod.ParseReplaces _ _ _) as [rs | err].
      * now apply IH.
      * apply (same_effects_bind _ _ _ _ (same_effects_verbose _ _ _ _ _ _)
                 (fun _ => IH acc)); assumption.
Qed.

Lemma same_effects_apply_replaces out out' opts opts' dir replaces :
  same_effects (apply_replaces out opts dir replaces)
               (apply_replaces out' opts' dir replaces).
Proof.
  induction replaces as [|r replaces IH]; [apply same_effects_ret |].
  cbn [sync.apply_replaces].
  apply same_effects_bind; [apply same_effects_runCmd | intros [e|]];
    [apply same_effects_ret |].
  apply same_effects_bind; [apply same_effects_addSourceComment | intros e].
  apply same_effects_bind.
  { apply same_effects_quiet;
      (destruct e; [apply quiet_verbose | apply quiet_ret]). }
  intros _. apply same_effects_bind; [apply same_effects_log | intros _; exact IH].
Qed.

Lemma same_effects_remove_stale out out' dir stale :
  same_effects (remove_stale go go_stderr out dir stale) (remove_stale go go_stderr out' dir stale).
Proof.
  induction stale as [|r stale IH]; [apply same_effects_ret |].
  cbn [remove_stale].
  apply same_effects_bind; [apply same_effects_runCmd | intros [e|]];
    [apply same_effects_ret |].
  apply same_effects_bind; [apply same_effects_log | intros _; exact IH].
Qed.

Lemma same_effects_finish out out' opts opts' dir replaces stale :
  DryRun opts = DryRun opts' -> SkipTidy opts = SkipTidy opts' ->
  same_effects (finish out opts dir replaces stale)
               (finish out' opts' dir replaces stale).
Proof.
  intros Hdry Hskip. unfold sync.finish. rewrite <- Hdry.
  destruct ((length replaces =? 0)%nat && (length stale =? 0)%nat).
  { apply same_effects_bind; [apply same_effects_log | intros _; apply same_effects_ret]. }
  destruct (DryRun opts).
  - apply same_effects_bind.
    + apply same_effects_quiet;
        (destruct (0 <? length replaces)%nat;
         [apply quiet_would_apply | apply quiet_ret]).
    + intros _. apply same_effects_bind; [| intros _; apply same_effects_ret].
      apply same_effects_quiet;
        (destruct (0 <? length stale)%nat;
         [apply quiet_would_remove | apply quiet_ret]).
  - apply same_effects_bind; [apply same_effects_apply_replaces | intros [e|]];
      [apply same_effects_ret |].
    apply same_effects_bind; [apply same_effects_remove_stale | intros [e|]];
      [apply same_effects_ret |].
    unfold tidy. rewrite <- Hskip.
    destruct (negb (SkipTidy opts)); [| apply same_effects_ret].
    apply same_effects_bind; [apply same_effects_verbose | intros _].
    apply same_effects_bind; [apply same_effects_runCmd | intros e].
    apply same_effects_ret.
Qed.

(** X16.  Neither [Verbose] nor [Output] changes what a run does: two
    runs against the same tools, in which [Deduplicate] walks its map in
    the same arrangement, whose options agree on [Dir], [DryRun] and
    [SkipTidy], started on the same files and the same started processes,
    return the same result and leave the same files and the same started
    processes.  (Two runs that draw different arrangements may start their
    edits in different orders, whatever their options.) *)
Theorem Run_effects_ignore_verbosity (order order' : MapOrder)
        (opts opts' : Options) (w w' : World) :
  (forall l : list gomod.Replace, range_order order l = range_order order' l) ->
  Dir opts = Dir opts' -> DryRun opts = DryRun opts' ->
  SkipTidy opts = SkipTidy opts' ->
  files w = files w' -> executed w = executed w' ->
  (Run order opts w).1 = (Run order' opts' w').1 /\
  files (Run order opts w).2 = files (Run order' opts' w').2 /\
  executed (Run order opts w).2 = executed (Run order' opts' w').2.
Proof.
  intros Horder Hdir Hdry Hskip. revert w w'.
  change (same_effects (Run order opts) (Run order' opts')).
  unfold sync.Run. rewrite <- Hdir.
  destruct (if String.eqb (Dir opts) "" then os_Getwd else Ok (Dir opts))
    as [dir | err]; [| apply same_effects_ret].
  unfold sync.run_in.
  apply same_effects_bind; [apply same_effects_listDirectDeps | intros [deps | err]];
    [| apply same_effects_ret].
  unfold sync.after_listing.
  apply same_effects_bind; [apply same_effects_verbose | intros _].
  apply same_effects_bind; [apply same_effects_collect | intros allReplaces].
  assert (Hd : gomod.Deduplicate cmp order allReplaces
               = gomod.Deduplicate cmp order' allReplaces)
    by (unfold gomod.Deduplicate; now rewrite Horder).
  cbv zeta. rewrite Hd.
  intros w w' Hf He. rewrite Hf.
  destruct (findStaleReplaces _ _ _ _ _) as [stale err].
  apply same_effects_bind; try assumption.
  - apply same_effects_quiet;
      (destruct err; [apply quiet_verbose | apply quiet_ret]).
  - intros _. now apply same_effects_finish.
Qed.

End VerboseFacts.

Section CommentFacts.

Import sync.
Local Open Scope list_scope.

Variable filepath_Join : string -> string -> string.
Variable write_error : string -> string -> gmap string string -> option error.
Local Abbreviation addSourceComment := (sync.addSourceComment filepath_Join write_error).

(** X17.  [addSourceComment] writes to no writer, starts no process and
    leaves every file but the manifest as it is.  Without a manifest it
    fails and changes nothing.  With a manifest that lacks the directive,
    or holds it already followed by its comment, it succeeds and changes
    nothing.  Otherwise it writes the manifest with the comment inserted
    after the first occurrence of the directive: when the write is
    refused it returns the error of the write and the files are as
    before; when the write goes through it succeeds.  So whenever it
    succeeds, the manifest afterwards holds the directive followed by its
    comment if it held the directive, and is unchanged if it did not. *)
Theorem addSourceComment_effects (dir : string) (r : gomod.Replace) (w : World) :
  written (addSourceComment dir r w).2 = written w /\
  executed (addSourceComment dir r w).2 = executed w /\
  (forall other, other ≠ filepath_Join dir "go.mod" ->
                 files (addSourceComment dir r w).2 !! other = files w !! other) /\
  match files w !! filepath_Join dir "go.mod" with
  | None =>
      is_Some (addSourceComment dir r w).1 /\ (addSourceComment dir r w).2 = w
  | Some content =>
      if strings.Contains content (pattern_of r) &&
         negb (strings.Contains content (pattern_of r ++ comment_of r)%string)
      then
        match write_error (filepath_Join dir "go.mod")
                (strings.Replace1 content (pattern_of r)
                   (pattern_of r ++ comment_of r)%string) (files w) with
        | Some err => addSourceComment dir r w = (Some err, w)
        | None =>
            (addSourceComment dir r w).1 = None /\
            files (addSourceComment dir r w).2 !! filepath_Join dir "go.mod"
            = Some (strings.Replace1 content (pattern_of r)
                      (pattern_of r ++ comment_of r)%string)
        end
      else addSourceComment dir r w = (None, w)
  end /\
  (forall content,
      files w !! filepath_Join dir "go.mod" = Some content ->
      (addSourceComment dir r w).1 = None ->
      exists content',
        files (addSourceComment dir r w).2 !! filepath_Join dir "go.mod"
        = Some content' /\
        (strings.Contains content (pattern_of r) = true ->
         strings.Contains content' (pattern_of r ++ comment_of r)%string = true) /\
        (strings.Contains content (pattern_of r) = false -> content' = content)).
Proof.
  destruct (files w !! filepath_Join dir "go.mod") as [content|] eqn:Hfile.
  - destruct (strings.Contains content (pattern_of r ++ comment_of r)%string) eqn:Hc.
    + rewrite (addSourceComment_annotated _ _ dir r w content Hfile Hc).
      cbn [fst snd]. rewrite andb_false_r.
      repeat split; try reflexivity.
      intros content0 [= <-] _.
      exists content. split; [exact Hfile |]. split; [intros _; exact Hc |].
      reflexivity.
    + destruct (strings.Contains content (pattern_of r)) eqn:Hp.
      * cbn [andb negb].
        destruct (write_error (filepath_Join dir "go.mod")
                    (strings.Replace1 content (pattern_of r)
                       (pattern_of r ++ comment_of r)%string) (files w))
          as [err|] eqn:Hw.
        -- rewrite (addSourceComment_refused _ _ dir r w content err Hfile Hp Hc Hw).
           cbn [fst snd]. repeat split; try reflexivity.
           intros content0 _ [=].
        -- rewrite (addSourceComment_rewrite _ _ dir r w content Hfile Hp Hc Hw).
           cbn [fst snd files written executed]. repeat split.
           ++ intros other Hother. now apply lookup_insert_ne.
           ++ apply lookup_insert_eq.
           ++ intros content0 [= <-] _. eexists. split; [apply lookup_insert_eq |].
              split; [intros _; now apply Replace1_Contains | rewrite Hp; discriminate].
      * rewrite (addSourceComment_absent _ _ dir r w content Hfile Hp).
        cbn [fst snd andb]. repeat split; try reflexivity.
        intros content0 [= <-] _.
        exists content. split; [exact Hfile |]. split; [congruence | reflexivity].
  - rewrite (addSourceComment_unreadable _ _ dir r w Hfile).
    cbn [fst snd]. repeat split; [eauto |]. intros content0 [=].
Qed.

End CommentFacts.

Section StaleNever.

Import sync.
Local Open Scope list_scope.

Variable filepath_Join : string -> string -> string.
Variable modfile_Parse : string -> string -> result modfile.File.
Variable strings_TrimSpace : string -> string.

(** X18.  Whatever the files are, no record that [findStaleReplaces]
    returns has the [Old] of a record of the reconciled list or an empty
    [Source]; and when it returns an error it returns no record. *)
Theorem findStaleReplaces_never_applied (dir : string)
        (current : list gomod.Replace) (fs : gmap string string) :
  Forall (fun r => (gomod.Old r ∉ gomod.Old <$> current) /\ gomod.Source r ≠ "")
         (findStaleReplaces filepath_Join modfile_Parse strings_TrimSpace dir current fs).1 /\
  (is_Some (findStaleReplaces filepath_Join modfile_Parse strings_TrimSpace dir current fs).2 ->
   (findStaleReplaces filepath_Join modfile_Parse strings_TrimSpace dir current fs).1 = []).
Proof.
  unfold findStaleReplaces.
  destruct (gomod.ParseReplacesWithSource _ _ _ _) as [annotated | err] eqn:Hread.
  - cbn [fst snd]. split; [| intros [? [=]]].
    rewrite (fold_left_keep
               (fun r => negb (default false
                  (fold_left (fun (keys : gmap string bool) r => <[gomod.Old r := true]> keys)
                             current ∅ !! gomod.Old r))) id).
    rewrite list_fmap_id. simpl. apply Forall_forall. intros r Hr.
    apply list_elem_of_filter in Hr as [Hkeep Hr].
    rewrite currentKeys_lookup, negb_true_iff,
      bool_decide_eq_false in Hkeep.
    split; [exact Hkeep |].
    exact (ParseReplacesWithSource_annotated _ _ _ _ _ r Hread Hr).
  - cbn [fst snd]. split; [constructor | reflexivity].
Qed.

End StaleNever.

Section ConcreteExtras.

Import Example.
Local Open Scope list_scope.

Lemma annotate_provenance_witness :
  gomod.Source (gomod.annotate TrimSpace stale_directive) = "example.com/dep".
Proof.
  refine (proj1 (proj2 (annotate_provenance TrimSpace stale_directive))
            {| modfile.Suffix := [{| modfile.Token := "// from: example.com/dep" |}] |}
            [] {| modfile.Token := "// from: example.com/dep" |} []
            "// " " example.com/dep" eq_refl eq_refl eq_refl _ _).
  - intros pre' post' H. simpl in H.
    destruct pre' as [|a [|b [|c pre']]]; simpl in *; try discriminate; lia.
  - intros c' Hc'. inversion Hc'.
Defined.

Lemma distinct_keys : NoDup (gomod.key_of <$> [foo_v1; baz_v1]).
Proof.
  apply NoDup_cons. split; [| apply NoDup_singleton].
  intros H. apply list_elem_of_singleton in H. discriminate.
Qed.

Lemma Deduplicate_keeps_distinct_keys_witness :
  gomod.Deduplicate semver.Compare reverse_order [foo_v1; baz_v1]
  ≡ₚ [foo_v1; baz_v1].
Proof.
  exact (Deduplicate_keeps_distinct_keys semver.Compare reverse_order
           [foo_v1; baz_v1] distinct_keys).
Defined.

Lemma Deduplicate_earliest_lowest_per_key_witness :
  exists w,
    filter (fun s => gomod.key_of s = gomod.key_of a_constrained)
           (gomod.Deduplicate semver.Compare listing_order
              [a_constrained; a_constrained_again; a_at]) = [w] /\
    gomod.first_lowest semver.Compare
      (filter (fun s => gomod.key_of s = gomod.key_of a_constrained)
              [a_constrained; a_constrained_again; a_at]) = Some w.
Proof.
  refine (Deduplicate_earliest_lowest_per_key semver.Compare listing_order
            [a_constrained; a_constrained_again; a_at] a_constrained _).
  constructor.
Defined.

Lemma Run_effects_ignore_verbosity_witness :
  (Run listing_order (options false) (world with_stale)).1
  = (Run listing_order (quiet_options false) (world with_stale)).1 /\
  sync.files (Run listing_order (options false) (world with_stale)).2
  = sync.files (Run listing_order (quiet_options false) (world with_stale)).2 /\
  sync.executed (Run listing_order (options false) (world with_stale)).2
  = sync.executed (Run listing_order (quiet_options false) (world with_stale)).2.
Proof.
  exact (Run_effects_ignore_verbosity os_Getwd filepath_Join modfile_Parse
           semver.Compare go json_Decode TrimSpace write_error go_stderr
           listing_order listing_order
           (options false) (quiet_options false)
           (world with_stale) (world with_stale)
           (fun l => eq_refl) eq_refl eq_refl eq_refl eq_refl eq_refl).
Defined.

End ConcreteExtras.

Section ConcretePhases.

Import Example.
Local Open Scope list_scope.

Lemma subdir_manifest_missing :
  gomod.ParseReplacesWithSource
    (sync.os_ReadFile (go (sync.go_list "/proj/cmd") with_stale).1) modfile_Parse
    TrimSpace (filepath_Join "/proj/cmd" "go.mod")
  = Err "open /proj/cmd/go.mod: no such file or directory".
Proof. vm_compute. reflexivity. Qed.

Lemma stale_check_failure_is_not_fatal_witness :
  (Run listing_order subdir_options (world with_stale)).1 = None /\
  sync.executed (Run listing_order subdir_options (world with_stale)).2
  = [sync.go_list "/proj/cmd";
     sync.go_mod_edit_replace "/proj/cmd"
       (gomod.with_Source old_module "example.com/dep");
     sync.go_mod_tidy "/proj/cmd"].
Proof.
  destruct (stale_check_failure_is_not_fatal os_Getwd filepath_Join
              modfile_Parse semver.Compare listing_order go json_Decode
              TrimSpace write_error go_stderr
              subdir_options (world with_stale) "/proj/cmd" "listing"
              [{| sync.Path := "example.com/dep"; sync.Version := "v0.0.0";
                  sync.ModDir := "/proj/dep"; sync.Main := false;
                  sync.Indirect := false |}]
              "open /proj/cmd/go.mod: no such file or directory"
              eq_refl eq_refl eq_refl subdir_manifest_missing)
    as (_ & _ & Hsucceeds & _).
  destruct (Hsucceeds go_always_succeeds eq_refl) as [Hresult Hexecuted].
  split; [exact Hresult |].
  etransitivity; [exact Hexecuted | vm_compute; reflexivity].
Defined.

Lemma apply_replaces_stops_at_failure_witness :
  (sync.apply_replaces filepath_Join (go_rejecting rejected_edit) write_error
     (go_rejecting_stderr rejected_edit) (sync.Sink "out") (options false) "/proj"
     [foo_v1; baz_v1; old_module] (world with_stale)).1
  = Some "applying replace github.com/baz: exit status 1" /\
  sync.executed
    (sync.apply_replaces filepath_Join (go_rejecting rejected_edit) write_error
       (go_rejecting_stderr rejected_edit) (sync.Sink "out") (options false) "/proj"
       [foo_v1; baz_v1; old_module] (world with_stale)).2
  = [sync.go_mod_edit_replace "/proj" foo_v1; sync.go_mod_edit_replace "/proj" baz_v1].
Proof.
  refine (proj1 (proj2 (proj2 (proj2 (proj2
            (apply_replaces_stops_at_failure filepath_Join
               (go_rejecting rejected_edit) write_error
               (go_rejecting_stderr rejected_edit) (sync.Sink "out") (options false)
               "/proj" [foo_v1; baz_v1; old_module] (world with_stale))))))
            [foo_v1] baz_v1 [old_module] "exit status 1" eq_refl _ _).
  - intros a Ha fs. apply list_elem_of_singleton in Ha. subst a.
    eexists. reflexivity.
  - intros fs. reflexivity.
Defined.

Lemma addSourceComment_effects_witness :
  sync.addSourceComment filepath_Join read_only "/proj"
    (gomod.with_Source old_module "example.com/dep") (world with_applied)
  = (Some "open /proj/go.mod: permission denied", world with_applied).
Proof.
  exact (proj1 (proj2 (proj2 (proj2
           (addSourceComment_effects filepath_Join read_only "/proj"
              (gomod.with_Source old_module "example.com/dep")
              (world with_applied)))))).
Defined.

End ConcretePhases.
